(** * MAI-AdBrowser: layout, viewport and transition engine

    A shallow embedding of the layout search ([applyGridLayout],
    [applyGroupedLayout]), the viewport controller ([zoom], [constrainPan],
    [fitToViewport]), the filter reducer ([applyFilters]) and the FLIP
    animator ([PivotAnimator]) of the JavaScript sources, with the
    properties the specification states about them.

    Numbers.  JavaScript numbers are modelled as exact rationals ([Q]):
    the development is about the algorithms, not about the rounding of
    binary64 arithmetic.  Values that the sources obtain from [Math.floor]
    or [Math.ceil] are integers ([Z]); loop counters and list indices are
    naturals.  The one place where the rounding decides the outcome, the
    choice between candidates of the column search whose wasted spaces
    are equal or nearly so, is modelled in binary64 as well ([Grid64]). *)

From Stdlib Require Import QArith Qabs Qround Qminmax ZArith List Lia Lqa.
From Stdlib Require Import Floats.SpecFloat.
From stdpp Require Import gmap strings list pretty sorting.

(** ** Number helpers shared by all components *)

Module Num.
Local Open Scope Q_scope.

(** [a < b] on JavaScript numbers, as a boolean. *)
Definition Qltb (a b : Q) : bool := negb (Qle_bool b a).

(** A natural loop counter or list length used as a number. *)
Definition ofNat (n : nat) : Q := inject_Z (Z.of_nat n).

(** [a || b] on numbers: [0] (and [NaN], which the model does not have) is
    falsy. *)
Definition orNum (a b : Q) : Q := if Qeq_bool a 0 then b else a.

(** [parseFloat(s) || b]: [None] stands for the [NaN] that [parseFloat]
    returns on an empty or malformed style string. *)
Definition parsedOr (a : option Q) (b : Q) : Q :=
  match a with
  | Some q => orNum q b
  | None => b
  end.

End Num.

(** ** Layout settings of the [PivotApp] constructor *)

Module Settings.
Local Open Scope Q_scope.

Definition baseHeight : Q := 50.
Definition itemGap : Q := 4.
Definition blockGap : Q := 60.
Definition padding : Q := 20.

End Settings.

(** ** Uniform grid layout ([PivotApp.applyGridLayout]) *)

Module Grid.
Import Num Settings.
Local Open Scope Q_scope.

(** The running optimum of the column search: [bestFit = None] is the
    initial [Infinity]. *)
Record best := mkBest {
  bestCellSize : Q;
  bestCols : nat;
  bestRows : Z;
  bestFit : option Q
}.

Definition initBest : best :=
  {| bestCellSize := 60; bestCols := 1%nat; bestRows := 1%Z; bestFit := None |}.

Section Search.
Variable totalItems : nat.
Variables containerWidth containerHeight : Q.

(** [rows = Math.ceil(totalItems / cols)] *)
Definition rowsOf (cols : nat) : Z := Qceiling (ofNat totalItems / ofNat cols).

Definition cellWidth (cols : nat) : Q :=
  (containerWidth - (ofNat cols - 1) * itemGap) / ofNat cols.

Definition cellHeight (cols : nat) : Q :=
  (containerHeight - (inject_Z (rowsOf cols) - 1) * itemGap) / inject_Z (rowsOf cols).

(** [cellSize = Math.min(cellWidth, cellHeight)] *)
Definition cellSizeOf (cols : nat) : Q := Qmin (cellWidth cols) (cellHeight cols).

(** The [continue] test negated: the candidate survives when its cell size
    is neither below 30 nor above 200. *)
Definition admissible (cols : nat) : bool :=
  negb (Qltb (cellSizeOf cols) 30 || Qltb 200 (cellSizeOf cols)).

Definition gridWidthOf (cols : nat) : Q :=
  ofNat cols * cellSizeOf cols + (ofNat cols - 1) * itemGap.

Definition gridHeightOf (cols : nat) : Q :=
  inject_Z (rowsOf cols) * cellSizeOf cols + (inject_Z (rowsOf cols) - 1) * itemGap.

Definition wastedSpace (cols : nat) : Q :=
  Qabs (containerWidth - gridWidthOf cols) + Qabs (containerHeight - gridHeightOf cols).

(** [wastedSpace < bestFit], with [bestFit] possibly [Infinity]. *)
Definition improves (w : Q) (fit : option Q) : bool :=
  match fit with
  | None => true
  | Some f => Qltb w f
  end.

(** One iteration of the [for] loop. *)
Definition tryCols (b : best) (cols : nat) : best :=
  if admissible cols then
    if improves (wastedSpace cols) (bestFit b) then
      {| bestCellSize := cellSizeOf cols; bestCols := cols;
         bestRows := rowsOf cols; bestFit := Some (wastedSpace cols) |}
    else b
  else b.

(** [for (cols = 1; cols <= totalItems; cols++)] from the initial optimum. *)
Definition searchUpTo (n : nat) : best := fold_left tryCols (seq 1 n) initBest.

Definition search : best := searchUpTo totalItems.

End Search.

(** A style write: the element of the ad at [index] in the visible list
    receives [left], [top] and a square [size]. *)
Record placement := mkPlacement {
  p_index : nat;
  p_left : Q;
  p_top : Q;
  p_size : Z
}.

(** The outcome of one layout pass: the style writes in the order of the
    [forEach], and the wrapper dimensions set at the end. *)
Record layout := mkLayout {
  placements : list placement;
  wrapperWidth : Q;
  wrapperHeight : Q
}.

(** [applyGridLayout] on [totalItems] visible items in a container whose
    inner size (client size minus the padding on both sides) is
    [containerWidth] by [containerHeight].  [None] is the early [return]
    on an empty visible list. *)
Definition applyGridLayoutIn (totalItems : nat) (containerWidth containerHeight : Q)
  : option layout :=
  if Nat.eqb totalItems 0 then None else
  let b := search totalItems containerWidth containerHeight in
  let cellSize := Qfloor (bestCellSize b) in
  let cols := bestCols b in
  let gridWidth := ofNat cols * inject_Z cellSize + (ofNat cols - 1) * itemGap in
  let gridHeight :=
    inject_Z (bestRows b) * inject_Z cellSize + (inject_Z (bestRows b) - 1) * itemGap in
  let offsetX := Qmax 0 ((containerWidth - gridWidth) / 2) in
  let offsetY := Qmax 0 ((containerHeight - gridHeight) / 2) in
  Some {| placements :=
            map (fun index =>
                   {| p_index := index;
                      p_left := offsetX + ofNat (index mod cols) * (inject_Z cellSize + itemGap);
                      p_top := offsetY + ofNat (index / cols) * (inject_Z cellSize + itemGap);
                      p_size := cellSize |})
                (seq 0 totalItems);
          wrapperWidth := containerWidth;
          wrapperHeight := offsetY + gridHeight + padding |}.

(** The same with the client size of the grid container as input. *)
Definition applyGridLayout (totalItems : nat) (clientWidth clientHeight : Q)
  : option layout :=
  applyGridLayoutIn totalItems (clientWidth - padding * 2) (clientHeight - padding * 2).

End Grid.

(** ** Binary64 numbers *)

(** The numbers of the column search as JavaScript has them: IEEE 754
    binary64 values, with the arithmetic of the standard
    ([Floats.SpecFloat]: every operation rounds to nearest, ties to
    even). *)
Module Binary64.

Definition number : Type := spec_float.

Definition prec : Z := 53.
Definition emax : Z := 1024.

(** An integer as a number (exact up to 53 bits, rounded beyond). *)
Definition ofZ (z : Z) : number := binary_normalize prec emax z 0 false.

(** A loop counter or list length used as a number. *)
Definition ofNat (n : nat) : number := ofZ (Z.of_nat n).

Definition Infinity : number := S754_infinity false.

Definition add : number -> number -> number := SFadd prec emax.
Definition sub : number -> number -> number := SFsub prec emax.
Definition mul : number -> number -> number := SFmul prec emax.
Definition div : number -> number -> number := SFdiv prec emax.

(** [a < b]: false when either is [NaN]. *)
Definition ltb : number -> number -> bool := SFltb.

(** [a <= b]: false when either is [NaN]. *)
Definition leb : number -> number -> bool := SFleb.

(** [Math.abs] *)
Definition abs : number -> number := SFabs.

(** [Math.ceil]: a number whose exponent is not negative is an integer
    already; [-0] is the ceiling of the numbers between -1 and 0. *)
Definition ceil (x : number) : number :=
  match x with
  | S754_finite s m e =>
      match e with
      | Zneg k =>
          let q := (Zpos m / 2 ^ Zpos k)%Z in
          let r := (Zpos m mod 2 ^ Zpos k)%Z in
          if s then binary_normalize prec emax (- q) 0 true
          else binary_normalize prec emax (if (r =? 0)%Z then q else q + 1) 0 false
      | _ => x
      end
  | _ => x
  end.

(** [Math.min] of two numbers: [NaN] if either is, and [-0] below [+0]. *)
Definition min (x y : number) : number :=
  match SFcompare x y with
  | None => S754_nan
  | Some Lt => x
  | Some Gt => y
  | Some Eq =>
      match x, y with
      | S754_zero sx, S754_zero sy => S754_zero (sx || sy)
      | _, _ => x
      end
  end.

End Binary64.

(** ** The column search as the code computes it *)

(** The search loop of [applyGridLayout] once more, this time in binary64:
    which of two candidates of nearly the same wasted space is chosen
    depends on the rounding of the arithmetic. *)
Module Grid64.
Import Binary64.

(** [this.itemGap] *)
Definition itemGap : number := ofZ 4.

(** The running optimum of the column search. *)
Record best := mkBest {
  bestCellSize : number;
  bestCols : nat;
  bestRows : number;
  bestFit : number
}.

Definition initBest : best :=
  {| bestCellSize := ofZ 60; bestCols := 1%nat; bestRows := ofZ 1; bestFit := Infinity |}.

Section Search.
Variable totalItems : nat.
Variables containerWidth containerHeight : number.

(** [rows = Math.ceil(totalItems / cols)] *)
Definition rowsOf (cols : nat) : number := ceil (div (ofNat totalItems) (ofNat cols)).

Definition cellWidth (cols : nat) : number :=
  div (sub containerWidth (mul (sub (ofNat cols) (ofZ 1)) itemGap)) (ofNat cols).

Definition cellHeight (cols : nat) : number :=
  div (sub containerHeight (mul (sub (rowsOf cols) (ofZ 1)) itemGap)) (rowsOf cols).

(** [cellSize = Math.min(cellWidth, cellHeight)] *)
Definition cellSizeOf (cols : nat) : number := min (cellWidth cols) (cellHeight cols).

(** The [continue] test negated. *)
Definition admissible (cols : nat) : bool :=
  negb (ltb (cellSizeOf cols) (ofZ 30) || ltb (ofZ 200) (cellSizeOf cols)).

Definition gridWidthOf (cols : nat) : number :=
  add (mul (ofNat cols) (cellSizeOf cols)) (mul (sub (ofNat cols) (ofZ 1)) itemGap).

Definition gridHeightOf (cols : nat) : number :=
  add (mul (rowsOf cols) (cellSizeOf cols)) (mul (sub (rowsOf cols) (ofZ 1)) itemGap).

Definition wastedSpace (cols : nat) : number :=
  add (abs (sub containerWidth (gridWidthOf cols)))
      (abs (sub containerHeight (gridHeightOf cols))).

(** One iteration of the [for] loop. *)
Definition tryCols (b : best) (cols : nat) : best :=
  if admissible cols then
    if ltb (wastedSpace cols) (bestFit b) then
      {| bestCellSize := cellSizeOf cols; bestCols := cols;
         bestRows := rowsOf cols; bestFit := wastedSpace cols |}
    else b
  else b.

(** [for (cols = 1; cols <= totalItems; cols++)] from the initial optimum. *)
Definition searchUpTo (n : nat) : best := fold_left tryCols (seq 1 n) initBest.

Definition search : best := searchUpTo totalItems.

End Search.

End Grid64.

(** ** Viewport controller ([PivotApp.zoom], [constrainPan], [fitToViewport]) *)

Module Viewport.
Import Num.
Local Open Scope Q_scope.

(** [this.scale] and [this.panOffset]. *)
Record viewport := mkViewport {
  scale : Q;
  panX : Q;
  panY : Q
}.

(** Zoom limits of the [PivotApp] constructor. *)
Definition minScale : Q := 1 # 10.
Definition maxScale : Q := 10.

(** What the viewport code reads from the grid wrapper: the parsed inline
    style size ([None] when [parseFloat] yields [NaN]) and the offset size. *)
Record wrapper := mkWrapper {
  styleWidth : option Q;
  styleHeight : option Q;
  offsetWidth : Q;
  offsetHeight : Q
}.

(** The client size of the grid container. *)
Record container := mkContainer {
  clientWidth : Q;
  clientHeight : Q
}.

(** A quotient of JavaScript numbers; [None] when the divisor is zero, where
    JavaScript yields an infinity or [NaN] that no rational stands for. *)
Definition divide (a b : Q) : option Q :=
  if Qeq_bool b 0 then None else Some (a / b).

(** [(parseFloat(wrapper.style.width) || wrapper.offsetWidth) * this.scale] *)
Definition contentWidth (v : viewport) (w : wrapper) : Q :=
  parsedOr (styleWidth w) (offsetWidth w) * scale v.

Definition contentHeight (v : viewport) (w : wrapper) : Q :=
  parsedOr (styleHeight w) (offsetHeight w) * scale v.

(** One axis of [constrainPan]; the source repeats this block for [x] and
    for [y]. *)
Definition constrainAxis (containerSize contentSize pan : Q) : Q :=
  let minX := Qmin 0 (containerSize - contentSize) in
  let maxX := Qmax 0 (containerSize - contentSize) in
  if Qle_bool contentSize containerSize then
    (containerSize - contentSize) / 2
  else
    let p := Qmax minX (Qmin (if Qeq_bool maxX 0 then 0 else 0) pan) in
    let p := if Qltb 0 p then 0 else p in
    if Qltb p (containerSize - contentSize) then containerSize - contentSize else p.

Definition constrainPan (w : wrapper) (c : container) (v : viewport) : viewport :=
  {| scale := scale v;
     panX := constrainAxis (clientWidth c) (contentWidth v w) (panX v);
     panY := constrainAxis (clientHeight c) (contentHeight v w) (panY v) |}.

(** The new scale of [zoom]: [Math.min(maxScale, Math.max(minScale, scale * factor))]. *)
Definition zoomScale (factor : Q) (v : viewport) : Q :=
  Qmin maxScale (Qmax minScale (scale v * factor)).

(** The translation of [zoom] before [constrainPan] is applied. *)
Definition zoomPan (center pan scaleChange : Q) : Q :=
  center - (center - pan) * scaleChange.

(** [zoom(factor)] up to the call of [constrainPan]: the pivot is the
    centre of the container. *)
Definition zoomUnconstrained (factor : Q) (c : container) (v : viewport)
  : option viewport :=
  let oldScale := scale v in
  let newScale := zoomScale factor v in
  let centerX := clientWidth c / 2 in
  let centerY := clientHeight c / 2 in
  match divide newScale oldScale with
  | None => None
  | Some scaleChange =>
      Some {| scale := newScale;
              panX := zoomPan centerX (panX v) scaleChange;
              panY := zoomPan centerY (panY v) scaleChange |}
  end.

(** [zoom(factor)]: the pan recomputed around the centre, then constrained. *)
Definition zoom (factor : Q) (w : wrapper) (c : container) (v : viewport)
  : option viewport :=
  option_map (constrainPan w c) (zoomUnconstrained factor c v).

(** Viewport states that hold equal numbers. *)
Definition veq (v1 v2 : viewport) : Prop :=
  scale v1 == scale v2 /\ panX v1 == panX v2 /\ panY v1 == panY v2.

(** [parseFloat(wrapper.style.width) || wrapper.offsetWidth || containerWidth] *)
Definition fitContentWidth (w : wrapper) (c : container) : Q :=
  orNum (parsedOr (styleWidth w) (offsetWidth w)) (clientWidth c).

Definition fitContentHeight (w : wrapper) (c : container) : Q :=
  orNum (parsedOr (styleHeight w) (offsetHeight w)) (clientHeight c).

(** The scale of [fitToViewport] before clamping. *)
Definition fitScale (w : wrapper) (c : container) : option Q :=
  let contentWidth := fitContentWidth w c in
  let contentHeight := fitContentHeight w c in
  if Qeq_bool contentWidth 0 || Qeq_bool contentHeight 0 then Some 1
  else
    let padding := 40 in
    match divide (clientWidth c - padding) contentWidth,
          divide (clientHeight c - padding) contentHeight with
    | Some scaleX, Some scaleY => Some (Qmin scaleX scaleY)
    | _, _ => None
    end.

(** [fitToViewport()]: the previous viewport state is not read. *)
Definition fitToViewport (w : wrapper) (c : container) : option viewport :=
  match fitScale w c with
  | None => None
  | Some s =>
      let s := Qmax minScale (Qmin maxScale s) in
      let scaledWidth := fitContentWidth w c * s in
      let scaledHeight := fitContentHeight w c * s in
      Some {| scale := s;
              panX := (clientWidth c - scaledWidth) / 2;
              panY := (clientHeight c - scaledHeight) / 2 |}
  end.

End Viewport.

(** ** [Array.prototype.sort] with a comparator *)

Module Js.

(** [sort] is stable: of two elements the comparator ranks equal, the one
    that came first stays first.  The model inserts from the right, each
    element going before the first later element it does not rank after.
    (For a comparator that is not a consistent order the outcome of the
    real [sort] is left to the engine.) *)
Fixpoint insertBy {A : Type} (cmp : A -> A -> Z) (x : A) (l : list A) : list A :=
  match l with
  | [] => [x]
  | y :: l' => if (cmp x y <=? 0)%Z then x :: y :: l' else y :: insertBy cmp x l'
  end.

Definition sortBy {A : Type} (cmp : A -> A -> Z) (l : list A) : list A :=
  foldr (insertBy cmp) [] l.

End Js.

(** ** Filter state ([PivotApp.applyFilters], [AdViewer.applyFilters]) *)

Module Filter.
Import Js.

(** The value of a categorical attribute, a string of the manifest;
    [None] is [undefined]. *)
Definition value : Type := option string.

(** An ad of the manifest: [ad_id] is [String(ad.id)]; [ad_attr f] is
    [ad[f]] where that is a string, and [None] where it is [undefined];
    [ad_num f] is [ad[f]] where that is a number, and [ad_attr f] is then
    [None]: a number is no string, and is strictly equal to none. *)
Record ad := mkAd {
  ad_id : string;
  ad_attr : string -> value;
  ad_num : string -> option Q
}.

(** [this.activeFilters]: the allow-list of each attribute, in the order of
    [Object.entries]. *)
Definition filters : Type := list (string * list value).

(** [values.includes(v)] *)
Definition includes (values : list value) (v : value) : bool :=
  bool_decide (v ∈ values).

(** The inner [forEach] over [Object.entries(this.activeFilters)], which
    starts from [matches = true]. *)
Definition matchesAd (activeFilters : filters) (a : ad) : bool :=
  fold_left
    (fun matches '(field, values) =>
       if (0 <? length values)%nat && negb (includes values (ad_attr a field))
       then false else matches)
    activeFilters true.

(** The outer [forEach]: the set of the ids of the matching ads. *)
Definition matchingIds (activeFilters : filters) (ads : list ad) : gset string :=
  fold_left
    (fun ids a => if matchesAd activeFilters a then {[ad_id a]} ∪ ids else ids)
    ads ∅.

(** [this.ads.filter(ad => matchingIds.has(String(ad.id)))] *)
Definition filteredAds (activeFilters : filters) (ads : list ad) : list ad :=
  filter (fun a => ad_id a ∈ matchingIds activeFilters ads) ads.

(** What [sortAds] compares: a string or a number. *)
Inductive operand :=
| Text (s : string)
| Number (q : Q).

Section Sort.
(** [String.prototype.localeCompare], a collation of the platform. *)
Variable localeCompare : string -> string -> Z.
(** The conversions of the platform between numbers and strings,
    [Number::toString] and [StringToNumber]; [None] is [NaN]. *)
Variable numberToString : Q -> string.
Variable stringToNumber : string -> option Q.

(** [a[field] || ''] for a field that holds a string or nothing. *)
Definition sortKey (field : string) (a : ad) : string :=
  match ad_attr a field with
  | Some s => s
  | None => EmptyString
  end.

(** [a[field] || '']: the number [0] is falsy as [undefined] and [''] are,
    and gives [''] too. *)
Definition sortOperand (field : string) (a : ad) : operand :=
  match ad_num a field with
  | Some q => if Qeq_bool q 0%Q then Text EmptyString else Number q
  | None => Text (sortKey field a)
  end.

(** What the comparator of [sortAds] returns, [None] for [NaN]: on a
    string, [valA.localeCompare(valB) * order], where [localeCompare]
    converts its argument to a string; on a number,
    [(valA - valB) * order], where the subtraction converts [valB] to a
    number.  [ascending] is [this.currentSortOrder === 'asc']. *)
Definition compareValues (ascending : bool) (valA valB : operand) : option Q :=
  let order : Q := if ascending then 1%Q else (-1)%Q in
  match valA with
  | Text sA =>
      let that := match valB with
                  | Text sB => sB
                  | Number qB => numberToString qB
                  end in
      Some (inject_Z (localeCompare sA that) * order)%Q
  | Number qA =>
      match (match valB with
             | Text sB => stringToNumber sB
             | Number qB => Some qB
             end) with
      | Some qB => Some ((qA - qB) * order)%Q
      | None => None
      end
  end.

(** The comparator as [Array.prototype.sort] takes it: the sign of the
    number returned, [NaN] counting as [0]. *)
Definition compareAds (field : string) (ascending : bool) (a b : ad) : Z :=
  match compareValues ascending (sortOperand field a) (sortOperand field b) with
  | Some q => Z.sgn (Qnum q)
  | None => 0%Z
  end.

(** [this.visibleAds] after [applyFilters]: the filtered ads, sorted. *)
Definition visibleAds (activeFilters : filters) (field : string) (ascending : bool)
    (ads : list ad) : list ad :=
  sortBy (compareAds field ascending) (filteredAds activeFilters ads).
End Sort.

(** *** The [AdViewer] variant *)






End Filter.

(** ** Grouped layout ([PivotApp.applyGroupedLayout]) *)

Module Grouped.
Import Num Settings Js Filter.
Local Open Scope Q_scope.

(** The label constants of [applyGroupedLayout]. *)
Definition labelHeight : Q := 40.
Definition labelMargin : Q := 10.

(** [ad[this.currentGroupBy] || 'Unknown'] *)
Definition groupKey (groupBy : string) (a : ad) : string :=
  match ad_attr a groupBy with
  | Some EmptyString => "Unknown"
  | Some s => s
  | None => "Unknown"
  end.

(** [groups.get(key).push(ad)], after [groups.set(key, [])] for a new key:
    a [Map] keeps its keys in insertion order. *)
Fixpoint pushTo (key : string) (a : ad) (groups : list (string * list ad))
  : list (string * list ad) :=
  match groups with
  | [] => [(key, [a])]
  | (k, members) :: rest =>
      if String.eqb k key then (k, members ++ [a]) :: rest
      else (k, members) :: pushTo key a rest
  end.

Definition groupAds (groupBy : string) (filteredAds : list ad) : list (string * list ad) :=
  fold_left (fun groups a => pushTo (groupKey groupBy a) a groups) filteredAds [].

(** The style written on one item. *)
Record itemStyle := mkItemStyle {
  s_id : string;
  s_left : Q;
  s_top : Q;
  s_width : Q;
  s_height : Q
}.

(** What the second [forEach] computes and writes for one group: the
    geometry of its block, the styles of its items and the position of its
    label. *)
Record block := mkBlock {
  category : string;
  count : nat;
  groupCenterX : Q;
  cols : Z;
  rows : Z;
  blockX : Q;
  stackTopY : Q;
  blockWidth : Q;
  blockHeight : Q;
  items : list itemStyle;
  labelLeft : Q;
  labelTop : Q
}.

Record groupedLayout := mkGroupedLayout {
  columnWidth : Z;
  maxStackHeight : Q;
  blocks : list block;
  canvasWidth : Q;
  canvasHeight : Q
}.

Section Layout.
(** [String.prototype.localeCompare], a collation of the platform. *)
Variable localeCompare : string -> string -> Z.
(** Whether the element of an ad exists and is not hidden. *)
Variable shown : ad -> bool.

Definition cellSize : Q := baseHeight.

(** [[...groups.entries()].sort((a, b) => a[0].localeCompare(b[0]))] *)
Definition sortedGroups (groupBy : string) (filteredAds : list ad)
  : list (string * list ad) :=
  sortBy (fun a b => localeCompare a.1 b.1) (groupAds groupBy filteredAds).

(** [Math.floor(canvasWidth / numGroups)] *)
Definition columnWidthOf (canvasWidth : Q) (numGroups : nat) : Z :=
  Qfloor (canvasWidth / ofNat numGroups).

(** [Math.max(1, Math.floor((columnWidth - blockGap) / (cellSize + itemGap)))] *)
Definition colsIn (columnWidth : Z) : Z :=
  Z.max 1 (Qfloor ((inject_Z columnWidth - blockGap) / (cellSize + itemGap))).

(** [Math.ceil(count / cols)] *)
Definition rowsFor (count : nat) (cols : Z) : Z :=
  Qceiling (ofNat count / inject_Z cols).

Definition stackHeightOf (columnWidth : Z) (g : string * list ad) : Q :=
  inject_Z (rowsFor (length g.2) (colsIn columnWidth)) * (cellSize + itemGap).

(** The first [forEach]: the height of the tallest stack. *)
Definition maxStackHeightOf (columnWidth : Z) (groups : list (string * list ad)) : Q :=
  fold_left (fun m g => Qmax m (stackHeightOf columnWidth g)) groups 0.

(** The style of the item at index [i] of a group. *)
Definition styleAt (cols : Z) (blockX stackTopY : Q) (i : nat) (a : ad) : itemStyle :=
  let col := (Z.of_nat i mod cols)%Z in
  let row := Qfloor (ofNat i / inject_Z cols) in
  {| s_id := ad_id a;
     s_left := blockX + inject_Z col * (cellSize + itemGap);
     s_top := stackTopY + inject_Z row * (cellSize + itemGap);
     s_width := cellSize;
     s_height := cellSize |}.

(** One iteration of the second [forEach]. *)
Definition placeGroup (columnWidth : Z) (maxStackHeight : Q)
    (groupIndex : nat) (g : string * list ad) : block :=
  let count := length g.2 in
  let groupCenterX := (ofNat groupIndex + (1 # 2)) * inject_Z columnWidth in
  let availableWidth := inject_Z columnWidth - blockGap in
  let cols := Z.max 1 (Qfloor (availableWidth / (cellSize + itemGap))) in
  let rows := Qceiling (ofNat count / inject_Z cols) in
  let blockWidth := inject_Z cols * (cellSize + itemGap) - itemGap in
  let blockHeight := inject_Z rows * (cellSize + itemGap) - itemGap in
  let blockX := groupCenterX - blockWidth / 2 in
  let stackTopY := maxStackHeight - blockHeight in
  {| category := g.1;
     count := count;
     groupCenterX := groupCenterX;
     cols := cols;
     rows := rows;
     blockX := blockX;
     stackTopY := stackTopY;
     blockWidth := blockWidth;
     blockHeight := blockHeight;
     items := omap (fun '(i, a) =>
                      if shown a then Some (styleAt cols blockX stackTopY i a) else None)
                   (imap pair g.2);
     labelLeft := groupCenterX - 60;
     labelTop := maxStackHeight + labelMargin |}.

(** [applyGroupedLayout] for the ads in [filteredAds], grouped by the
    attribute [groupBy], in a grid container of client width
    [clientWidth].  (Without ads there is no group and the quotient that
    gives [columnWidth] is not used.) *)
Definition applyGroupedLayout (groupBy : string) (filteredAds : list ad)
    (clientWidth : Q) : groupedLayout :=
  let sorted := sortedGroups groupBy filteredAds in
  let canvasWidth := clientWidth - padding * 2 in
  let numGroups := length sorted in
  let columnWidth := columnWidthOf canvasWidth numGroups in
  let maxStackHeight := maxStackHeightOf columnWidth sorted in
  {| columnWidth := columnWidth;
     maxStackHeight := maxStackHeight;
     blocks := imap (placeGroup columnWidth maxStackHeight) sorted;
     canvasWidth := canvasWidth;
     canvasHeight := maxStackHeight + labelHeight + labelMargin + padding |}.

End Layout.

End Grouped.

(** ** Transition engine ([PivotAnimator]) *)

Module Animator.
Import Num.
Local Open Scope Q_scope.

(** A DOM element, by identity. *)
Definition element : Type := nat.

(** What [getBoundingClientRect] and the computed [opacity] report for an
    element. *)
Record geometry := mkGeometry {
  g_left : Q;
  g_top : Q;
  g_width : Q;
  g_height : Q;
  g_opacity : Q
}.

(** The rendered document, as far as the animator reads it. *)
Definition dom : Type := element -> geometry.

(** The play state of an [Animation] object: it runs until the browser
    finishes it; [cancel()] makes it idle, whether it was running or had
    finished.  Nothing in the code plays an animation again. *)
Inductive playState := Running | Finished | Canceled.

(** The state of a promise. *)
Inductive promiseState := Pending | Fulfilled | Rejected.

Inductive keyframes :=
| FlipFrames (deltaX deltaY deltaW deltaH firstOpacity lastOpacity : Q)
| FadeOutFrames
| FadeInFrames
| SlideInFrames
| SlideOutFrames.

(** What the [onfinish] handler set on an animation does to the animator
    (the styles it writes apart): the handlers of [flip], [fadeOut] and
    [fadeIn] delete the registry entry of the element of the animation;
    those of the sliding panel call [options.onComplete] when there is
    one. *)
Inductive finishHandler :=
| Unregister
| Notify (onComplete : option nat).

(** An [Animation] object.  [finished] is the state of the promise that
    [animation.finished] returns now, [replaced] holds the states of the
    promises it returned before, oldest first: [cancel()] replaces the
    promise by a new one. *)
Record animation := mkAnimation {
  target : element;
  frames : keyframes;
  duration : Q;
  delay : Q;
  state : playState;
  finished : promiseState;
  replaced : list promiseState;
  onfinish : finishHandler
}.

(** The animator and the objects it has created: [animations] holds every
    [Animation] made so far, an animation being known by its index;
    [events] is the queue of the [finish] events not yet dispatched;
    [pending] holds the [Promise.all(...).then(onComplete)] reactions not
    yet settled, each with the promises it waits for (a promise being
    known by its animation and the number of promises the animation had
    replaced before) and its callback ([None] for the default empty
    callback); [completed] logs the [onComplete] callbacks of these
    reactions as they are invoked, [notified] those that the handlers of
    the sliding panel call. *)
Record animator := mkAnimator {
  defaultDuration : Q;
  staggerDelay : Q;
  runningAnimations : gmap element nat;
  animations : list animation;
  events : list nat;
  pending : list (list (nat * nat) * option nat);
  completed : list nat;
  notified : list nat
}.

(** [new PivotAnimator(options)] *)
Definition newAnimator (duration staggerDelay : option Q) : animator :=
  {| defaultDuration := parsedOr duration 800;
     staggerDelay := parsedOr staggerDelay 0;
     runningAnimations := ∅;
     animations := [];
     events := [];
     pending := [];
     completed := [];
     notified := [] |}.

(** [el.animate(keyframes, options)] *)
Definition animate (e : element) (kf : keyframes) (dur del : Q) (h : finishHandler)
  : animation :=
  {| target := e; frames := kf; duration := dur; delay := del;
     state := Running; finished := Pending; replaced := []; onfinish := h |}.

(** [animation.cancel()]: an idle animation is left as it is; otherwise
    the current [finished] promise is rejected, unless it is fulfilled
    already, and replaced by a new one, and the animation is idle. *)
Definition cancelAnimation (a : animation) : animation :=
  match state a with
  | Canceled => a
  | _ =>
      {| target := target a; frames := frames a; duration := duration a;
         delay := delay a;
         state := Canceled;
         finished := Pending;
         replaced := replaced a ++ [match finished a with
                                    | Pending => Rejected
                                    | p => p
                                    end];
         onfinish := onfinish a |}
  end.

(** [animation.cancel()] on the animation [id]. *)
Definition cancel (id : nat) (l : list animation) : list animation :=
  alter cancelAnimation id l.

(** The sequence the three entry points share: cancel the animation the
    registry holds for the element, [el.animate(...)], register the new
    animation.  Returns the new animation too. *)
Definition startAnimation (e : element) (kf : keyframes) (dur del : Q) (s : animator)
  : animator * nat :=
  let anims :=
    match runningAnimations s !! e with
    | Some old => cancel old (animations s)
    | None => animations s
    end in
  let id := length anims in
  ({| defaultDuration := defaultDuration s;
      staggerDelay := staggerDelay s;
      runningAnimations := <[e := id]> (runningAnimations s);
      animations := anims ++ [animate e kf dur del Unregister];
      events := events s;
      pending := pending s;
      completed := completed s;
      notified := notified s |}, id).

(** [a.finished], read now. *)
Definition finishedOf (anims : list animation) (id : nat) : nat * nat :=
  (id, match anims !! id with
       | Some a => length (replaced a)
       | None => 0%nat
       end).

(** [Promise.all(animations.map(a => a.finished)).then(onComplete).catch(() => {})] *)
Definition thenComplete (started : list nat) (onComplete : option nat) (s : animator)
  : animator :=
  {| defaultDuration := defaultDuration s;
     staggerDelay := staggerDelay s;
     runningAnimations := runningAnimations s;
     animations := animations s;
     events := events s;
     pending := pending s ++ [(finishedOf (animations s) <$> started, onComplete)];
     completed := completed s;
     notified := notified s |}.

(** The Invert step for one element: the keyframes to play, or [None] when
    the element is skipped as not having moved. *)
Definition flipFrames (first last : geometry) : option keyframes :=
  let firstOpacity := orNum (g_opacity first) 1 in
  let lastOpacity := orNum (g_opacity last) 1 in
  let deltaX := g_left first - g_left last in
  let deltaY := g_top first - g_top last in
  let deltaW := g_width first / orNum (g_width last) 1 in
  let deltaH := g_height first / orNum (g_height last) 1 in
  if Qltb (Qabs deltaX) (1 # 2) && Qltb (Qabs deltaY) (1 # 2)
     && Qltb (Qabs (deltaW - 1)) (1 # 100) && Qltb (Qabs (deltaH - 1)) (1 # 100)
     && Qltb (Qabs (firstOpacity - lastOpacity)) (1 # 100)
  then None
  else Some (FlipFrames deltaX deltaY deltaW deltaH firstOpacity lastOpacity).

(** The body of the second [forEach] of [flip]; [None] is a null entry of
    [elements]. *)
Definition flipStep (before after : dom) (dur : Q)
    (acc : animator * list nat) (entry : nat * option element) : animator * list nat :=
  match entry.2 with
  | None => acc
  | Some e =>
      match flipFrames (before e) (after e) with
      | None => acc
      | Some kf =>
          let r := startAnimation e kf dur (staggerDelay acc.1 * ofNat entry.1) acc.1 in
          (r.1, acc.2 ++ [r.2])
      end
  end.

(** [flip(elements, layoutChange, options)]: returns the animator, the
    animations started and the document after the layout change. *)
Definition flip (elements : list (option element)) (layoutChange : dom -> dom)
    (duration : option Q) (onComplete : option nat) (d : dom) (s : animator)
  : animator * list nat * dom :=
  let dur := parsedOr duration (defaultDuration s) in
  let after := layoutChange d in
  let r := fold_left (flipStep d after dur) (imap pair elements) (s, []) in
  (thenComplete r.2 onComplete r.1, r.2, after).

(** The body of the [forEach] of [fadeOut] and of [fadeIn]. *)
Definition fadeStep (kf : keyframes) (dur : Q)
    (acc : animator * list nat) (entry : nat * option element) : animator * list nat :=
  match entry.2 with
  | None => acc
  | Some e =>
      let r := startAnimation e kf dur (staggerDelay acc.1 * ofNat entry.1) acc.1 in
      (r.1, acc.2 ++ [r.2])
  end.

(** [fadeOut(elements, options)] *)
Definition fadeOut (elements : list (option element))
    (duration : option Q) (onComplete : option nat) (s : animator)
  : animator * list nat :=
  let dur := parsedOr duration 300 in
  let r := fold_left (fadeStep FadeOutFrames dur) (imap pair elements) (s, []) in
  (thenComplete r.2 onComplete r.1, r.2).

(** [fadeIn(elements, options)] *)
Definition fadeIn (elements : list (option element))
    (duration : option Q) (onComplete : option nat) (s : animator)
  : animator * list nat :=
  let dur := parsedOr duration 300 in
  let r := fold_left (fadeStep FadeInFrames dur) (imap pair elements) (s, []) in
  (thenComplete r.2 onComplete r.1, r.2).

(** What [slideInRight] and [slideOutRight] share: [panel.animate(...)],
    without any use of the registry.  Returns the animation too. *)
Definition slide (kf : keyframes) (dur : Q) (panel : element) (onComplete : option nat)
    (s : animator) : animator * nat :=
  ({| defaultDuration := defaultDuration s;
      staggerDelay := staggerDelay s;
      runningAnimations := runningAnimations s;
      animations := animations s ++ [animate panel kf dur 0 (Notify onComplete)];
      events := events s;
      pending := pending s;
      completed := completed s;
      notified := notified s |}, length (animations s)).

(** [slideInRight(panel, options)] *)
Definition slideInRight (panel : element) (duration : option Q) (onComplete : option nat)
    (s : animator) : animator * nat :=
  slide SlideInFrames (parsedOr duration 400) panel onComplete s.

(** [slideOutRight(panel, options)] *)
Definition slideOutRight (panel : element) (duration : option Q) (onComplete : option nat)
    (s : animator) : animator * nat :=
  slide SlideOutFrames (parsedOr duration 300) panel onComplete s.

(** What the end of its playback does to an animation: it is finished and
    its current [finished] promise is fulfilled. *)
Definition finishAnimation (a : animation) : animation :=
  {| target := target a; frames := frames a; duration := duration a;
     delay := delay a;
     state := Finished;
     finished := match finished a with
                 | Pending => Fulfilled
                 | p => p
                 end;
     replaced := replaced a;
     onfinish := onfinish a |}.

(** The browser finishes a running animation: the promise is fulfilled
    and the [finish] event is queued.  The event is dispatched later: the
    promise jobs, and with them the [onComplete] of the call, run before
    the [onfinish] handler does. *)
Definition finish (id : nat) (s : animator) : animator :=
  match animations s !! id with
  | Some a =>
      match state a with
      | Running =>
          {| defaultDuration := defaultDuration s;
             staggerDelay := staggerDelay s;
             runningAnimations := runningAnimations s;
             animations := <[id := finishAnimation a]> (animations s);
             events := events s ++ [id];
             pending := pending s;
             completed := completed s;
             notified := notified s |}
      | _ => s
      end
  | None => s
  end.

(** The browser dispatches the oldest [finish] event of the queue: the
    [onfinish] handler of its animation runs. *)
Definition dispatch (s : animator) : animator :=
  match events s with
  | [] => s
  | id :: rest =>
      match animations s !! id with
      | Some a =>
          match onfinish a with
          | Unregister =>
              {| defaultDuration := defaultDuration s;
                 staggerDelay := staggerDelay s;
                 runningAnimations := delete (target a) (runningAnimations s);
                 animations := animations s;
                 events := rest;
                 pending := pending s;
                 completed := completed s;
                 notified := notified s |}
          | Notify onComplete =>
              {| defaultDuration := defaultDuration s;
                 staggerDelay := staggerDelay s;
                 runningAnimations := runningAnimations s;
                 animations := animations s;
                 events := rest;
                 pending := pending s;
                 completed := completed s;
                 notified := notified s ++ option_list onComplete |}
          end
      | None => s
      end
  end.

(** [cancelAll()] *)
Definition cancelAll (s : animator) : animator :=
  {| defaultDuration := defaultDuration s;
     staggerDelay := staggerDelay s;
     runningAnimations := ∅;
     animations := map_fold (fun _ id anims => cancel id anims)
                            (animations s) (runningAnimations s);
     events := events s;
     pending := pending s;
     completed := completed s;
     notified := notified s |}.

Definition hasState (st : playState) (anims : list animation) (id : nat) : bool :=
  match anims !! id with
  | Some a => match state a, st with
              | Running, Running | Finished, Finished | Canceled, Canceled => true
              | _, _ => false
              end
  | None => false
  end.

(** Whether a promise is in the state [st]. *)
Definition promiseIs (st : promiseState) (anims : list animation) (p : nat * nat) : bool :=
  match anims !! p.1 with
  | Some a =>
      match (replaced a ++ [finished a]) !! p.2 with
      | Some st' => match st', st with
                    | Pending, Pending | Fulfilled, Fulfilled | Rejected, Rejected => true
                    | _, _ => false
                    end
      | None => false
      end
  | None => false
  end.

(** The promise jobs: a reaction whose promises are all fulfilled invokes
    its callback and is gone; one with a rejected promise is rejected,
    caught, and gone; the others keep waiting. *)
Definition settle (s : animator) : animator :=
  let resolved (p : list (nat * nat) * option nat) :=
    forallb (promiseIs Fulfilled (animations s)) p.1 in
  let rejected (p : list (nat * nat) * option nat) :=
    existsb (promiseIs Rejected (animations s)) p.1 in
  {| defaultDuration := defaultDuration s;
     staggerDelay := staggerDelay s;
     runningAnimations := runningAnimations s;
     animations := animations s;
     events := events s;
     pending := filter (fun p => negb (resolved p) && negb (rejected p) = true) (pending s);
     completed := completed s
                  ++ omap snd (filter (fun p => resolved p = true) (pending s));
     notified := notified s |}.

(** What can happen to an animator: a call of one of its entry points, the
    end of a running animation, the dispatch of a [finish] event, a run of
    the promise jobs. *)
Inductive step : animator -> animator -> Prop :=
| step_flip elements layoutChange duration onComplete d s :
    step s (flip elements layoutChange duration onComplete d s).1.1
| step_fadeOut elements duration onComplete s :
    step s (fadeOut elements duration onComplete s).1
| step_fadeIn elements duration onComplete s :
    step s (fadeIn elements duration onComplete s).1
| step_slideInRight panel duration onComplete s :
    step s (slideInRight panel duration onComplete s).1
| step_slideOutRight panel duration onComplete s :
    step s (slideOutRight panel duration onComplete s).1
| step_finish id s : step s (finish id s)
| step_dispatch s : step s (dispatch s)
| step_cancelAll s : step s (cancelAll s)
| step_settle s : step s (settle s).

(** The states an animator can be in. *)
Inductive reachable : animator -> Prop :=
| reachable_new duration staggerDelay : reachable (newAnimator duration staggerDelay)
| reachable_step s s' : reachable s -> step s s' -> reachable s'.

End Animator.

(** ** Sample data *)

Module Samples.
Import Filter.

(** An ad that has only a [vertical]. *)
Definition adOf (id vertical : string) : ad :=
  mkAd id (fun f => if String.eqb f "vertical" then Some vertical else None)
       (fun _ => None).

(** An ad that has only a number of [impressions]. *)
Definition adWith (id : string) (impressions : Q) : ad :=
  mkAd id (fun _ => None)
       (fun f => if String.eqb f "impressions" then Some impressions else None).

Definition newsAd : ad := adOf "1" "News".
Definition sportsAd : ad := adOf "2" "Sports".
Definition autosAd : ad := adOf "3" "Autos".


(** A filter is cleared and set again.  [clearAllFilters] fades the item 7
    in, [onComplete] being the callback 1. *)
Definition shownAgain : Animator.animator :=
  (Animator.fadeIn [Some 7%nat] (Some 200%Q) (Some 1%nat)
     (Animator.newAnimator None None)).1.

(** The fade-in ends, and the promise jobs run. *)
Definition fadedIn : Animator.animator :=
  Animator.settle (Animator.finish 0 shownAgain).

(** The callback runs [animateLayoutChange]: [flip] on the visible items,
    of which the item 7 moves by 50 pixels. *)
Definition relaidOut : Animator.animator :=
  (Animator.flip [Some 7%nat] (fun _ _ => Animator.mkGeometry 50 0 100 100 1)
     (Some 600%Q) (Some 2%nat) (fun _ => Animator.mkGeometry 0 0 100 100 1) fadedIn).1.1.

(** The [finish] event of the fade-in is dispatched. *)
Definition handled : Animator.animator := Animator.dispatch relaidOut.

(** [applyFilters] hides the item 7 again. *)
Definition hiddenAgain : Animator.animator :=
  (Animator.fadeOut [Some 7%nat] (Some 250%Q) (Some 3%nat) handled).1.

(** Comparison by character codes, a collation to run the sorts with. *)
Definition codeCompare (a b : string) : Z :=
  match String.compare a b with
  | Lt => (-1)%Z
  | Eq => 0%Z
  | Gt => 1%Z
  end.

End Samples.

(** ** Filter controls ([PivotApp.handleFilterChange], [clearAllFilters]) *)

Module FilterControls.
Import Filter.

(** [this.activeFilters[field]]; [None] is [undefined], for a field that
    is no key of the object. *)
Fixpoint lookupField (field : string) (fs : filters) : option (list value) :=
  match fs with
  | [] => None
  | (k, values) :: rest => if String.eqb k field then Some values else lookupField field rest
  end.

(** [this.activeFilters[field] = values] for a field that is a key: the
    key keeps its place among the entries. *)
Fixpoint assignField (field : string) (values : list value) (fs : filters) : filters :=
  match fs with
  | [] => []
  | (k, old) :: rest =>
      if String.eqb k field then (k, values) :: rest
      else (k, old) :: assignField field values rest
  end.

(** The filter state after [handleFilterChange(field, value, checked)],
    before it calls [applyFilters]; [None] is the [TypeError] of reading
    [includes] or [filter] of [undefined]. *)
Definition handleFilterChange (field : string) (v : value) (checked : bool)
    (fs : filters) : option filters :=
  match lookupField field fs with
  | None => None
  | Some values =>
      if checked then
        if negb (includes values v)
        then Some (assignField field (values ++ [v]) fs)
        else Some fs
      else Some (assignField field (filter (fun x => x <> v) values) fs)
  end.

(** The filter state after [clearAllFilters]: every key gets [[]]. *)
Definition clearAllFilters (fs : filters) : filters :=
  (fun entry : string * list value => (entry.1, @nil value)) <$> fs.

(** The grouping controls: [this.currentGroupBy], the value of the
    [group-by] select, and [this._userSetGroup]. *)
Record grouping := mkGrouping {
  currentGroupBy : string;
  selectValue : string;
  userSetGroup : bool
}.

(** The [change] handler of the [group-by] select. *)
Definition selectGroup (v : string) (g : grouping) : grouping :=
  {| currentGroupBy := v; selectValue := v;
     userSetGroup := negb (String.eqb v "") |}.

(** The auto-grouping step of [applyFilters]; [verticals] is
    [this.activeFilters.vertical]. *)
Definition autoGroup (verticals : list value) (g : grouping) : grouping :=
  if (0 <? length verticals)%nat && String.eqb (currentGroupBy g) "" then
    {| currentGroupBy := "vertical"; selectValue := "vertical";
       userSetGroup := userSetGroup g |}
  else if Nat.eqb (length verticals) 0 && String.eqb (selectValue g) "vertical"
          && negb (userSetGroup g) then
    {| currentGroupBy := ""; selectValue := ""; userSetGroup := userSetGroup g |}
  else g.

(** The grouping states the controls can reach from the constructor's
    ([currentGroupBy = ''], [_userSetGroup] not set), whatever the select
    shows at first. *)
Inductive groupingReachable : grouping -> Prop :=
| grouping_init sel : groupingReachable (mkGrouping "" sel false)
| grouping_select v g : groupingReachable g -> groupingReachable (selectGroup v g)
| grouping_auto verticals g : groupingReachable g -> groupingReachable (autoGroup verticals g).

End FilterControls.

(** ** The size of the grid wrapper ([PivotApp.updateContainerSize]) *)

Module Wrapper.
Import Num Settings Grid.
Local Open Scope Q_scope.

(** What [updateContainerSize] parses from the style of one element that
    is not hidden: [left], [top], [width] and [height]. *)
Record itemRect := mkItemRect {
  r_left : Q;
  r_top : Q;
  r_width : Q;
  r_height : Q
}.

(** [updateContainerSize()] on the elements that are not hidden: the new
    width and height of the wrapper, or [None] for the early [return]
    that leaves the wrapper as it is. *)
Definition updateContainerSize (items : list itemRect) : option (Q * Q) :=
  if Nat.eqb (length items) 0 then None
  else
    let m := fold_left
               (fun (m : Q * Q) item =>
                  (Qmax m.1 (r_left item + r_width item),
                   Qmax m.2 (r_top item + r_height item)))
               items (0, 0) in
    Some (m.1 + padding, m.2 + padding + 30).

(** The style [applyGridLayout] wrote on an item, as [updateContainerSize]
    reads it back. *)
Definition rectOf (p : placement) : itemRect :=
  {| r_left := p_left p; r_top := p_top p;
     r_width := inject_Z (p_size p); r_height := inject_Z (p_size p) |}.

End Wrapper.

(** ** The detail panel and the item helpers of [PivotApp] *)

Module Details.
Import Num Settings Filter.
Local Open Scope Q_scope.

(** The two glyphs of a rating. *)
Inductive star := FilledStar | HollowStar.

(** [String.prototype.repeat] on a one-glyph string; [None] is the
    [RangeError] of a negative count. *)
Definition repeatStar (glyph : star) (count : Z) : option (list star) :=
  if (count <? 0)%Z then None else Some (replicate (Z.to_nat count) glyph).

(** [renderStars(rating)]; [parsed] is [parseInt(rating)], [None] for
    [NaN]. *)
Definition renderStars (parsed : option Z) : option (list star) :=
  let r := match parsed with
           | Some z => if (z =? 0)%Z then 0%Z else z
           | None => 0%Z
           end in
  match repeatStar FilledStar (Z.min 5 (Z.max 0 r)) with
  | None => None
  | Some filled =>
      match repeatStar HollowStar (5 - Z.of_nat (length filled)) with
      | None => None
      | Some empty => Some (filled ++ empty)
      end
  end.

(** The part of the application state the detail panel works on. *)
Record detail := mkDetail {
  selectedIndex : Z;
  detailOpen : bool
}.

(** [this.filteredAds.findIndex(a => a.id === id)].  The ids are compared
    as [ad_id] has them, that is as strings: this is [===] for ids that
    are all strings or all numbers, and for ads whose [ad_id] differ. *)
Fixpoint findIndex (id : string) (ads : list ad) : Z :=
  match ads with
  | [] => (-1)%Z
  | a :: rest =>
      if String.eqb (ad_id a) id then 0%Z
      else
        let i := findIndex id rest in
        if (i =? -1)%Z then (-1)%Z else (i + 1)%Z
  end.

(** [array[i]] for a number [i]: [undefined] outside the array. *)
Definition at_ {A : Type} (l : list A) (i : Z) : option A :=
  if (i <? 0)%Z then None else l !! Z.to_nat i.

(** [openDetail(ad)], as far as the state goes. *)
Definition openDetail (a : ad) (filteredAds : list ad) (d : detail) : detail :=
  let i := findIndex (ad_id a) filteredAds in
  if (i =? -1)%Z then {| selectedIndex := i; detailOpen := detailOpen d |}
  else {| selectedIndex := i; detailOpen := true |}.

(** [closeDetail()] *)
Definition closeDetail (d : detail) : detail :=
  if negb (detailOpen d) then d
  else {| selectedIndex := selectedIndex d; detailOpen := false |}.

(** [navigateDetail(direction)] *)
Definition navigateDetail (direction : Z) (filteredAds : list ad) (d : detail) : detail :=
  if negb (detailOpen d) then d
  else
    let i := (selectedIndex d + direction)%Z in
    let i := if (i <? 0)%Z then (Z.of_nat (length filteredAds) - 1)%Z
             else if (Z.of_nat (length filteredAds) <=? i)%Z then 0%Z
             else i in
    match at_ filteredAds i with
    | Some a => openDetail a filteredAds {| selectedIndex := i; detailOpen := detailOpen d |}
    | None => {| selectedIndex := i; detailOpen := detailOpen d |}
    end.

End Details.

(** ** The canvas viewer ([PivotViewer], pan and zoom) *)

Module PivotViewer.
Import Num.
Local Open Scope Q_scope.

(** The zoom and pan state of the viewer. *)
Record viewer := mkViewer {
  scale : Q;
  translateX : Q;
  translateY : Q
}.

Definition minScale : Q := 3 # 10.
Definition maxScale : Q := 4.

(** [zoom(factor)]; [width] and [height] are those of the rectangle of the
    container. *)
Definition zoom (factor width height : Q) (v : viewer) : viewer :=
  let newScale := scale v * factor in
  if Qle_bool minScale newScale && Qle_bool newScale maxScale then
    let centerX := width / 2 in
    let centerY := height / 2 in
    let dx := (centerX - translateX v) * (1 - factor) in
    let dy := (centerY - translateY v) * (1 - factor) in
    {| scale := newScale;
       translateX := translateX v + dx;
       translateY := translateY v + dy |}
  else v.

(** The [wheel] listener; [mouseX] and [mouseY] are the place of the mouse
    in the container.  [None] is a division by a zero scale. *)
Definition wheel (deltaY mouseX mouseY : Q) (v : viewer) : option viewer :=
  let factor := if Qltb 0 deltaY then 9 # 10 else 11 # 10 in
  let newScale := Qmin (Qmax (scale v * factor) minScale) maxScale in
  if negb (Qeq_bool newScale (scale v)) then
    match Viewport.divide newScale (scale v) with
    | None => None
    | Some scaleRatio =>
        Some {| scale := newScale;
                translateX := mouseX - (mouseX - translateX v) * scaleRatio;
                translateY := mouseY - (mouseY - translateY v) * scaleRatio |}
    end
  else Some v.

(** [fitToViewport()], with the container and the grid in place;
    [containerWidth], [containerHeight] and [gridWidth], [gridHeight] are
    the sizes of their rectangles as rendered at the time of the call.
    [None] is a division by zero. *)
Definition fitToViewport (containerWidth containerHeight gridWidth gridHeight : Q)
    (v : viewer) : option viewer :=
  match Viewport.divide gridWidth (scale v), Viewport.divide gridHeight (scale v) with
  | Some naturalWidth, Some naturalHeight =>
      match Viewport.divide (containerWidth - 40) naturalWidth,
            Viewport.divide (containerHeight - 40) naturalHeight with
      | Some scaleX, Some scaleY =>
          let s := Qmin (Qmin scaleX scaleY) (3 # 2) in
          let s := Qmax s minScale in
          match Viewport.divide gridWidth s, Viewport.divide gridHeight s with
          | Some unscaledWidth, Some unscaledHeight =>
              let scaledWidth := unscaledWidth * s in
              let scaledHeight := unscaledHeight * s in
              let tx := (containerWidth - scaledWidth) / 2 in
              let ty := (containerHeight - scaledHeight) / 2 in
              Some {| scale := s; translateX := Qmax 0 tx; translateY := Qmax 0 ty |}
          | _, _ => None
          end
      | _, _ => None
      end
  | _, _ => None
  end.

End PivotViewer.

(** ** Picking ads to compare ([AdViewer.handleComparisonClick]) *)

Module Comparison.
Import Filter Details.

(** [handleComparisonClick(ad)]: the selected ads afterwards, and whether
    the alert about the maximum was shown. *)
Definition handleComparisonClick (a : ad) (selectedAds : list ad) : list ad * bool :=
  let index := findIndex (ad_id a) selectedAds in
  if (-1 <? index)%Z then (delete (Z.to_nat index) selectedAds, false)
  else if (length selectedAds <? 4)%nat then (selectedAds ++ [a], false)
  else (selectedAds, true).

(** A series of clicks in comparison mode, which starts with no ad
    selected. *)
Definition clicks (l : list ad) : list ad :=
  fold_left (fun selectedAds a => (handleComparisonClick a selectedAds).1) l [].

End Comparison.

(** ** Hit testing on the collage ([AdViewer.findAdAtPosition] of app.js) *)

Module Collage.
Import Num.
Local Open Scope Q_scope.

(** [ad.gridPosition] *)
Record gridPosition := mkGridPosition {
  pos_x : Q;
  pos_y : Q;
  pos_width : Q;
  pos_height : Q
}.

(** The test of the loop of [findAdAtPosition]. *)
Definition hit (x y : Q) (pos : gridPosition) : bool :=
  Qle_bool (pos_x pos) x && Qltb x (pos_x pos + pos_width pos)
  && Qle_bool (pos_y pos) y && Qltb y (pos_y pos + pos_height pos).

(** [findAdAtPosition(x, y)], with the metadata loaded; an ad is known by
    its place in [this.ads]. *)
Fixpoint findAdFrom (i : nat) (x y : Q) (ads : list gridPosition) : option nat :=
  match ads with
  | [] => None
  | pos :: rest => if hit x y pos then Some i else findAdFrom (S i) x y rest
  end.

Definition findAdAtPosition (x y : Q) (ads : list gridPosition) : option nat :=
  findAdFrom 0 x y ads.

End Collage.

(** * Properties *)

(** ** Facts about the number helpers *)

Module NumFacts.
Import Num.
Local Open Scope Q_scope.

Lemma Qltb_lt a b : Qltb a b = true <-> a < b.
Proof.
  unfold Qltb. rewrite negb_true_iff. split.
  - intros H. apply Qnot_le_lt. intros Hle.
    apply Qle_bool_iff in Hle. congruence.
  - intros H. destruct (Qle_bool b a) eqn:E; [|reflexivity].
    apply Qle_bool_iff in E. lra.
Qed.

Lemma Qltb_ge a b : Qltb a b = false <-> b <= a.
Proof.
  unfold Qltb. rewrite negb_false_iff. apply Qle_bool_iff.
Qed.

Lemma ofNat_pos n : (1 <= n)%nat -> 0 < ofNat n.
Proof.
  intros H. unfold ofNat. change 0 with (inject_Z 0).
  rewrite <- Zlt_Qlt. lia.
Qed.

End NumFacts.

(** ** The column search of the uniform grid *)

Module GridFacts.
Import Num NumFacts Settings Grid.
Local Open Scope Q_scope.

Section Search.
Variable totalItems : nat.
Variables containerWidth containerHeight : Q.

Local Abbreviation adm := (admissible totalItems containerWidth containerHeight).
Local Abbreviation waste := (wastedSpace totalItems containerWidth containerHeight).
Local Abbreviation upTo := (searchUpTo totalItems containerWidth containerHeight).

(** The optimum held after the candidates [1..n]: either none of them was
    admissible and the defaults stand, or the optimum is the first
    admissible candidate of least wasted space. *)
Definition optimumUpTo (n : nat) (b : best) : Prop :=
  ((forall c, (1 <= c <= n)%nat -> adm c = false) /\ b = initBest)
  \/
  ((1 <= bestCols b <= n)%nat
   /\ adm (bestCols b) = true
   /\ bestRows b = rowsOf totalItems (bestCols b)
   /\ bestCellSize b = cellSizeOf totalItems containerWidth containerHeight (bestCols b)
   /\ bestFit b = Some (waste (bestCols b))
   /\ (forall c, (1 <= c < bestCols b)%nat -> adm c = true -> waste (bestCols b) < waste c)
   /\ (forall c, (bestCols b <= c <= n)%nat -> adm c = true -> waste (bestCols b) <= waste c)).

Lemma searchUpTo_S n :
  upTo (S n) = tryCols totalItems containerWidth containerHeight (upTo n) (S n).
Proof.
  unfold searchUpTo. rewrite seq_S, fold_left_app. reflexivity.
Qed.

Lemma searchUpTo_optimum n : optimumUpTo n (upTo n).
Proof.
  induction n as [|n IH].
  - left. split; [intros c Hc; lia | reflexivity].
  - rewrite searchUpTo_S. unfold tryCols.
    destruct (adm (S n)) eqn:Hadm.
    + destruct IH as [[Hnone ->] | (Hrange & Hb & Hrows & Hcell & Hfit & Hlt & Hle)].
      * (* first admissible candidate *)
        simpl. right. simpl. repeat split; try lia; try assumption.
        -- intros c Hc Hc'. rewrite Hnone in Hc' by lia. discriminate.
        -- intros c Hc _. assert (c = S n) as -> by lia. lra.
      * rewrite Hfit. simpl.
        destruct (Qltb (waste (S n)) (waste (bestCols (upTo n)))) eqn:Hcmp.
        -- apply Qltb_lt in Hcmp.
           right. simpl. repeat split; try lia; try assumption.
           ++ intros c Hc Hc'.
              destruct (Nat.lt_ge_cases c (bestCols (upTo n))) as [Hlo | Hhi].
              ** specialize (Hlt c ltac:(lia) Hc'). lra.
              ** specialize (Hle c ltac:(lia) Hc'). lra.
           ++ intros c Hc _. assert (c = S n) as -> by lia. lra.
        -- apply Qltb_ge in Hcmp.
           right. repeat split; try lia; try assumption.
           intros c Hc Hc'.
           destruct (Nat.eq_dec c (S n)) as [-> | Hne]; [assumption|].
           apply Hle; [lia | assumption].
    + destruct IH as [[Hnone ->] | (Hrange & Hb & Hrows & Hcell & Hfit & Hlt & Hle)].
      * left. split; [|reflexivity].
        intros c Hc. destruct (Nat.eq_dec c (S n)) as [-> | Hne]; [assumption|].
        apply Hnone. lia.
      * right. repeat split; try lia; try assumption.
        intros c Hc Hc'.
        destruct (Nat.eq_dec c (S n)) as [-> | Hne]; [congruence|].
        apply Hle; [lia | assumption].
Qed.

End Search.

(** C2 (as amended).  Twelve items in a container of inner size 400 by 300:
    four columns and three rows are chosen, but the gap of 4 between cells
    leaves a cell size of 97 and a wasted space of 1.  When 400 by 300 is
    the client size, the padding of 20 leaves 360 by 260 and the choice is
    again four columns and three rows, with cell size 84 and wasted space
    12. *)
Theorem grid_12_items_400_300 :
  bestCols (search 12 400 300) = 4%nat
  /\ bestRows (search 12 400 300) = 3%Z
  /\ Qred (bestCellSize (search 12 400 300)) = 97
  /\ option_map Qred (bestFit (search 12 400 300)) = Some 1
  /\ (exists l, applyGridLayoutIn 12 400 300 = Some l
        /\ Forall (fun p => p_size p = 97%Z) (placements l))
  /\ bestCols (search 12 (400 - padding * 2) (300 - padding * 2)) = 4%nat
  /\ bestRows (search 12 (400 - padding * 2) (300 - padding * 2)) = 3%Z
  /\ Qred (bestCellSize (search 12 (400 - padding * 2) (300 - padding * 2))) = 84
  /\ option_map Qred (bestFit (search 12 (400 - padding * 2) (300 - padding * 2))) = Some 12
  /\ (exists l, applyGridLayout 12 400 300 = Some l
        /\ Forall (fun p => p_size p = 84%Z) (placements l)).
Proof.
  repeat split; try (vm_compute; reflexivity).
  - eexists. split; [vm_compute; reflexivity|].
    repeat constructor.
  - eexists. split; [vm_compute; reflexivity|].
    repeat constructor.
Qed.

(** C2 (as stated) fails: the cell size chosen for twelve items in a 400 by
    300 container is not 100 and the wasted space is not zero, under either
    reading of the container size. *)
Lemma grid_12_items_not_100 :
  ~ (bestCellSize (search 12 400 300) == 100)
  /\ ~ (wastedSpace 12 400 300 (bestCols (search 12 400 300)) == 0)
  /\ ~ (bestCellSize (search 12 (400 - padding * 2) (300 - padding * 2)) == 100)
  /\ ~ (wastedSpace 12 (400 - padding * 2) (300 - padding * 2)
          (bestCols (search 12 (400 - padding * 2) (300 - padding * 2))) == 0).
Proof.
  repeat split; intros H; apply Qeq_bool_iff in H; vm_compute in H; discriminate.
Qed.

(** The grid of the fallback: one column of cells of size 60. *)
Lemma fallback_offset (c : Q) :
  Qmax 0 ((c - (ofNat 1 * inject_Z (Qfloor 60) + (ofNat 1 - 1) * itemGap)) / 2)
  == Qmax 0 ((c - 60) / 2).
Proof.
  apply Q.max_compat; [reflexivity|].
  unfold itemGap. change (ofNat 1) with 1. change (inject_Z (Qfloor 60)) with 60.
  field.
Qed.

(** C10.  When no column count in [1..N] is admissible, the layout still
    returns: it keeps one column and cell size 60, and writes a position
    and a size for each of the [N] visible items, stacked in a single
    column with a pitch of 64 from the centring offset. *)
Theorem grid_fallback_places_every_item (N : nat) (cw ch : Q) :
  (1 <= N)%nat ->
  (forall c, (1 <= c <= N)%nat -> admissible N cw ch c = false) ->
  bestCols (search N cw ch) = 1%nat
  /\ bestCellSize (search N cw ch) = 60
  /\ exists l, applyGridLayoutIn N cw ch = Some l
       /\ length (placements l) = N
       /\ forall i, (i < N)%nat ->
            exists p, nth_error (placements l) i = Some p
              /\ p_index p = i
              /\ p_size p = 60%Z
              /\ p_left p == Qmax 0 ((cw - 60) / 2)
              /\ p_top p == Qmax 0 ((ch - 60) / 2) + ofNat i * 64.
Proof.
  intros HN Hnone.
  assert (Hs : search N cw ch = initBest).
  { destruct (searchUpTo_optimum N cw ch N) as [[_ H] | (Hr & Hb & _)]; [exact H|].
    fold (search N cw ch) in *. rewrite Hnone in Hb by lia. discriminate. }
  rewrite Hs. split; [reflexivity|]. split; [reflexivity|].
  unfold applyGridLayoutIn. rewrite Hs.
  destruct (Nat.eqb_spec N 0) as [->|_]; [lia|].
  eexists. split; [reflexivity|]. cbn [placements].
  split; [rewrite length_map, length_seq; reflexivity|].
  intros i Hi. eexists. split.
  { rewrite nth_error_map, nth_error_seq.
    destruct (Nat.ltb_spec i N); [reflexivity | lia]. }
  cbn [p_index p_size p_left p_top bestCols bestRows bestCellSize initBest].
  split; [reflexivity|]. split; [reflexivity|].
  rewrite Nat.mod_1_r, Nat.div_1_r.
  split.
  - rewrite fallback_offset. change (ofNat 0) with 0. ring.
  - change (inject_Z 1) with 1.
    rewrite (fallback_offset ch).
    change (inject_Z (Qfloor 60)) with 60. unfold itemGap. cbn [Nat.add]. ring.
Qed.

(** C10 at a single item in a 400 by 300 container. *)
Lemma grid_fallback_places_every_item_witness :
  bestCols (search 1 400 300) = 1%nat
  /\ bestCellSize (search 1 400 300) = 60
  /\ exists l, applyGridLayoutIn 1 400 300 = Some l
       /\ length (placements l) = 1%nat
       /\ forall i, (i < 1)%nat ->
            exists p, nth_error (placements l) i = Some p
              /\ p_index p = i
              /\ p_size p = 60%Z
              /\ p_left p == Qmax 0 ((400 - 60) / 2)
              /\ p_top p == Qmax 0 ((300 - 60) / 2) + ofNat i * 64.
Proof.
  apply (grid_fallback_places_every_item 1 400 300).
  - lia.
  - intros c Hc. assert (c = 1%nat) as -> by lia. vm_compute. reflexivity.
Defined.

End GridFacts.

(** ** The order of binary64 numbers *)

Module Binary64Facts.
Import Binary64.

Ltac compare_cases :=
  repeat match goal with
    | H : context [Z.compare ?a ?b] |- _ => destruct (Z.compare_spec a b)
    | |- context [Z.compare ?a ?b] => destruct (Z.compare_spec a b)
    | H : context [Pos.compare_cont Eq ?a ?b] |- _ =>
        change (Pos.compare_cont Eq a b) with (Pos.compare a b) in H;
        destruct (Pos.compare_spec a b)
    | |- context [Pos.compare_cont Eq ?a ?b] =>
        change (Pos.compare_cont Eq a b) with (Pos.compare a b);
        destruct (Pos.compare_spec a b)
    end;
  cbn in *; subst; try discriminate; try reflexivity; try lia.

Ltac by_cases x := destruct x as [[] | [] | | [] ? ?].

(** [<] on numbers is a strict order. *)
Lemma ltb_irrefl (x : number) : ltb x x = false.
Proof.
  unfold ltb, SFltb. by_cases x; cbn; try reflexivity; compare_cases.
Qed.

Lemma ltb_trans (x y z : number) : ltb x y = true -> ltb y z = true -> ltb x z = true.
Proof.
  unfold ltb, SFltb. by_cases x; by_cases y; cbn; try discriminate;
    by_cases z; cbn; try discriminate; try reflexivity; intros H1 H2; compare_cases.
Qed.

Lemma leb_ltb_trans (x y z : number) : leb x y = true -> ltb y z = true -> ltb x z = true.
Proof.
  unfold ltb, leb, SFltb, SFleb. by_cases x; by_cases y; cbn; try discriminate;
    by_cases z; cbn; try discriminate; try reflexivity; intros H1 H2; compare_cases.
Qed.

(** Two numbers of which neither is [NaN] compare one way or the other. *)
Lemma ltb_false_leb (x y : number) :
  x <> S754_nan -> y <> S754_nan -> ltb x y = false -> leb y x = true.
Proof.
  unfold ltb, leb, SFltb, SFleb. by_cases x; by_cases y; cbn; try discriminate;
    try reflexivity; try congruence; intros _ _ H; compare_cases.
Qed.

(** [NaN] spreads through the arithmetic and is below nothing. *)
Lemma mul_nan_r (x : number) : mul x S754_nan = S754_nan.
Proof. destruct x; reflexivity. Qed.

Lemma add_nan_r (x : number) : add x S754_nan = S754_nan.
Proof. destruct x; reflexivity. Qed.

Lemma sub_nan_r (x : number) : sub x S754_nan = S754_nan.
Proof. destruct x; reflexivity. Qed.

End Binary64Facts.

(** ** The column search in binary64 *)

Module Grid64Facts.
Import Binary64 Binary64Facts Grid64.

Section Search.
Variable totalItems : nat.
Variables containerWidth containerHeight : number.

Local Abbreviation adm := (admissible totalItems containerWidth containerHeight).
Local Abbreviation waste := (wastedSpace totalItems containerWidth containerHeight).
Local Abbreviation upTo := (searchUpTo totalItems containerWidth containerHeight).

(** The optimum held after the candidates [1..n]: either none of them was
    admissible with a wasted space below [Infinity] and the defaults
    stand, or the optimum is the first of the admissible candidates than
    which none has less wasted space. *)
Definition computedOptimumUpTo (n : nat) (b : best) : Prop :=
  ((forall c, (1 <= c <= n)%nat -> adm c = true -> ltb (waste c) Infinity = false)
   /\ b = initBest)
  \/
  ((1 <= bestCols b <= n)%nat
   /\ adm (bestCols b) = true
   /\ bestRows b = rowsOf totalItems (bestCols b)
   /\ bestCellSize b = cellSizeOf totalItems containerWidth containerHeight (bestCols b)
   /\ bestFit b = waste (bestCols b)
   /\ ltb (waste (bestCols b)) Infinity = true
   /\ (forall c, (1 <= c < bestCols b)%nat -> adm c = true ->
         leb (waste c) (waste (bestCols b)) = false)
   /\ (forall c, (1 <= c <= n)%nat -> adm c = true ->
         ltb (waste c) (waste (bestCols b)) = false)).

Lemma computed_searchUpTo_S n :
  upTo (S n) = tryCols totalItems containerWidth containerHeight (upTo n) (S n).
Proof.
  unfold searchUpTo. rewrite seq_S, fold_left_app. reflexivity.
Qed.

Lemma computed_searchUpTo_optimum n : computedOptimumUpTo n (upTo n).
Proof.
  induction n as [|n IH].
  - left. split; [intros c Hc; lia | reflexivity].
  - rewrite computed_searchUpTo_S. unfold tryCols.
    destruct (adm (S n)) eqn:Hadm.
    + destruct IH as [[Hnone ->] | (Hrange & Hb & Hrows & Hcell & Hfit & Hinf & Hlt & Hle)].
      * cbn [bestFit initBest].
        destruct (ltb (waste (S n)) Infinity) eqn:Hcmp.
        -- right. cbn [bestCols bestRows bestCellSize bestFit].
           split; [lia|]. split; [exact Hadm|]. do 3 (split; [reflexivity|]).
           split; [exact Hcmp|]. split.
           ++ intros c Hc Hc'. destruct (leb (waste c) (waste (S n))) eqn:E; [|reflexivity].
              rewrite <- (Hnone c ltac:(lia) Hc'). symmetry.
              exact (leb_ltb_trans _ _ _ E Hcmp).
           ++ intros c Hc Hc'. destruct (Nat.eq_dec c (S n)) as [-> | Hne];
                [apply ltb_irrefl|].
              destruct (ltb (waste c) (waste (S n))) eqn:E; [|reflexivity].
              rewrite <- (Hnone c ltac:(lia) Hc'). symmetry.
              exact (ltb_trans _ _ _ E Hcmp).
        -- left. split; [|reflexivity].
           intros c Hc Hc'. destruct (Nat.eq_dec c (S n)) as [-> | Hne]; [exact Hcmp|].
           apply Hnone; [lia | exact Hc'].
      * rewrite Hfit.
        destruct (ltb (waste (S n)) (waste (bestCols (upTo n)))) eqn:Hcmp.
        -- right. cbn [bestCols bestRows bestCellSize bestFit].
           split; [lia|]. split; [exact Hadm|]. do 3 (split; [reflexivity|]).
           split; [exact (ltb_trans _ _ _ Hcmp Hinf)|]. split.
           ++ intros c Hc Hc'. destruct (leb (waste c) (waste (S n))) eqn:E; [|reflexivity].
              rewrite <- (Hle c ltac:(lia) Hc'). symmetry.
              exact (leb_ltb_trans _ _ _ E Hcmp).
           ++ intros c Hc Hc'. destruct (Nat.eq_dec c (S n)) as [-> | Hne];
                [apply ltb_irrefl|].
              destruct (ltb (waste c) (waste (S n))) eqn:E; [|reflexivity].
              rewrite <- (Hle c ltac:(lia) Hc'). symmetry.
              exact (ltb_trans _ _ _ E Hcmp).
        -- right. split; [lia|]. split; [exact Hb|]. split; [exact Hrows|].
           split; [exact Hcell|]. split; [exact Hfit|]. split; [exact Hinf|].
           split; [exact Hlt|].
           intros c Hc Hc'. destruct (Nat.eq_dec c (S n)) as [-> | Hne]; [exact Hcmp|].
           apply Hle; [lia | exact Hc'].
    + destruct IH as [[Hnone ->] | (Hrange & Hb & Hrows & Hcell & Hfit & Hinf & Hlt & Hle)].
      * left. split; [|reflexivity].
        intros c Hc Hc'. destruct (Nat.eq_dec c (S n)) as [-> | Hne]; [congruence|].
        apply Hnone; [lia | exact Hc'].
      * right. split; [lia|]. split; [exact Hb|]. split; [exact Hrows|].
        split; [exact Hcell|]. split; [exact Hfit|]. split; [exact Hinf|].
        split; [exact Hlt|].
        intros c Hc Hc'. destruct (Nat.eq_dec c (S n)) as [-> | Hne]; [congruence|].
        apply Hle; [lia | exact Hc'].
Qed.

(** A candidate whose cell size is [NaN] has the wasted space [NaN]. *)
Lemma wastedSpace_nan (cols : nat) :
  cellSizeOf totalItems containerWidth containerHeight cols = S754_nan ->
  waste cols = S754_nan.
Proof.
  intros H. unfold wastedSpace, gridHeightOf. rewrite H, mul_nan_r.
  cbn [add SFadd]. rewrite sub_nan_r. cbn [abs SFabs]. apply add_nan_r.
Qed.

End Search.

(** C1 (as amended).  For every item count and container size the column
    search, computed in binary64 as the code computes it, either keeps
    its defaults, which it does when no candidate in [1..N] is
    admissible (or none has a wasted space below the initial
    [Infinity]), or selects an admissible candidate, with
    [rows = ceil(N / cols)] and the cell size the minimum of the
    width-derived and height-derived sizes and between 30 and 200, such
    that no admissible candidate has a smaller computed wasted space, and
    no admissible candidate of fewer columns has a computed wasted space
    as small. *)
Theorem search_selects_least_computed_waste (N : nat) (cw ch : number) :
  ((forall c, (1 <= c <= N)%nat -> admissible N cw ch c = true ->
      ltb (wastedSpace N cw ch c) Infinity = false)
   /\ search N cw ch = initBest)
  \/
  ((1 <= bestCols (search N cw ch) <= N)%nat
   /\ admissible N cw ch (bestCols (search N cw ch)) = true
   /\ leb (ofZ 30) (bestCellSize (search N cw ch)) = true
   /\ leb (bestCellSize (search N cw ch)) (ofZ 200) = true
   /\ bestRows (search N cw ch) = ceil (div (ofNat N) (ofNat (bestCols (search N cw ch))))
   /\ bestCellSize (search N cw ch)
      = min (cellWidth cw (bestCols (search N cw ch)))
            (cellHeight N ch (bestCols (search N cw ch)))
   /\ bestFit (search N cw ch) = wastedSpace N cw ch (bestCols (search N cw ch))
   /\ (forall c, (1 <= c <= N)%nat -> admissible N cw ch c = true ->
         ltb (wastedSpace N cw ch c) (wastedSpace N cw ch (bestCols (search N cw ch)))
         = false
         /\ ((c < bestCols (search N cw ch))%nat ->
             leb (wastedSpace N cw ch c) (wastedSpace N cw ch (bestCols (search N cw ch)))
             = false))).
Proof.
  destruct (computed_searchUpTo_optimum N cw ch N)
    as [[Hnone Hinit] | (Hrange & Hb & Hrows & Hcell & Hfit & Hinf & Hlt & Hle)].
  - left. split; assumption.
  - right. fold (search N cw ch) in *.
    split; [exact Hrange|]. split; [exact Hb|].
    assert (Hnum : bestCellSize (search N cw ch) <> S754_nan).
    { intros Hnan. rewrite Hcell in Hnan.
      rewrite (wastedSpace_nan N cw ch _ Hnan) in Hinf. discriminate. }
    pose proof Hb as Hb'. unfold admissible in Hb'. rewrite <- Hcell in Hb'.
    rewrite negb_true_iff, orb_false_iff in Hb'. destruct Hb' as [H30 H200].
    split; [apply ltb_false_leb; [exact Hnum | discriminate | exact H30]|].
    split; [apply ltb_false_leb; [discriminate | exact Hnum | exact H200]|].
    split; [exact Hrows|]. split; [exact Hcell|]. split; [exact Hfit|].
    intros c Hc Hadm. split.
    + apply Hle; assumption.
    + intros Hless. apply Hlt; [lia | exact Hadm].
Qed.

(** C1 (as stated) fails twice.  For a single item in a 400 by 300
    container the only candidate has cell size 300, above the admissible
    range, and the layout goes on with one column and the default cell
    size 60.  For nine items in a container of inner size 1018 by 580 the
    candidates of 4 and of 6 columns are admissible and waste the same
    space, 730/3, less than any other; the code computes
    243.33333333333337 for the first and 243.33333333333331 for the
    second, and selects 6 columns, not 4. *)
Lemma search_default_and_rounded_tie :
  admissible 1 (ofZ 400) (ofZ 300) 1 = false
  /\ cellSizeOf 1 (ofZ 400) (ofZ 300) 1 = ofZ 300
  /\ search 1 (ofZ 400) (ofZ 300) = initBest
  /\ Grid.admissible 9 1018 580 4 = true
  /\ Grid.admissible 9 1018 580 6 = true
  /\ Qred (Grid.wastedSpace 9 1018 580 4) = (730 # 3)%Q
  /\ Qred (Grid.wastedSpace 9 1018 580 6) = (730 # 3)%Q
  /\ forallb (fun c => negb (Grid.admissible 9 1018 580 c)
                       || Qle_bool (730 # 3) (Grid.wastedSpace 9 1018 580 c))
             (seq 1 9) = true
  /\ admissible 9 (ofZ 1018) (ofZ 580) 4 = true
  /\ wastedSpace 9 (ofZ 1018) (ofZ 580) 4 = S754_finite false 8561530541615788 (-45)
  /\ wastedSpace 9 (ofZ 1018) (ofZ 580) 6 = S754_finite false 8561530541615786 (-45)
  /\ bestCols (search 9 (ofZ 1018) (ofZ 580)) = 6%nat.
Proof. vm_compute. repeat split; reflexivity. Qed.

End Grid64Facts.

(** ** The viewport controller *)

Module ViewportFacts.
Import Num NumFacts Viewport.
Local Open Scope Q_scope.

(** *** [constrainPan] *)

Lemma constrainAxis_fits (cs ct p : Q) :
  ct <= cs -> constrainAxis cs ct p = (cs - ct) / 2.
Proof.
  intros H. unfold constrainAxis.
  apply Qle_bool_iff in H. rewrite H. reflexivity.
Qed.

Lemma constrainAxis_overflow (cs ct p : Q) :
  cs < ct -> constrainAxis cs ct p == Qmax (cs - ct) (Qmin 0 p).
Proof.
  intros H. unfold constrainAxis.
  destruct (Qle_bool ct cs) eqn:E; [apply Qle_bool_iff in E; lra|].
  assert (Hz : (if Qeq_bool (Qmax 0 (cs - ct)) 0 then 0 else 0) = 0)
    by (destruct (Qeq_bool _ _); reflexivity).
  rewrite Hz.
  set (q := Qmax (Qmin 0 (cs - ct)) (Qmin 0 p)).
  assert (Hq : q == Qmax (cs - ct) (Qmin 0 p)).
  { subst q. apply Q.max_compat; [apply Q.min_r; lra | reflexivity]. }
  assert (Hb : cs - ct <= q <= 0).
  { rewrite Hq. split; [apply Q.le_max_l|].
    apply Q.max_lub; [lra | apply Q.le_min_l]. }
  destruct (Qltb 0 q) eqn:E1; [apply Qltb_lt in E1; lra|].
  destruct (Qltb q (cs - ct)) eqn:E2; [apply Qltb_lt in E2; lra|].
  exact Hq.
Qed.

Lemma constrainAxis_clamped (cs ct p : Q) :
  cs < ct ->
  cs - ct <= constrainAxis cs ct p <= 0
  /\ (cs - ct <= p <= 0 -> constrainAxis cs ct p == p).
Proof.
  intros H. rewrite (constrainAxis_overflow cs ct p H). split.
  - split; [apply Q.le_max_l|].
    apply Q.max_lub; [lra | apply Q.le_min_l].
  - intros [H1 H2].
    rewrite (Q.min_r 0 p) by assumption.
    apply Q.max_r. assumption.
Qed.

#[local] Instance constrainAxis_proper :
  Proper (Qeq ==> Qeq ==> Qeq ==> Qeq) constrainAxis.
Proof.
  intros cs cs' Hcs ct ct' Hct p p' Hp.
  destruct (Qlt_le_dec cs ct) as [Hlt | Hle].
  - rewrite (constrainAxis_overflow cs ct p Hlt).
    rewrite (constrainAxis_overflow cs' ct' p') by (rewrite <- Hcs, <- Hct; exact Hlt).
    rewrite Hcs, Hct, Hp. reflexivity.
  - rewrite (constrainAxis_fits cs ct p Hle).
    rewrite (constrainAxis_fits cs' ct' p') by (rewrite <- Hcs, <- Hct; exact Hle).
    rewrite Hcs, Hct. reflexivity.
Qed.

(** C6.  After [constrainPan], on each axis independently: content no
    larger than the container is exactly centred (equal margins on both
    sides); larger content has its leading edge at or before the
    container's leading edge and its trailing edge at or after the
    container's trailing edge, a pan already within these bounds being
    kept.  The scale is not touched. *)
Theorem constrainPan_centers_or_clamps (w : wrapper) (c : container) (v : viewport) :
  scale (constrainPan w c v) = scale v
  /\ (contentWidth v w <= clientWidth c ->
        panX (constrainPan w c v) = (clientWidth c - contentWidth v w) / 2
        /\ panX (constrainPan w c v)
           == clientWidth c - (panX (constrainPan w c v) + contentWidth v w))
  /\ (clientWidth c < contentWidth v w ->
        panX (constrainPan w c v) <= 0
        /\ clientWidth c <= panX (constrainPan w c v) + contentWidth v w
        /\ (clientWidth c - contentWidth v w <= panX v <= 0 ->
              panX (constrainPan w c v) == panX v))
  /\ (contentHeight v w <= clientHeight c ->
        panY (constrainPan w c v) = (clientHeight c - contentHeight v w) / 2
        /\ panY (constrainPan w c v)
           == clientHeight c - (panY (constrainPan w c v) + contentHeight v w))
  /\ (clientHeight c < contentHeight v w ->
        panY (constrainPan w c v) <= 0
        /\ clientHeight c <= panY (constrainPan w c v) + contentHeight v w
        /\ (clientHeight c - contentHeight v w <= panY v <= 0 ->
              panY (constrainPan w c v) == panY v)).
Proof.
  unfold constrainPan. cbn [scale panX panY].
  split; [reflexivity|].
  split; [|split; [|split]].
  - intros H. rewrite (constrainAxis_fits _ _ _ H). split; [reflexivity | field].
  - intros H. destruct (constrainAxis_clamped _ _ (panX v) H) as [[H1 H2] H3].
    split; [assumption|]. split; [lra | assumption].
  - intros H. rewrite (constrainAxis_fits _ _ _ H). split; [reflexivity | field].
  - intros H. destruct (constrainAxis_clamped _ _ (panY v) H) as [[H1 H2] H3].
    split; [assumption|]. split; [lra | assumption].
Qed.

(** *** [zoom] *)

#[local] Instance veq_equiv : Equivalence veq.
Proof.
  split.
  - intros v. repeat split; reflexivity.
  - intros v1 v2 (H1 & H2 & H3). repeat split; symmetry; assumption.
  - intros v1 v2 v3 (H1 & H2 & H3) (H1' & H2' & H3').
    repeat split; etransitivity; eassumption.
Qed.

Lemma constrainPan_veq (w : wrapper) (c : container) (v1 v2 : viewport) :
  veq v1 v2 -> veq (constrainPan w c v1) (constrainPan w c v2).
Proof.
  intros (H1 & H2 & H3). unfold veq, constrainPan, contentWidth, contentHeight.
  cbn [scale panX panY]. split; [assumption|].
  split; apply constrainAxis_proper; try reflexivity; try assumption;
    rewrite H1; reflexivity.
Qed.

Lemma divide_nonzero (a b : Q) : ~ b == 0 -> divide a b = Some (a / b).
Proof.
  intros H. unfold divide.
  destruct (Qeq_bool b 0) eqn:E; [apply Qeq_bool_iff in E; contradiction | reflexivity].
Qed.

Lemma clamp_in_range (x : Q) :
  minScale <= x <= maxScale -> Qmin maxScale (Qmax minScale x) == x.
Proof.
  intros [H1 H2].
  rewrite (Q.max_r minScale x) by assumption.
  apply Q.min_r. assumption.
Qed.

Lemma minScale_pos : 0 < minScale.
Proof. reflexivity. Qed.

Lemma zoomUnconstrained_some (f : Q) (c : container) (v : viewport) :
  ~ scale v == 0 ->
  zoomUnconstrained f c v
  = Some {| scale := zoomScale f v;
            panX := zoomPan (clientWidth c / 2) (panX v) (zoomScale f v / scale v);
            panY := zoomPan (clientHeight c / 2) (panY v) (zoomScale f v / scale v) |}.
Proof.
  intros H. unfold zoomUnconstrained. rewrite (divide_nonzero _ _ H). reflexivity.
Qed.

#[local] Instance zoomPan_proper : Proper (Qeq ==> Qeq ==> Qeq ==> Qeq) zoomPan.
Proof.
  intros a a' Ha b b' Hb k k' Hk. unfold zoomPan. rewrite Ha, Hb, Hk. reflexivity.
Qed.

Lemma zoomPan_back (center p k k' : Q) :
  k * k' == 1 -> zoomPan center (zoomPan center p k) k' == p.
Proof.
  intros H. unfold zoomPan.
  transitivity (center - (center - p) * (k * k')); [ring|].
  rewrite H. ring.
Qed.

(** C5 (as amended).  From a scale within the zoom limits, [zoom] never
    fails; the new scale is [clamp(scale * f, minScale, maxScale)] and the
    translation is the pan constraint applied to
    [pivot - (pivot - translate) * (newScale / oldScale)], the pivot being
    the container centre.  [zoom(1)] keeps the scale, and keeps the
    translation when it already satisfies the pan constraint.  When
    [scale * f] stays within the limits, [zoom(f)] then [zoom(1/f)]
    restores the scale, and restores the translation when the original
    translation satisfies the pan constraint and the constraint leaves the
    intermediate translation as computed. *)
Theorem zoom_laws (w : wrapper) (c : container) (v : viewport) :
  minScale <= scale v <= maxScale ->
  (forall f, exists v',
      zoom f w c v = Some v'
      /\ scale v' = Qmin maxScale (Qmax minScale (scale v * f))
      /\ v' = constrainPan w c
                {| scale := scale v';
                   panX := clientWidth c / 2
                           - (clientWidth c / 2 - panX v) * (scale v' / scale v);
                   panY := clientHeight c / 2
                           - (clientHeight c / 2 - panY v) * (scale v' / scale v) |})
  /\ (exists v1,
        zoom 1 w c v = Some v1
        /\ scale v1 == scale v
        /\ (veq (constrainPan w c v) v -> veq v1 v))
  /\ (forall f, minScale <= scale v * f <= maxScale ->
        exists v1 v2,
          zoom f w c v = Some v1
          /\ zoom (1 / f) w c v1 = Some v2
          /\ scale v1 == scale v * f
          /\ scale v2 == scale v
          /\ (veq (constrainPan w c v) v ->
              (exists u, zoomUnconstrained f c v = Some u /\ veq (constrainPan w c u) u) ->
              veq v2 v)).
Proof.
  intros [Hlo Hhi].
  pose proof minScale_pos as Hmin.
  assert (Hs : ~ scale v == 0) by (intros E; rewrite E in Hlo; lra).
  split; [|split].
  - intros f. eexists. unfold zoom.
    rewrite (zoomUnconstrained_some f c v Hs). cbn [option_map].
    split; [reflexivity|]. split; reflexivity.
  - eexists. unfold zoom.
    rewrite (zoomUnconstrained_some 1 c v Hs). cbn [option_map].
    assert (Hz : zoomScale 1 v == scale v).
    { unfold zoomScale. rewrite Qmult_1_r. apply clamp_in_range. split; assumption. }
    split; [reflexivity|]. split; [exact Hz|].
    intros Hc. etransitivity; [|exact Hc].
    apply constrainPan_veq. unfold veq, zoomPan. cbn [scale panX panY].
    split; [exact Hz|]. rewrite Hz. split; field; exact Hs.
  - intros f [Hflo Hfhi].
    assert (Hf : ~ f == 0).
    { intros E. rewrite E, Qmult_0_r in Hflo. lra. }
    assert (Hz1 : zoomScale f v == scale v * f).
    { unfold zoomScale. apply clamp_in_range. split; assumption. }
    assert (Hs1 : ~ zoomScale f v == 0).
    { rewrite Hz1. intros E. rewrite E in Hflo. lra. }
    set (u1 := {| scale := zoomScale f v;
                  panX := zoomPan (clientWidth c / 2) (panX v) (zoomScale f v / scale v);
                  panY := zoomPan (clientHeight c / 2) (panY v) (zoomScale f v / scale v) |}).
    assert (Hz2 : zoomScale (1 / f) (constrainPan w c u1) == scale v).
    { unfold zoomScale. cbn [constrainPan scale u1].
      assert (E : zoomScale f v * (1 / f) == scale v) by (rewrite Hz1; field; exact Hf).
      rewrite (Q.min_compat _ _ (reflexivity maxScale) _ _
                 (Q.max_compat _ _ (reflexivity minScale) _ _ E)).
      apply clamp_in_range. split; assumption. }
    exists (constrainPan w c u1). eexists. unfold zoom.
    rewrite (zoomUnconstrained_some f c v Hs). fold u1. cbn [option_map].
    rewrite (zoomUnconstrained_some (1 / f) c (constrainPan w c u1))
      by (cbn [constrainPan scale u1]; exact Hs1).
    cbn [option_map].
    split; [reflexivity|]. split; [reflexivity|].
    split; [exact Hz1|]. split; [exact Hz2|].
    intros Hc (u & Hu & Hfix).
    injection Hu as <-.
    etransitivity; [|exact Hc].
    apply constrainPan_veq.
    destruct Hfix as (_ & HfX & HfY).
    unfold veq. cbn [scale panX panY].
    split; [exact Hz2|].
    assert (Hk : zoomScale f v / scale v
                 * (zoomScale (1 / f) (constrainPan w c u1) / zoomScale f v) == 1).
    { rewrite Hz2. field. split; assumption. }
    split.
    + rewrite HfX. cbn [u1 panX constrainPan scale].
      apply zoomPan_back. exact Hk.
    + rewrite HfY. cbn [u1 panY constrainPan scale].
      apply zoomPan_back. exact Hk.
Qed.

(** C5 at a 1000 by 1000 wrapper in a 400 by 400 container, panned to
    (-300, -300) at scale 1, zoomed by 1.3 and back. *)
Lemma zoom_laws_witness :
  exists v1 v2,
    zoom (13 # 10) (mkWrapper (Some 1000) (Some 1000) 0 0) (mkContainer 400 400)
         (mkViewport 1 (-300) (-300)) = Some v1
    /\ zoom (1 / (13 # 10)) (mkWrapper (Some 1000) (Some 1000) 0 0) (mkContainer 400 400)
            v1 = Some v2
    /\ veq v2 (mkViewport 1 (-300) (-300)).
Proof.
  destruct (zoom_laws (mkWrapper (Some 1000) (Some 1000) 0 0) (mkContainer 400 400)
                      (mkViewport 1 (-300) (-300))) as (_ & _ & H).
  { split; vm_compute; discriminate. }
  destruct (H (13 # 10)) as (v1 & v2 & H1 & H2 & _ & _ & H3).
  { split; vm_compute; discriminate. }
  exists v1, v2. split; [exact H1|]. split; [exact H2|].
  apply H3.
  - repeat split; vm_compute; reflexivity.
  - eexists. split; [vm_compute; reflexivity|].
    repeat split; vm_compute; reflexivity.
Defined.

(** C5 (as stated) fails because [zoom] ends with [constrainPan].  With a
    100 by 100 wrapper in a 400 by 400 container, [zoom(1)] moves the
    translation from (0, 0) to (150, 150).  With a 1000 by 1000 wrapper
    panned to (-600, -600) at scale 1, [zoom(1/2)] then [zoom(2)] keeps all
    scales within the limits and ends at translation (-400, -400). *)
Lemma zoom_not_identity_nor_round_trip :
  (minScale <= 1 <= maxScale
   /\ exists v', zoom 1 (mkWrapper (Some 100) (Some 100) 0 0) (mkContainer 400 400)
                      (mkViewport 1 0 0) = Some v'
        /\ Qred (panX v') = 150 /\ Qred (panY v') = 150
        /\ ~ veq v' (mkViewport 1 0 0))
  /\ (minScale <= 1 * (1 # 2) <= maxScale
      /\ exists v1 v2,
           zoom (1 # 2) (mkWrapper (Some 1000) (Some 1000) 0 0) (mkContainer 400 400)
                (mkViewport 1 (-600) (-600)) = Some v1
           /\ zoom (1 / (1 # 2)) (mkWrapper (Some 1000) (Some 1000) 0 0) (mkContainer 400 400)
                   v1 = Some v2
           /\ Qred (scale v2) = 1
           /\ Qred (panX v2) = -400 /\ Qred (panY v2) = -400
           /\ ~ veq v2 (mkViewport 1 (-600) (-600))).
Proof.
  split.
  - split; [split; vm_compute; discriminate|].
    eexists. split; [vm_compute; reflexivity|].
    split; [reflexivity|]. split; [reflexivity|].
    intros (_ & H & _). vm_compute in H. discriminate.
  - split; [split; vm_compute; discriminate|].
    eexists. eexists. split; [vm_compute; reflexivity|].
    split; [vm_compute; reflexivity|].
    split; [reflexivity|]. split; [reflexivity|]. split; [reflexivity|].
    intros (_ & H & _). vm_compute in H. discriminate.
Qed.

(** *** [fitToViewport] *)

Lemma orNum_zero (a b : Q) : orNum a b == 0 -> b == 0.
Proof.
  unfold orNum. destruct (Qeq_bool a 0) eqn:E; [trivial|].
  intros H. apply Qeq_bool_neq in E. contradiction.
Qed.

Lemma fitScale_some (w : wrapper) (c : container) :
  exists s, fitScale w c = Some s
    /\ ((fitContentWidth w c == 0 \/ fitContentHeight w c == 0) -> s = 1)
    /\ (~ fitContentWidth w c == 0 -> ~ fitContentHeight w c == 0 ->
          s = Qmin ((clientWidth c - 40) / fitContentWidth w c)
                   ((clientHeight c - 40) / fitContentHeight w c)).
Proof.
  unfold fitScale.
  destruct (Qeq_bool (fitContentWidth w c) 0) eqn:Ew; cbn [orb].
  { eexists. split; [reflexivity|]. split; [reflexivity|].
    apply Qeq_bool_iff in Ew. intros; contradiction. }
  destruct (Qeq_bool (fitContentHeight w c) 0) eqn:Eh.
  { eexists. split; [reflexivity|]. split; [reflexivity|].
    apply Qeq_bool_iff in Eh. intros; contradiction. }
  apply Qeq_bool_neq in Ew, Eh.
  rewrite (divide_nonzero _ _ Ew), (divide_nonzero _ _ Eh).
  eexists. split; [reflexivity|]. split; [intros [?|?]; contradiction | reflexivity].
Qed.

Lemma zoom_total (f : Q) (w : wrapper) (c : container) (v : viewport) :
  minScale <= scale v <= maxScale ->
  exists v', zoom f w c v = Some v' /\ minScale <= scale v' <= maxScale.
Proof.
  intros [Hlo Hhi]. pose proof minScale_pos as Hmin.
  assert (Hs : ~ scale v == 0) by (intros E; rewrite E in Hlo; lra).
  unfold zoom. rewrite (zoomUnconstrained_some f c v Hs). cbn [option_map].
  eexists. split; [reflexivity|]. cbn [constrainPan scale]. unfold zoomScale.
  split; [|apply Q.le_min_l].
  apply Q.min_glb; [unfold minScale, maxScale; lra | apply Q.le_max_l].
Qed.

(** C9 (as amended).  The viewport operations have no failure mode and
    never divide by zero: [zoom] from a scale within the zoom limits and
    [fitToViewport] from any input always yield a viewport whose scale is
    within the limits, and [fitToViewport] gives the translation that
    centres the scaled content.  When the content width or height is zero
    the scale is 1, and on an axis of zero content (which needs a zero
    container size on that axis) the translation is 0.  A zero-width
    container around non-empty content does not give scale 1: the negative
    fit ratio is clamped to [minScale]. *)
Theorem fitToViewport_total (w : wrapper) (c : container) :
  (forall f v, minScale <= scale v <= maxScale ->
     exists v', zoom f w c v = Some v' /\ minScale <= scale v' <= maxScale)
  /\ exists v,
    fitToViewport w c = Some v
    /\ minScale <= scale v <= maxScale
    /\ panX v = (clientWidth c - fitContentWidth w c * scale v) / 2
    /\ panY v = (clientHeight c - fitContentHeight w c * scale v) / 2
    /\ ((fitContentWidth w c == 0 \/ fitContentHeight w c == 0) -> scale v == 1)
    /\ (fitContentWidth w c == 0 -> clientWidth c == 0 /\ panX v == 0)
    /\ (fitContentHeight w c == 0 -> clientHeight c == 0 /\ panY v == 0)
    /\ (clientWidth c == 0 -> 0 < fitContentWidth w c -> 0 < fitContentHeight w c ->
          scale v == minScale
          /\ panX v == - (fitContentWidth w c * minScale) / 2).
Proof.
  split; [intros f v Hv; apply zoom_total; exact Hv|].
  destruct (fitScale_some w c) as (s & Hs & Hzero & Hnz).
  unfold fitToViewport. rewrite Hs. eexists. split; [reflexivity|].
  cbn [scale panX panY].
  assert (Hrange : minScale <= Qmax minScale (Qmin maxScale s) <= maxScale).
  { split; [apply Q.le_max_l|].
    apply Q.max_lub; [unfold minScale, maxScale; lra | apply Q.le_min_l]. }
  split; [exact Hrange|]. split; [reflexivity|]. split; [reflexivity|].
  assert (Hone : (fitContentWidth w c == 0 \/ fitContentHeight w c == 0) ->
                 Qmax minScale (Qmin maxScale s) == 1).
  { intros H. rewrite (Hzero H). reflexivity. }
  split; [exact Hone|].
  split; [|split].
  - intros H. pose proof (orNum_zero _ _ H) as Hc.
    split; [exact Hc|]. rewrite H, Hc. field.
  - intros H. pose proof (orNum_zero _ _ H) as Hc.
    split; [exact Hc|]. rewrite H, Hc. field.
  - intros Hc Hw Hh.
    assert (Hw' : ~ fitContentWidth w c == 0) by (intros E; rewrite E in Hw; lra).
    assert (Hh' : ~ fitContentHeight w c == 0) by (intros E; rewrite E in Hh; lra).
    assert (Hneg : s <= 0).
    { rewrite (Hnz Hw' Hh').
      apply Qle_trans with ((clientWidth c - 40) / fitContentWidth w c);
        [apply Q.le_min_l|].
      rewrite Hc. unfold Qdiv.
      assert (Hinv : 0 < / fitContentWidth w c) by (apply Qinv_lt_0_compat; exact Hw).
      assert (E : (0 - 40) * / fitContentWidth w c == - (40 * / fitContentWidth w c))
        by ring.
      rewrite E. lra. }
    assert (Hsc : Qmax minScale (Qmin maxScale s) == minScale).
    { apply Q.max_l. apply Qle_trans with s; [apply Q.le_min_r|].
      unfold minScale. lra. }
    split; [exact Hsc|]. rewrite Hsc, Hc. field.
Qed.

(** C9 (as stated) fails for a 0 by 0 container around a 500 by 500
    wrapper: the outcome is scale 1/10 and translation (-25, -25), not
    scale 1 and translation 0. *)
Lemma fitToViewport_zero_container :
  exists v,
    fitToViewport (mkWrapper (Some 500) (Some 500) 0 0) (mkContainer 0 0) = Some v
    /\ Qred (scale v) = 1 # 10
    /\ Qred (panX v) = -25
    /\ Qred (panY v) = -25
    /\ ~ scale v == 1
    /\ ~ panX v == 0.
Proof.
  eexists. split; [vm_compute; reflexivity|].
  repeat split; try reflexivity; intros H; vm_compute in H; discriminate.
Qed.

End ViewportFacts.

(** ** Sorting keeps the elements *)

Module JsFacts.
Import Js.

Lemma insertBy_perm {A : Type} (cmp : A -> A -> Z) (x : A) (l : list A) :
  insertBy cmp x l ≡ₚ x :: l.
Proof.
  induction l as [|y l IH]; cbn [insertBy]; [reflexivity|].
  destruct (cmp x y <=? 0)%Z; [reflexivity|].
  rewrite IH. apply Permutation_swap.
Qed.

Lemma sortBy_perm {A : Type} (cmp : A -> A -> Z) (l : list A) :
  sortBy cmp l ≡ₚ l.
Proof.
  induction l as [|x l IH]; [reflexivity|].
  unfold sortBy in *. cbn [foldr]. rewrite insertBy_perm, IH. reflexivity.
Qed.

Lemma elem_of_sortBy {A : Type} (cmp : A -> A -> Z) (l : list A) (x : A) :
  x ∈ sortBy cmp l <-> x ∈ l.
Proof. rewrite sortBy_perm. reflexivity. Qed.

(** With a comparator that ranks any two elements one way or the other,
    the outcome is in order: each element is ranked at or before its
    successor. *)
Section Sorted.
Context {A : Type} (cmp : A -> A -> Z).
Hypothesis cmp_total : forall x y, (cmp x y <= 0)%Z \/ (cmp y x <= 0)%Z.




End Sorted.

End JsFacts.

(** ** Membership of the visible set *)

Module FilterFacts.
Import Js JsFacts Filter Samples.

(** An ad passes an allow-list when the list is empty or holds its value. *)
Definition passes (a : ad) (entry : string * list value) : Prop :=
  entry.2 = [] \/ ad_attr a entry.1 ∈ entry.2.

Lemma matchesAd_fold (a : ad) (fs : filters) (acc : bool) :
  fold_left
    (fun matches '(field, values) =>
       if (0 <? length values)%nat && negb (includes values (ad_attr a field))
       then false else matches) fs acc = true
  <-> acc = true /\ Forall (passes a) fs.
Proof.
  revert acc. induction fs as [|[field values] fs IH]; intros acc; cbn [fold_left].
  - split; [intros ->; split; [reflexivity | constructor] | intros [-> _]; reflexivity].
  - rewrite IH, Forall_cons. unfold passes at 1, includes. cbn [fst snd].
    destruct values as [|v values]; cbn [length Nat.ltb Nat.leb andb].
    + split; [intros [Hacc HF] | intros [Hacc [_ HF]]];
        (split; [exact Hacc|]); [split; [left; reflexivity | exact HF] | exact HF].
    + case_bool_decide as Hin; cbn [negb].
      * split; [intros [Hacc HF] | intros [Hacc [_ HF]]];
          (split; [exact Hacc|]); [split; [right; exact Hin | exact HF] | exact HF].
      * split; [intros [? _]; discriminate|].
        intros [_ [[?|?] _]]; [discriminate | contradiction].
Qed.

Lemma matchesAd_spec (fs : filters) (a : ad) :
  matchesAd fs a = true <-> Forall (passes a) fs.
Proof.
  unfold matchesAd. rewrite matchesAd_fold. tauto.
Qed.

Lemma matchingIds_fold (fs : filters) (ads : list ad) (acc : gset string) (i : string) :
  i ∈ fold_left
        (fun ids a => if matchesAd fs a then {[ad_id a]} ∪ ids else ids) ads acc
  <-> i ∈ acc \/ exists a, a ∈ ads /\ matchesAd fs a = true /\ ad_id a = i.
Proof.
  revert acc. induction ads as [|b ads IH]; intros acc; cbn [fold_left].
  - split; [auto | intros [H | (a & Ha & _)]; [exact H | inversion Ha]].
  - rewrite IH. destruct (matchesAd fs b) eqn:Hb.
    + rewrite elem_of_union, elem_of_singleton. split.
      * intros [[-> | H] | (a & Ha & Hm & Hi)].
        -- right. exists b. split; [left | auto].
        -- left. exact H.
        -- right. exists a. split; [right; exact Ha | auto].
      * intros [H | (a & Ha & Hm & Hi)]; [left; right; exact H|].
        apply elem_of_cons in Ha as [-> | Ha].
        -- left. left. symmetry. exact Hi.
        -- right. exists a. auto.
    + split.
      * intros [H | (a & Ha & Hm & Hi)]; [left; exact H|].
        right. exists a. split; [right; exact Ha | auto].
      * intros [H | (a & Ha & Hm & Hi)]; [left; exact H|].
        apply elem_of_cons in Ha as [-> | Ha]; [congruence|].
        right. exists a. auto.
Qed.

Lemma elem_of_matchingIds (fs : filters) (ads : list ad) (i : string) :
  i ∈ matchingIds fs ads <-> exists a, a ∈ ads /\ matchesAd fs a = true /\ ad_id a = i.
Proof.
  unfold matchingIds. rewrite matchingIds_fold. split.
  - intros [H | H]; [apply not_elem_of_empty in H; contradiction | exact H].
  - intros H. right. exact H.
Qed.




(** *** The [AdViewer] variant *)











End FilterFacts.

(** ** The grouped layout *)

Module GroupedFacts.
Import Num NumFacts Settings Js JsFacts Filter Grouped Samples.
Local Open Scope Q_scope.

(** *** Groups *)





(** *** The tallest stack *)



(** *** Rows *)










Section Layout.
Variable localeCompare : string -> string -> Z.
Variable shown : ad -> bool.
Variable groupBy : string.
Variable ads : list ad.
Variable clientWidth : Q.

Local Abbreviation L := (applyGroupedLayout localeCompare shown groupBy ads clientWidth).
Local Abbreviation sorted := (sortedGroups localeCompare groupBy ads).







Hypothesis localeCompare_total :
  forall x y, (localeCompare x y <= 0)%Z \/ (localeCompare y x <= 0)%Z.



End Layout.




End GroupedFacts.

(** ** The transition engine *)

Module AnimatorFacts.
Import Num NumFacts Animator Samples.
Local Open Scope Q_scope.

(** *** Registry entries are animations of their element *)

(** What the registry does keep: the entry of an element is an animation
    that was started on that element. *)
Definition registryTargets (s : animator) : Prop :=
  forall e id, runningAnimations s !! e = Some id ->
    exists a, animations s !! id = Some a /\ target a = e.

Lemma cancelAnimation_target (a : animation) : target (cancelAnimation a) = target a.
Proof. unfold cancelAnimation. destruct (state a); reflexivity. Qed.

Lemma cancel_lookup_eq (id : nat) (l : list animation) :
  cancel id l !! id = cancelAnimation <$> l !! id.
Proof.
  unfold cancel. rewrite list_lookup_alter. rewrite decide_True by reflexivity. reflexivity.
Qed.

Lemma cancel_lookup_ne (id j : nat) (l : list animation) :
  id <> j -> cancel id l !! j = l !! j.
Proof. intros H. unfold cancel. apply list_lookup_alter_ne. exact H. Qed.

Lemma cancel_length (id : nat) (l : list animation) : length (cancel id l) = length l.
Proof. unfold cancel. apply length_alter. Qed.

Lemma cancel_targets (id j : nat) (l : list animation) (a : animation) :
  l !! j = Some a -> exists a', cancel id l !! j = Some a' /\ target a' = target a.
Proof.
  intros Ha. destruct (decide (id = j)) as [<- | Hne].
  - exists (cancelAnimation a). rewrite cancel_lookup_eq, Ha.
    split; [reflexivity | apply cancelAnimation_target].
  - exists a. rewrite cancel_lookup_ne by exact Hne. split; [exact Ha | reflexivity].
Qed.

(** The animations after the cancel step of [startAnimation]. *)
Definition afterCancel (e : element) (s : animator) : list animation :=
  match runningAnimations s !! e with
  | Some old => cancel old (animations s)
  | None => animations s
  end.

Lemma afterCancel_length (e : element) (s : animator) :
  length (afterCancel e s) = length (animations s).
Proof. unfold afterCancel. destruct (_ !! e); [apply cancel_length | reflexivity]. Qed.

Lemma afterCancel_targets (e : element) (s : animator) (j : nat) (a : animation) :
  animations s !! j = Some a ->
  exists a', afterCancel e s !! j = Some a' /\ target a' = target a.
Proof.
  intros Ha. unfold afterCancel. destruct (runningAnimations s !! e) as [old|].
  - apply cancel_targets. exact Ha.
  - exists a. split; [exact Ha | reflexivity].
Qed.

Lemma startAnimation_fields (e : element) (kf : keyframes) (du de : Q) (s : animator) :
  runningAnimations (startAnimation e kf du de s).1
  = <[e := length (animations s)]> (runningAnimations s)
  /\ animations (startAnimation e kf du de s).1
     = afterCancel e s ++ [animate e kf du de Unregister]
  /\ (startAnimation e kf du de s).2 = length (animations s)
  /\ staggerDelay (startAnimation e kf du de s).1 = staggerDelay s
  /\ pending (startAnimation e kf du de s).1 = pending s
  /\ completed (startAnimation e kf du de s).1 = completed s
  /\ events (startAnimation e kf du de s).1 = events s
  /\ notified (startAnimation e kf du de s).1 = notified s.
Proof.
  unfold startAnimation.
  cbn [fst snd runningAnimations animations staggerDelay pending completed events notified].
  fold (afterCancel e s). rewrite afterCancel_length. repeat split; reflexivity.
Qed.

Lemma startAnimation_targets (e : element) (kf : keyframes) (du de : Q) (s : animator) :
  registryTargets s -> registryTargets (startAnimation e kf du de s).1.
Proof.
  intros Hreg e' id'.
  destruct (startAnimation_fields e kf du de s) as (-> & -> & _).
  intros Hl. destruct (decide (e = e')) as [<- | Hne].
  - rewrite lookup_insert_eq in Hl. injection Hl as <-.
    exists (animate e kf du de Unregister). split; [|reflexivity].
    apply list_lookup_middle. rewrite afterCancel_length. reflexivity.
  - rewrite lookup_insert_ne in Hl by exact Hne.
    destruct (Hreg e' id' Hl) as (a & Ha & Ht).
    destruct (afterCancel_targets e s id' a Ha) as (a' & Ha' & Ht').
    exists a'. split; [|congruence].
    apply lookup_app_l_Some. exact Ha'.
Qed.

(** *** The loops of [flip], [fadeOut] and [fadeIn] *)

(** The three loops have one shape: an entry of [elements] either is passed
    over or has an animation started on its element.  [fire] tells which,
    and with what keyframes and duration. *)
Definition stepWith (fire : nat * option element -> option (element * keyframes * Q))
    (acc : animator * list nat) (entry : nat * option element) : animator * list nat :=
  match fire entry with
  | None => acc
  | Some (e, kf, du) =>
      let r := startAnimation e kf du (staggerDelay acc.1 * ofNat entry.1) acc.1 in
      (r.1, acc.2 ++ [r.2])
  end.

Definition fireFlip (before after : dom) (dur : Q) (entry : nat * option element)
  : option (element * keyframes * Q) :=
  match entry.2 with
  | None => None
  | Some e =>
      match flipFrames (before e) (after e) with
      | None => None
      | Some kf => Some (e, kf, dur)
      end
  end.

Definition fireFade (kf : keyframes) (dur : Q) (entry : nat * option element)
  : option (element * keyframes * Q) :=
  match entry.2 with
  | None => None
  | Some e => Some (e, kf, dur)
  end.

Lemma fold_left_agree {A B : Type} (f g : A -> B -> A) (l : list B) (a : A) :
  (forall x y, f x y = g x y) -> fold_left f l a = fold_left g l a.
Proof.
  intros H. revert a. induction l as [|y l IH]; intros a; cbn [fold_left]; [reflexivity|].
  rewrite H. apply IH.
Qed.

Lemma flipStep_stepWith (before after : dom) (dur : Q) acc entry :
  flipStep before after dur acc entry = stepWith (fireFlip before after dur) acc entry.
Proof.
  unfold flipStep, stepWith, fireFlip. destruct entry.2 as [e|]; [|reflexivity].
  destruct (flipFrames _ _); reflexivity.
Qed.

Lemma fadeStep_stepWith (kf : keyframes) (dur : Q) acc entry :
  fadeStep kf dur acc entry = stepWith (fireFade kf dur) acc entry.
Proof.
  unfold fadeStep, stepWith, fireFade. destruct entry.2 as [e|]; reflexivity.
Qed.

Lemma loop_agrees_flip before after dur entries acc :
  fold_left (flipStep before after dur) entries acc
  = fold_left (stepWith (fireFlip before after dur)) entries acc.
Proof. apply fold_left_agree, flipStep_stepWith. Qed.

Lemma loop_agrees_fade kf dur entries acc :
  fold_left (fadeStep kf dur) entries acc
  = fold_left (stepWith (fireFade kf dur)) entries acc.
Proof. apply fold_left_agree, fadeStep_stepWith. Qed.

Lemma loop_targets (fire : nat * option element -> option (element * keyframes * Q))
    (entries : list (nat * option element)) (acc : animator * list nat) :
  registryTargets acc.1 -> registryTargets (fold_left (stepWith fire) entries acc).1.
Proof.
  revert acc. induction entries as [|entry entries IH]; intros acc H; cbn [fold_left]; [exact H|].
  apply IH. unfold stepWith. destruct (fire entry) as [[[e kf] du]|]; [|exact H].
  cbn [fst]. apply startAnimation_targets. exact H.
Qed.

Lemma finish_targets (id : nat) (s : animator) :
  registryTargets s -> registryTargets (finish id s).
Proof.
  intros Hreg. unfold finish.
  destruct (animations s !! id) as [a|] eqn:Ea; [|exact Hreg].
  destruct (state a); try exact Hreg.
  intros e id' Hl. cbn [runningAnimations animations] in *.
  destruct (Hreg e id' Hl) as (a' & Ha' & Ht').
  destruct (decide (id = id')) as [<- | Hne].
  - exists (finishAnimation a). split.
    + apply list_lookup_insert_eq. apply (lookup_lt_Some _ _ _ Ea).
    + cbn [finishAnimation target]. congruence.
  - exists a'. split; [|exact Ht']. rewrite list_lookup_insert_ne by exact Hne. exact Ha'.
Qed.

Lemma dispatch_targets (s : animator) : registryTargets s -> registryTargets (dispatch s).
Proof.
  intros Hreg. unfold dispatch.
  destruct (events s) as [|id rest]; [exact Hreg|].
  destruct (animations s !! id) as [a|]; [|exact Hreg].
  destruct (onfinish a); [|exact Hreg].
  intros e id' Hl. cbn [runningAnimations animations] in *.
  apply lookup_delete_Some in Hl as [_ Hl]. exact (Hreg e id' Hl).
Qed.

Lemma reachable_targets (s : animator) : reachable s -> registryTargets s.
Proof.
  induction 1 as [duration stagger | s s' _ IH Hstep].
  - intros e id H. cbn in H. rewrite lookup_empty in H. discriminate.
  - destruct Hstep; unfold flip, fadeOut, fadeIn; cbn [fst].
    + rewrite loop_agrees_flip. apply (loop_targets _ _ (_, [])). exact IH.
    + rewrite loop_agrees_fade. apply (loop_targets _ _ (_, [])). exact IH.
    + rewrite loop_agrees_fade. apply (loop_targets _ _ (_, [])). exact IH.
    + intros e id Hl. destruct (IH e id Hl) as (a & Ha & Ht).
      exists a. split; [|exact Ht]. apply lookup_app_l_Some. exact Ha.
    + intros e id Hl. destruct (IH e id Hl) as (a & Ha & Ht).
      exists a. split; [|exact Ht]. apply lookup_app_l_Some. exact Ha.
    + apply finish_targets. exact IH.
    + apply dispatch_targets. exact IH.
    + intros e id Hl. cbn in Hl. rewrite lookup_empty in Hl. discriminate.
    + exact IH.
Qed.

(** *** A running animation without an entry *)

(** C4 fails where an animation is restarted from [onComplete]: the item
    7, hidden before, is faded in by [clearAllFilters]; when the fade-in
    ends its promise is fulfilled and the promise jobs call [onComplete],
    which lays out again through [flip] and so starts a second animation
    on the item, registered in place of the first; then the [finish]
    event of the fade-in is dispatched, and its handler deletes the entry
    of the element, which is now that of the second animation.  That
    animation runs without an entry: the [fadeOut] of the next filter
    change does not cancel it, two animations run on the item, and
    [cancelAll] stops only the one that is registered. *)
Theorem stale_finish_handler_unregisters :
  reachable hiddenAgain
  /\ completed fadedIn = [1%nat]
  /\ events fadedIn = [0%nat]
  /\ runningAnimations relaidOut !! 7%nat = Some 1%nat
  /\ hasState Canceled (animations relaidOut) 0 = true
  /\ hasState Running (animations relaidOut) 1 = true
  /\ events relaidOut = [0%nat]
  /\ runningAnimations handled !! 7%nat = None
  /\ hasState Running (animations handled) 1 = true
  /\ (target <$> animations handled) = [7%nat; 7%nat]
  /\ runningAnimations hiddenAgain !! 7%nat = Some 2%nat
  /\ (target <$> animations hiddenAgain) = [7%nat; 7%nat; 7%nat]
  /\ hasState Running (animations hiddenAgain) 1 = true
  /\ hasState Running (animations hiddenAgain) 2 = true
  /\ hasState Running (animations (cancelAll hiddenAgain)) 1 = true
  /\ runningAnimations (cancelAll hiddenAgain) = ∅.
Proof.
  split.
  - unfold hiddenAgain. eapply reachable_step; [|apply step_fadeOut].
    unfold handled. eapply reachable_step; [|apply step_dispatch].
    unfold relaidOut. eapply reachable_step; [|apply step_flip].
    unfold fadedIn. eapply reachable_step; [|apply step_settle].
    eapply reachable_step; [|apply step_finish].
    unfold shownAgain. eapply reachable_step; [|apply step_fadeIn].
    apply reachable_new.
  - repeat split; vm_compute; reflexivity.
Qed.

(** *** Elements that did not move *)

Lemma orNum_nonzero (a b : Q) : ~ a == 0 -> orNum a b = a.
Proof.
  intros H. unfold orNum. destruct (Qeq_bool a 0) eqn:E; [|reflexivity].
  apply Qeq_bool_iff in E. contradiction.
Qed.

Lemma small_of_zero (x bound : Q) : x == 0 -> 0 < bound -> Qltb (Qabs x) bound = true.
Proof.
  intros Hx Hb. apply Qltb_lt. rewrite Hx. exact Hb.
Qed.

(** An element of non-zero size whose geometry did not change is skipped. *)
Lemma flipFrames_unmoved (g : geometry) :
  ~ g_width g == 0 -> ~ g_height g == 0 -> flipFrames g g = None.
Proof.
  intros Hw Hh. unfold flipFrames.
  rewrite (orNum_nonzero (g_width g) 1 Hw), (orNum_nonzero (g_height g) 1 Hh).
  rewrite !small_of_zero; try reflexivity; try ring; field; assumption.
Qed.

Lemma flip_loop_unmoved (before after : dom) (dur : Q)
    (entries : list (nat * option element)) (acc : animator * list nat) :
  (forall i e, (i, Some e) ∈ entries ->
     after e = before e /\ ~ g_width (before e) == 0 /\ ~ g_height (before e) == 0) ->
  fold_left (flipStep before after dur) entries acc = acc.
Proof.
  revert acc. induction entries as [|[i el] entries IH]; intros acc H; cbn [fold_left];
    [reflexivity|].
  rewrite IH by (intros j e Hin; apply (H j); right; exact Hin).
  unfold flipStep. cbn [snd]. destruct el as [e|]; [|reflexivity].
  destruct (H i e ltac:(left)) as (-> & Hw & Hh).
  rewrite (flipFrames_unmoved _ Hw Hh). reflexivity.
Qed.

(** When every element has a non-zero size and its Last geometry equals its
    First, [flip] starts no animation and leaves the registry and the
    animations as they are; its reaction is resolved at the next run of the
    promise jobs, which invokes [onComplete] once and keeps nothing
    pending for it. *)
Lemma flip_unmoved_starts_nothing (elements : list (option element))
    (layoutChange : dom -> dom) (duration : option Q) (onComplete : nat)
    (d : dom) (s : animator) :
  (forall e, Some e ∈ elements ->
     layoutChange d e = d e /\ ~ g_width (d e) == 0 /\ ~ g_height (d e) == 0) ->
  (flip elements layoutChange duration (Some onComplete) d s).1.2 = []
  /\ runningAnimations (flip elements layoutChange duration (Some onComplete) d s).1.1
     = runningAnimations s
  /\ animations (flip elements layoutChange duration (Some onComplete) d s).1.1
     = animations s
  /\ completed (settle (flip elements layoutChange duration (Some onComplete) d s).1.1)
     = completed (settle s) ++ [onComplete]
  /\ pending (settle (flip elements layoutChange duration (Some onComplete) d s).1.1)
     = pending (settle s).
Proof.
  intros H. unfold flip. cbn [fst snd].
  rewrite flip_loop_unmoved.
  2:{ intros i e Hin. apply H. apply elem_of_lookup_imap in Hin as (j & x & Heq & Hl).
      injection Heq as -> ->. apply list_elem_of_lookup. exists j. exact Hl. }
  cbn [fst snd thenComplete runningAnimations animations].
  split; [reflexivity|]. split; [reflexivity|]. split; [reflexivity|].
  unfold settle. cbn [thenComplete pending completed animations].
  rewrite !filter_app, omap_app, app_assoc.
  split; [reflexivity|]. exact (app_nil_r _).
Qed.

(** C3 fails for an element of zero size, such as one that is not
    displayed: its First and Last geometries are equal (all zero, opacity
    1), yet [flip] starts an animation on it, since [0 / (0 || 1)] is 0,
    taken as a change of scale; [onComplete] is then not invoked by the
    next run of the promise jobs but waits for that animation. *)
Theorem flip_unmoved_zero_size_animates :
  flipFrames (mkGeometry 0 0 0 0 1) (mkGeometry 0 0 0 0 1)
  = Some (FlipFrames (0 - 0) (0 - 0) (0 / orNum 0 1) (0 / orNum 0 1) (orNum 1 1) (orNum 1 1))
  /\ (flip [Some 5%nat] (fun d => d) None (Some 9%nat)
           (fun _ => mkGeometry 0 0 0 0 1) (newAnimator None None)).1.2 = [0%nat]
  /\ hasState Running
       (animations (flip [Some 5%nat] (fun d => d) None (Some 9%nat)
                         (fun _ => mkGeometry 0 0 0 0 1) (newAnimator None None)).1.1)
       0 = true
  /\ completed (settle (flip [Some 5%nat] (fun d => d) None (Some 9%nat)
                             (fun _ => mkGeometry 0 0 0 0 1) (newAnimator None None)).1.1)
     = []
  /\ completed (settle (finish 0 (flip [Some 5%nat] (fun d => d) None (Some 9%nat)
                             (fun _ => mkGeometry 0 0 0 0 1) (newAnimator None None)).1.1))
     = [9%nat].
Proof.
  repeat split; vm_compute; reflexivity.
Qed.

End AnimatorFacts.

(** ** The filter controls *)

Module FilterControlsFacts.
Import Js JsFacts Filter FilterFacts FilterControls Samples.

Lemma lookup_assignField_eq (field : string) (values : list value) (fs : filters) :
  is_Some (lookupField field fs) ->
  lookupField field (assignField field values fs) = Some values.
Proof.
  induction fs as [|[k old] fs IH]; cbn [lookupField assignField]; intros [x Hx];
    [discriminate|].
  destruct (String.eqb k field) eqn:E; cbn [lookupField]; rewrite E; [reflexivity|].
  apply IH. exists x. exact Hx.
Qed.

Lemma lookup_assignField_ne (field other : string) (values : list value) (fs : filters) :
  other <> field ->
  lookupField other (assignField field values fs) = lookupField other fs.
Proof.
  intros Hne. induction fs as [|[k old] fs IH]; cbn [lookupField assignField]; [reflexivity|].
  destruct (String.eqb_spec k field) as [-> | Hk]; cbn [lookupField].
  - destruct (String.eqb_spec field other) as [E | _]; [congruence | reflexivity].
  - rewrite IH. reflexivity.
Qed.

Lemma assignField_keys (field : string) (values : list value) (fs : filters) :
  (assignField field values fs).*1 = fs.*1.
Proof.
  induction fs as [|[k old] fs IH]; cbn [assignField]; [reflexivity|].
  destruct (String.eqb k field); cbn [fmap list_fmap fst]; [reflexivity|].
  f_equal. exact IH.
Qed.

Lemma assignField_same (field : string) (values : list value) (fs : filters) :
  lookupField field fs = Some values -> assignField field values fs = fs.
Proof.
  induction fs as [|[k old] fs IH]; cbn [lookupField assignField]; [reflexivity|].
  destruct (String.eqb k field); [intros [= ->]; reflexivity|].
  intros H. rewrite IH by exact H. reflexivity.
Qed.

Lemma assignField_twice (field : string) (v1 v2 : list value) (fs : filters) :
  assignField field v2 (assignField field v1 fs) = assignField field v2 fs.
Proof.
  induction fs as [|[k old] fs IH]; cbn [assignField]; [reflexivity|].
  destruct (String.eqb k field) eqn:E; cbn [assignField]; rewrite E; [reflexivity|].
  rewrite IH. reflexivity.
Qed.

(** One box of the sidebar: for a field that is a key of the filter state,
    [handleFilterChange] succeeds, leaves the keys and the allow-lists of
    the other fields as they are, and makes the value a member of the
    field's allow-list exactly when the box is checked, every other value
    staying in or out as it was; an allow-list without duplicates stays
    so.  For a field that is no key it throws. *)
Theorem handleFilterChange_updates_one_list
    (field : string) (v : value) (checked : bool) (fs : filters) :
  (lookupField field fs = None -> handleFilterChange field v checked fs = None)
  /\ (forall values, lookupField field fs = Some values ->
        exists fs' values',
          handleFilterChange field v checked fs = Some fs'
          /\ fs'.*1 = fs.*1
          /\ lookupField field fs' = Some values'
          /\ (v ∈ values' <-> checked = true)
          /\ (forall x, x <> v -> (x ∈ values' <-> x ∈ values))
          /\ (NoDup values -> NoDup values')
          /\ (forall other, other <> field ->
                lookupField other fs' = lookupField other fs)).
Proof.
  split.
  - intros H. unfold handleFilterChange. rewrite H. reflexivity.
  - intros values Hl. unfold handleFilterChange, includes. rewrite Hl.
    assert (Hsome : is_Some (lookupField field fs)) by (rewrite Hl; eexists; reflexivity).
    destruct checked.
    + case_bool_decide as Hin; cbn [negb].
      * exists fs, values. repeat split; auto.
      * exists (assignField field (values ++ [v]) fs), (values ++ [v]).
        split; [reflexivity|]. split; [apply assignField_keys|].
        split; [apply lookup_assignField_eq; exact Hsome|].
        split; [split; [reflexivity | intros _; apply elem_of_app; right; left]|].
        split.
        { intros x Hx. rewrite elem_of_app, list_elem_of_singleton. tauto. }
        split.
        { intros Hnd. apply NoDup_app. split; [exact Hnd|].
          split; [|apply NoDup_singleton].
          intros x Hx Hx'. apply list_elem_of_singleton in Hx'. congruence. }
        intros other Hne. apply lookup_assignField_ne. exact Hne.
    + exists (assignField field (filter (fun x => x <> v) values) fs),
             (filter (fun x => x <> v) values).
      split; [reflexivity|]. split; [apply assignField_keys|].
      split; [apply lookup_assignField_eq; exact Hsome|].
      split.
      { rewrite list_elem_of_filter. split; [intros [H _]; contradiction | discriminate]. }
      split.
      { intros x Hx. rewrite list_elem_of_filter. tauto. }
      split; [apply NoDup_filter|].
      intros other Hne. apply lookup_assignField_ne. exact Hne.
Qed.

(** Checking a box whose value is not yet allowed and unchecking it again
    gives back the filter state exactly. *)
Theorem check_then_uncheck (field : string) (v : value) (fs : filters) (values : list value) :
  lookupField field fs = Some values ->
  v ∉ values ->
  exists fs',
    handleFilterChange field v true fs = Some fs'
    /\ handleFilterChange field v false fs' = Some fs.
Proof.
  intros Hl Hnot. unfold handleFilterChange at 1, includes. rewrite Hl.
  rewrite bool_decide_false by exact Hnot. cbn [negb].
  eexists. split; [reflexivity|].
  unfold handleFilterChange.
  rewrite lookup_assignField_eq by (rewrite Hl; eexists; reflexivity).
  rewrite assignField_twice, filter_app.
  assert (E1 : filter (fun x => x <> v) values = values).
  { clear Hl. induction values as [|y values IH]; [reflexivity|].
    rewrite filter_cons_True by (intros ->; apply Hnot; left).
    rewrite IH; [reflexivity|]. intros H. apply Hnot. right. exact H. }
  rewrite E1, filter_cons_False, filter_nil, app_nil_r by (intros H; apply H; reflexivity).
  rewrite (assignField_same _ _ _ Hl). reflexivity.
Qed.

Lemma check_then_uncheck_witness :
  exists fs',
    handleFilterChange "vertical" (Some "News"%string) true
      [("vertical"%string, [Some "Autos"%string]); ("size"%string, [])] = Some fs'
    /\ handleFilterChange "vertical" (Some "News"%string) false fs'
       = Some [("vertical"%string, [Some "Autos"%string]); ("size"%string, [])].
Proof.
  apply (check_then_uncheck "vertical" (Some "News"%string)
           [("vertical"%string, [Some "Autos"%string]); ("size"%string, [])]
           [Some "Autos"%string]).
  - reflexivity.
  - intros H. apply list_elem_of_singleton in H. discriminate.
Defined.

Lemma lookupField_split (field : string) (fs : filters) (values : list value) :
  lookupField field fs = Some values ->
  exists pre post,
    fs = pre ++ (field, values) :: post
    /\ forall vs, assignField field vs fs = pre ++ (field, vs) :: post.
Proof.
  induction fs as [|[k old] fs IH]; cbn [lookupField]; [discriminate|].
  destruct (String.eqb_spec k field) as [-> | Hne].
  - intros [= ->]. exists [], fs. split; [reflexivity|].
    intros vs. cbn [assignField]. rewrite String.eqb_refl. reflexivity.
  - intros H. destruct (IH H) as (pre & post & -> & Hassign).
    exists ((k, old) :: pre), post. split; [reflexivity|].
    intros vs. cbn [assignField].
    destruct (String.eqb_spec k field) as [E | _]; [contradiction|].
    rewrite Hassign. reflexivity.
Qed.

(** Membership of the filtered ads, without any assumption on the ids. *)
Lemma elem_of_filteredAds_by_id (fs : filters) (ads : list ad) (a : ad) :
  a ∈ filteredAds fs ads
  <-> a ∈ ads /\ exists b, b ∈ ads /\ matchesAd fs b = true /\ ad_id b = ad_id a.
Proof.
  unfold filteredAds. rewrite list_elem_of_filter, elem_of_matchingIds. tauto.
Qed.

Lemma filteredAds_mono (fs fs' : filters) (ads : list ad) :
  (forall a, matchesAd fs a = true -> matchesAd fs' a = true) ->
  filteredAds fs ads ⊆ filteredAds fs' ads.
Proof.
  intros H a. rewrite !elem_of_filteredAds_by_id.
  intros (Ha & b & Hb & Hm & Hid). split; [exact Ha|].
  exists b. split; [exact Hb|]. split; [apply H; exact Hm | exact Hid].
Qed.

(** What a checked box does to the visible ads: the first value checked
    for an attribute can only hide ads, a further value of an attribute
    that has one checked can only bring ads back. *)
Theorem checking_narrows_then_widens
    (field : string) (v : value) (fs : filters) (values : list value) (ads : list ad) :
  lookupField field fs = Some values ->
  exists fs',
    handleFilterChange field v true fs = Some fs'
    /\ (values = [] -> filteredAds fs' ads ⊆ filteredAds fs ads)
    /\ (values <> [] -> filteredAds fs ads ⊆ filteredAds fs' ads).
Proof.
  intros Hl. unfold handleFilterChange, includes. rewrite Hl.
  case_bool_decide as Hin; cbn [negb].
  { exists fs. split; [reflexivity|]. split; intros _ a Ha; exact Ha. }
  eexists. split; [reflexivity|].
  destruct (lookupField_split field fs values Hl) as (pre & post & -> & Hassign).
  rewrite Hassign.
  split; intros Hv; apply filteredAds_mono; intros a; rewrite !matchesAd_spec;
    rewrite !Forall_app, !Forall_cons; intros (Hpre & Hone & Hpost);
    (split; [exact Hpre|]); (split; [|exact Hpost]).
  - left. exact Hv.
  - destruct Hone as [Hnil | Hone]; [contradiction|].
    right. cbn [fst snd] in *. apply elem_of_app. left. exact Hone.
Qed.

Lemma checking_narrows_then_widens_witness :
  exists fs',
    handleFilterChange "vertical" (Some "News"%string) true
      [("vertical"%string, [Some "Autos"%string])] = Some fs'
    /\ filteredAds [("vertical"%string, [Some "Autos"%string])] [newsAd; autosAd]
       ⊆ filteredAds fs' [newsAd; autosAd].
Proof.
  destruct (checking_narrows_then_widens "vertical" (Some "News"%string)
              [("vertical"%string, [Some "Autos"%string])] [Some "Autos"%string]
              [newsAd; autosAd]) as (fs' & H1 & _ & H2).
  - reflexivity.
  - exists fs'. split; [exact H1|]. apply H2. discriminate.
Defined.

Lemma matchesAd_cleared (fs : filters) (a : ad) : matchesAd (clearAllFilters fs) a = true.
Proof.
  apply matchesAd_spec. unfold clearAllFilters. apply Forall_fmap, Forall_true.
  intros entry. left. reflexivity.
Qed.

Lemma filter_all {A : Type} (P : A -> Prop) `{forall x, Decision (P x)} (l : list A) :
  (forall x, x ∈ l -> P x) -> filter P l = l.
Proof.
  induction l as [|x l IH]; intros H'; [reflexivity|].
  rewrite filter_cons_True by (apply H'; left).
  rewrite IH; [reflexivity|]. intros y Hy. apply H'. right. exact Hy.
Qed.

(** [clearAllFilters] empties every allow-list and shows all the ads: that
    is also what [applyFilters] computes from the cleared filter state,
    for any collection, and the visible ads are then all the ads in sorted
    order. *)
Theorem cleared_filters_show_all
    (localeCompare : string -> string -> Z)
    (numberToString : Q -> string) (stringToNumber : string -> option Q)
    (fs : filters)
    (field : string) (ascending : bool) (ads : list ad) :
  (clearAllFilters fs).*1 = fs.*1
  /\ Forall (fun entry => entry.2 = []) (clearAllFilters fs)
  /\ filteredAds (clearAllFilters fs) ads = ads
  /\ visibleAds localeCompare numberToString stringToNumber
       (clearAllFilters fs) field ascending ads
     = sortBy (compareAds localeCompare numberToString stringToNumber field ascending) ads
  /\ visibleAds localeCompare numberToString stringToNumber
       (clearAllFilters fs) field ascending ads ≡ₚ ads.
Proof.
  assert (E : filteredAds (clearAllFilters fs) ads = ads).
  { unfold filteredAds. apply filter_all. intros a Ha.
    apply elem_of_matchingIds. exists a. split; [exact Ha|].
    split; [apply matchesAd_cleared | reflexivity]. }
  split.
  { unfold clearAllFilters. rewrite <- list_fmap_compose. reflexivity. }
  split.
  { unfold clearAllFilters. apply Forall_fmap, Forall_true. intros entry. reflexivity. }
  split; [exact E|]. unfold visibleAds. rewrite E.
  split; [reflexivity | apply sortBy_perm].
Qed.

(** *** Grouping *)

Lemma grouping_user_set (g : grouping) :
  groupingReachable g -> userSetGroup g = true -> currentGroupBy g <> ""%string.
Proof.
  induction 1 as [sel | v g _ IH | verticals g _ IH]; cbn.
  - discriminate.
  - destruct (String.eqb_spec v ""); [discriminate | intros _; assumption].
  - unfold autoGroup.
    destruct ((0 <? length verticals)%nat && String.eqb (currentGroupBy g) "");
      [intros _; discriminate|].
    destruct (userSetGroup g) eqn:Eu.
    + rewrite andb_false_r. intros _. apply IH. reflexivity.
    + destruct (_ && _); cbn; rewrite ?Eu; discriminate.
Qed.

(** A grouping the user picked in the select is never changed by the
    auto-grouping of [applyFilters]; and whenever a vertical is filtered
    on, [applyFilters] leaves some grouping on, so that the grouped layout
    is used. *)
Theorem applyFilters_keeps_user_grouping (g : grouping) (verticals : list value) :
  groupingReachable g ->
  (userSetGroup g = true -> autoGroup verticals g = g)
  /\ (verticals <> [] -> currentGroupBy (autoGroup verticals g) <> ""%string)
  /\ userSetGroup (autoGroup verticals g) = userSetGroup g.
Proof.
  intros Hr. split; [|split].
  - intros Hu. pose proof (grouping_user_set g Hr Hu) as Hne.
    unfold autoGroup. rewrite Hu, andb_false_r.
    destruct (String.eqb_spec (currentGroupBy g) ""); [contradiction|].
    rewrite andb_false_r. reflexivity.
  - intros Hv. unfold autoGroup.
    destruct verticals as [|x verticals]; [contradiction|].
    cbn [length Nat.ltb Nat.leb Nat.eqb andb].
    destruct (String.eqb_spec (currentGroupBy g) ""); cbn; [discriminate | assumption].
  - unfold autoGroup. destruct (_ && _); [reflexivity|]. destruct (_ && _); reflexivity.
Qed.

Lemma applyFilters_keeps_user_grouping_witness :
  autoGroup [] (selectGroup "size" (mkGrouping "" "" false))
  = selectGroup "size" (mkGrouping "" "" false).
Proof.
  apply (applyFilters_keeps_user_grouping
           (selectGroup "size" (mkGrouping "" "" false)) []).
  - apply grouping_select, grouping_init.
  - reflexivity.
Defined.

End FilterControlsFacts.

(** ** The order of the visible ads *)

Module SortFacts.
Import Js JsFacts Filter Samples.

Lemma Sorted_impl {A : Type} (R1 R2 : A -> A -> Prop) (l : list A) :
  (forall x y, R1 x y -> R2 x y) -> Sorted R1 l -> Sorted R2 l.
Proof.
  intros H. induction 1 as [|x l _ IH Hhd]; constructor; [exact IH|].
  destruct Hhd; constructor. apply H. assumption.
Qed.

(** The order that [sort] leaves, for a comparator that ranks one way or
    the other any two of the elements sorted: each element is in the list
    and is ranked at or before its successor. *)
Section SortedAmong.
Context {A : Type} (cmp : A -> A -> Z) (P : A -> Prop).
Hypothesis cmp_total : forall x y, P x -> P y -> (cmp x y <= 0)%Z \/ (cmp y x <= 0)%Z.

Definition rankedIn (x y : A) : Prop := P x /\ P y /\ (cmp x y <= 0)%Z.

Lemma insertBy_HdRel_in (y x : A) (l : list A) :
  rankedIn y x -> HdRel rankedIn y l -> HdRel rankedIn y (insertBy cmp x l).
Proof.
  intros Hyx Hl. destruct l as [|z l]; cbn [insertBy].
  - constructor. exact Hyx.
  - destruct (cmp x z <=? 0)%Z; constructor; [exact Hyx|].
    apply HdRel_inv in Hl. exact Hl.
Qed.

Lemma insertBy_sorted_in (x : A) (l : list A) :
  P x -> Forall P l -> Sorted rankedIn l -> Sorted rankedIn (insertBy cmp x l).
Proof.
  intros Hx. induction l as [|y l IH]; intros Hall Hs; cbn [insertBy].
  - repeat constructor.
  - apply Forall_cons in Hall as [Hy Hall].
    destruct (Z.leb_spec (cmp x y) 0) as [Hle | Hgt].
    + constructor; [exact Hs | constructor; repeat split; assumption].
    + apply Sorted_inv in Hs as [Hs Hhd].
      constructor; [apply IH; assumption|].
      apply insertBy_HdRel_in; [|exact Hhd].
      repeat split; try assumption.
      destruct (cmp_total y x Hy Hx) as [H | H]; [exact H | lia].
Qed.

Lemma sortBy_sorted_in (l : list A) : Forall P l -> Sorted rankedIn (sortBy cmp l).
Proof.
  induction l as [|x l IH]; intros Hall; [constructor|].
  apply Forall_cons in Hall as [Hx Hall].
  unfold sortBy in *. cbn [foldr]. apply insertBy_sorted_in; [exact Hx | | apply IH; exact Hall].
  apply Forall_forall. intros y Hy.
  apply (proj1 (Forall_forall P l) Hall).
  apply (proj1 (elem_of_sortBy cmp l y)). exact Hy.
Qed.
End SortedAmong.

Section Order.
Variable localeCompare : string -> string -> Z.
Variable numberToString : Q -> string.
Variable stringToNumber : string -> option Q.
Variable field : string.
Variable ascending : bool.

(** An ad whose value to sort by is a string, or is missing. *)
Definition textual (a : ad) : Prop := ad_num a field = None.

(** An ad whose value to sort by is a number other than 0 (which [|| '']
    would turn into the empty string). *)
Definition numeric (a : ad) : Prop :=
  exists q, ad_num a field = Some q /\ ~ (q == 0)%Q.

Lemma compare_textual (a b : ad) :
  textual a -> textual b ->
  compareAds localeCompare numberToString stringToNumber field ascending a b
  = Z.sgn (localeCompare (sortKey field a) (sortKey field b) * (if ascending then 1 else -1)).
Proof.
  unfold textual, compareAds, sortOperand. intros -> ->.
  cbn [compareValues]. destruct ascending; cbn [Qnum Qmult inject_Z];
    f_equal; lia.
Qed.

Lemma compare_numeric (a b : ad) (x y : Q) :
  ad_num a field = Some x -> ~ (x == 0)%Q -> ad_num b field = Some y -> ~ (y == 0)%Q ->
  (compareAds localeCompare numberToString stringToNumber field ascending a b <= 0)%Z
  <-> (if ascending then x <= y else y <= x)%Q.
Proof.
  intros Ha Hx Hb Hy. unfold compareAds, sortOperand. rewrite Ha, Hb.
  destruct (Qeq_bool x 0) eqn:Ex; [apply Qeq_bool_iff in Ex; contradiction|].
  destruct (Qeq_bool y 0) eqn:Ey; [apply Qeq_bool_iff in Ey; contradiction|].
  cbn [compareValues].
  assert (Hsgn : forall q : Q, (Z.sgn (Qnum q) <= 0)%Z <-> (q <= 0)%Q).
  { intros [n d]. unfold Qle. cbn [Qnum Qden]. lia. }
  rewrite Hsgn. destruct ascending; split; intros H; lra.
Qed.

(** [sortAds], on a field that holds strings (or nothing) in every
    filtered ad, leaves the ads in the order of these strings under a
    [localeCompare] that ranks any two strings one way or the other; on a
    field that holds a number other than 0 in every filtered ad, it leaves
    them in the order of these numbers; ascending or descending as
    selected.  It neither drops nor adds an ad. *)
Theorem visibleAds_in_order (fs : filters) (ads : list ad) :
  (forall x y, (localeCompare x y <= 0)%Z \/ (localeCompare y x <= 0)%Z) ->
  (forall x y, (0 <= localeCompare x y)%Z \/ (0 <= localeCompare y x)%Z) ->
  (Forall textual (filteredAds fs ads) ->
     Sorted (fun a b =>
               if ascending
               then (localeCompare (sortKey field a) (sortKey field b) <= 0)%Z
               else (0 <= localeCompare (sortKey field a) (sortKey field b))%Z)
            (visibleAds localeCompare numberToString stringToNumber fs field ascending ads))
  /\ (Forall numeric (filteredAds fs ads) ->
        Sorted (fun a b =>
                  exists x y, ad_num a field = Some x /\ ad_num b field = Some y
                              /\ if ascending then (x <= y)%Q else (y <= x)%Q)
               (visibleAds localeCompare numberToString stringToNumber
                  fs field ascending ads))
  /\ visibleAds localeCompare numberToString stringToNumber fs field ascending ads
     ≡ₚ filteredAds fs ads.
Proof.
  intros Hle Hge. split; [|split; [|apply sortBy_perm]].
  - intros Hall. unfold visibleAds.
    apply (Sorted_impl
             (rankedIn (compareAds localeCompare numberToString stringToNumber
                          field ascending) textual)).
    + intros a b (Ha & Hb & Hr). rewrite (compare_textual a b Ha Hb) in Hr.
      destruct ascending; lia.
    + apply sortBy_sorted_in; [|exact Hall].
      intros a b Ha Hb. rewrite (compare_textual a b Ha Hb), (compare_textual b a Hb Ha).
      destruct ascending.
      * destruct (Hle (sortKey field a) (sortKey field b)); lia.
      * destruct (Hge (sortKey field a) (sortKey field b)); lia.
  - intros Hall. unfold visibleAds.
    apply (Sorted_impl
             (rankedIn (compareAds localeCompare numberToString stringToNumber
                          field ascending) numeric)).
    + intros a b ((x & Ha & Hx) & (y & Hb & Hy) & Hr).
      exists x, y. split; [exact Ha|]. split; [exact Hb|].
      apply (compare_numeric a b x y Ha Hx Hb Hy). exact Hr.
    + apply sortBy_sorted_in; [|exact Hall].
      intros a b (x & Ha & Hx) (y & Hb & Hy).
      rewrite (compare_numeric a b x y Ha Hx Hb Hy), (compare_numeric b a y x Hb Hy Ha Hx).
      destruct ascending; destruct (Qlt_le_dec x y) as [H | H]; auto using Qlt_le_weak.
Qed.
End Order.

Lemma codeCompare_ranks (x y : string) :
  ((codeCompare x y <= 0)%Z \/ (codeCompare y x <= 0)%Z)
  /\ ((0 <= codeCompare x y)%Z \/ (0 <= codeCompare y x)%Z).
Proof.
  unfold codeCompare. rewrite (String.compare_antisym y x).
  destruct (String.compare x y); cbn [CompOpp]; lia.
Qed.

Lemma visibleAds_in_order_witness :
  Sorted (fun a b => (0 <= codeCompare (sortKey "vertical" a) (sortKey "vertical" b))%Z)
         (visibleAds codeCompare (fun _ => EmptyString) (fun _ => None)
            [] "vertical" false [newsAd; sportsAd; autosAd])
  /\ Sorted (fun a b =>
               exists x y, ad_num a "impressions" = Some x /\ ad_num b "impressions" = Some y
                           /\ (x <= y)%Q)
            (visibleAds codeCompare (fun _ => EmptyString) (fun _ => None)
               [] "impressions" true [adWith "1" 1200; adWith "2" 900]).
Proof.
  split.
  - apply (visibleAds_in_order codeCompare (fun _ => EmptyString) (fun _ => None)
             "vertical" false [] [newsAd; sportsAd; autosAd]).
    + intros x y. apply codeCompare_ranks.
    + intros x y. apply codeCompare_ranks.
    + repeat constructor.
  - apply (visibleAds_in_order codeCompare (fun _ => EmptyString) (fun _ => None)
             "impressions" true [] [adWith "1" 1200; adWith "2" 900]).
    + intros x y. apply codeCompare_ranks.
    + intros x y. apply codeCompare_ranks.
    + repeat constructor; eexists; (split; [reflexivity | discriminate]).
Defined.

End SortFacts.

(** ** The geometry of the uniform grid *)

Module GridGeometryFacts.
Import Num NumFacts Settings Grid GridFacts.
Local Open Scope Q_scope.

Lemma le_div_mul (x y k : Q) : 0 < k -> x <= y / k -> x * k <= y.
Proof.
  intros Hk H. apply Qle_trans with (y / k * k).
  - apply Qmult_le_compat_r; [exact H | apply Qlt_le_weak; exact Hk].
  - apply Qle_lteq. right. field. intros E. rewrite E in Hk. lra.
Qed.

Lemma ofNat_le (i n : nat) : (i <= n)%nat -> ofNat i <= ofNat n.
Proof. intros H. unfold ofNat. rewrite <- Zle_Qle. lia. Qed.

Lemma ofNat_lt_nat (i n : nat) : (i < n)%nat -> ofNat i < ofNat n.
Proof. intros H. unfold ofNat. rewrite <- Zlt_Qlt. lia. Qed.

Lemma ofNat_S (n : nat) : ofNat (S n) == ofNat n + 1.
Proof.
  unfold ofNat. rewrite Nat2Z.inj_succ. unfold Z.succ. rewrite inject_Z_plus. reflexivity.
Qed.

(** The search always ends with at least one column and a cell size of at
    least 30. *)
Lemma search_result_sane (N : nat) (cw ch : Q) :
  (1 <= bestCols (search N cw ch))%nat
  /\ 30 <= bestCellSize (search N cw ch)
  /\ (30 <= Qfloor (bestCellSize (search N cw ch)))%Z.
Proof.
  assert (H : (1 <= bestCols (search N cw ch))%nat /\ 30 <= bestCellSize (search N cw ch)).
  { destruct (searchUpTo_optimum N cw ch N)
      as [[_ Hinit] | (Hrange & Hb & _ & Hcell & _)]; fold (search N cw ch) in *.
    - rewrite Hinit. cbn. split; [lia | lra].
    - split; [lia|]. rewrite Hcell. unfold admissible in Hb.
      rewrite negb_true_iff, orb_false_iff in Hb. destruct Hb as [H1 _].
      apply Qltb_ge in H1. exact H1. }
  destruct H as [H1 H2]. split; [exact H1|]. split; [exact H2|].
  change 30%Z with (Qfloor 30). apply Qfloor_resp_le. exact H2.
Qed.

(** Rows of the grid: the row of an index below [N] is below
    [ceil(N / cols)]. *)
Lemma row_below_rows (N i cols : nat) :
  (1 <= cols)%nat -> (i < N)%nat ->
  ofNat (i / cols) + 1 <= inject_Z (Qceiling (ofNat N / ofNat cols)).
Proof.
  intros Hc Hi.
  assert (Hlt : ofNat (i / cols) < inject_Z (Qceiling (ofNat N / ofNat cols))).
  { apply Qlt_le_trans with (ofNat N / ofNat cols); [|apply Qle_ceiling].
    apply Qlt_shift_div_l; [apply ofNat_pos; exact Hc|].
    apply Qle_lt_trans with (ofNat i); [|apply ofNat_lt_nat].
    - unfold ofNat. rewrite <- inject_Z_mult, <- Zle_Qle, <- Nat2Z.inj_mul.
      apply Nat2Z.inj_le. rewrite Nat.mul_comm. apply Nat.Div0.mul_div_le.
    - exact Hi. }
  unfold ofNat in *. change 1 with (inject_Z 1).
  rewrite <- inject_Z_plus, <- Zle_Qle. rewrite <- Zlt_Qlt in Hlt. lia.
Qed.

Lemma grid_placement (N : nat) (cw ch : Q) (l : layout) (p : placement) :
  applyGridLayoutIn N cw ch = Some l -> In p (placements l) ->
  exists i, (i < N)%nat
    /\ p_index p = i
    /\ p_size p = Qfloor (bestCellSize (search N cw ch))
    /\ p_left p
       = Qmax 0 ((cw - (ofNat (bestCols (search N cw ch))
                        * inject_Z (Qfloor (bestCellSize (search N cw ch)))
                        + (ofNat (bestCols (search N cw ch)) - 1) * itemGap)) / 2)
         + ofNat (i mod bestCols (search N cw ch))
           * (inject_Z (Qfloor (bestCellSize (search N cw ch))) + itemGap)
    /\ p_top p
       = Qmax 0 ((ch - (inject_Z (bestRows (search N cw ch))
                        * inject_Z (Qfloor (bestCellSize (search N cw ch)))
                        + (inject_Z (bestRows (search N cw ch)) - 1) * itemGap)) / 2)
         + ofNat (i / bestCols (search N cw ch))
           * (inject_Z (Qfloor (bestCellSize (search N cw ch))) + itemGap).
Proof.
  unfold applyGridLayoutIn. destruct (Nat.eqb N 0); [discriminate|].
  intros [= <-]. cbn [placements]. intros Hin.
  apply in_map_iff in Hin as (i & <- & Hi). apply in_seq in Hi.
  exists i. split; [lia|]. repeat split; reflexivity.
Qed.

(** Whenever some column count is admissible, the grid that is laid out
    fits the container: every item lies within the container's inner
    width and height, and its size is between 30 and 200. *)
Theorem grid_items_inside_container (N : nat) (cw ch : Q) :
  (exists c, (1 <= c <= N)%nat /\ admissible N cw ch c = true) ->
  exists l,
    applyGridLayoutIn N cw ch = Some l
    /\ forall p, In p (placements l) ->
         0 <= p_left p
         /\ p_left p + inject_Z (p_size p) <= cw
         /\ 0 <= p_top p
         /\ p_top p + inject_Z (p_size p) <= ch
         /\ (30 <= p_size p <= 200)%Z.
Proof.
  intros (c0 & Hc0 & Hadm0).
  destruct (searchUpTo_optimum N cw ch N)
    as [[Hnone _] | (Hrange & Hb & Hrows & Hcell & _)]; fold (search N cw ch) in *.
  { rewrite Hnone in Hadm0 by exact Hc0. discriminate. }
  destruct (applyGridLayoutIn N cw ch) as [l|] eqn:El.
  2:{ unfold applyGridLayoutIn in El. destruct (Nat.eqb_spec N 0); [lia | discriminate]. }
  exists l. split; [reflexivity|]. intros p Hp.
  destruct (grid_placement N cw ch l p El Hp) as (i & Hi & _ & Hsize & Hleft & Htop).
  rewrite Hleft, Htop, Hsize. clear Hleft Htop Hsize Hp El.
  set (b := search N cw ch) in *. set (c := bestCols b) in *.
  set (s := inject_Z (Qfloor (bestCellSize b))).
  (* the cell size *)
  assert (Hs30 : 30 <= s).
  { subst s. change 30 with (inject_Z 30). rewrite <- Zle_Qle.
    apply (search_result_sane N cw ch). }
  assert (Hsle : s <= bestCellSize b) by apply Qfloor_le.
  assert (Hs200 : (Qfloor (bestCellSize b) <= 200)%Z).
  { change 200%Z with (Qfloor 200). apply Qfloor_resp_le.
    unfold admissible in Hb. rewrite negb_true_iff, orb_false_iff in Hb.
    destruct Hb as [_ H2]. apply Qltb_ge in H2. rewrite Hcell. exact H2. }
  (* columns *)
  assert (HC : 0 < ofNat c) by (apply ofNat_pos; lia).
  assert (Hwidth : s * ofNat c <= cw - (ofNat c - 1) * itemGap).
  { apply le_div_mul; [exact HC|].
    apply Qle_trans with (bestCellSize b); [exact Hsle|].
    rewrite Hcell. apply Q.le_min_l. }
  assert (Hm : ofNat (i mod c) + 1 <= ofNat c).
  { rewrite <- ofNat_S. apply ofNat_le.
    pose proof (Nat.mod_upper_bound i c ltac:(lia)). lia. }
  assert (Hm0 : 0 <= ofNat (i mod c)).
  { unfold ofNat. change 0 with (inject_Z 0). rewrite <- Zle_Qle. lia. }
  (* rows *)
  pose proof (row_below_rows N i c ltac:(lia) Hi) as Hr. fold (rowsOf N c) in Hr.
  rewrite <- Hrows in Hr.
  assert (Hr0 : 0 <= ofNat (i / c)).
  { unfold ofNat. change 0 with (inject_Z 0). rewrite <- Zle_Qle. lia. }
  assert (HR : 0 < inject_Z (bestRows b)) by lra.
  assert (Hheight : s * inject_Z (bestRows b)
                    <= ch - (inject_Z (bestRows b) - 1) * itemGap).
  { apply le_div_mul; [exact HR|].
    apply Qle_trans with (bestCellSize b); [exact Hsle|].
    rewrite Hcell, Hrows. apply Q.le_min_r. }
  unfold itemGap in *.
  set (hx := (cw - (ofNat c * s + (ofNat c - 1) * 4)) / 2).
  set (hy := (ch - (inject_Z (bestRows b) * s + (inject_Z (bestRows b) - 1) * 4)) / 2).
  assert (Hhx : hx * 2 == cw - (ofNat c * s + (ofNat c - 1) * 4)) by (subst hx; field).
  assert (Hhy : hy * 2 == ch - (inject_Z (bestRows b) * s
                                + (inject_Z (bestRows b) - 1) * 4)) by (subst hy; field).
  assert (Hox : Qmax 0 hx == hx) by (apply Q.max_r; lra).
  assert (Hoy : Qmax 0 hy == hy) by (apply Q.max_r; lra).
  assert (Hcol : ofNat (i mod c) * (s + 4) <= (ofNat c - 1) * (s + 4)).
  { apply Qmult_le_compat_r; lra. }
  assert (Hrow : ofNat (i / c) * (s + 4) <= (inject_Z (bestRows b) - 1) * (s + 4)).
  { apply Qmult_le_compat_r; lra. }
  assert (Hcol0 : 0 <= ofNat (i mod c) * (s + 4)) by (apply Qmult_le_0_compat; lra).
  assert (Hrow0 : 0 <= ofNat (i / c) * (s + 4)) by (apply Qmult_le_0_compat; lra).
  split; [lra|]. split; [lra|]. split; [lra|]. split; [lra|].
  split; [|exact Hs200].
  apply (search_result_sane N cw ch).
Qed.

Lemma grid_items_inside_container_witness :
  exists l,
    applyGridLayoutIn 12 400 300 = Some l
    /\ forall p, In p (placements l) ->
         0 <= p_left p
         /\ p_left p + inject_Z (p_size p) <= 400
         /\ 0 <= p_top p
         /\ p_top p + inject_Z (p_size p) <= 300
         /\ (30 <= p_size p <= 200)%Z.
Proof.
  apply (grid_items_inside_container 12 400 300).
  exists 4%nat. split; [lia | vm_compute; reflexivity].
Defined.

(** Two items of the grid never overlap, in any container, fallback
    included: they are at least a cell and a gap apart, horizontally or
    vertically. *)
Theorem grid_items_do_not_overlap (N : nat) (cw ch : Q) (l : layout) (p q : placement) :
  applyGridLayoutIn N cw ch = Some l ->
  In p (placements l) -> In q (placements l) ->
  p_index p <> p_index q ->
  p_size p = p_size q
  /\ (p_left p + inject_Z (p_size p) + itemGap <= p_left q
      \/ p_left q + inject_Z (p_size p) + itemGap <= p_left p
      \/ p_top p + inject_Z (p_size p) + itemGap <= p_top q
      \/ p_top q + inject_Z (p_size p) + itemGap <= p_top p).
Proof.
  intros El Hp Hq Hne.
  destruct (grid_placement N cw ch l p El Hp) as (i & Hi & Hpi & Hsize & Hleft & Htop).
  destruct (grid_placement N cw ch l q El Hq) as (j & Hj & Hqj & Hsize' & Hleft' & Htop').
  rewrite Hpi, Hqj in Hne.
  rewrite Hleft, Htop, Hleft', Htop', Hsize, Hsize'.
  split; [reflexivity|].
  destruct (search_result_sane N cw ch) as (Hc & _ & Hs).
  set (c := bestCols (search N cw ch)) in *.
  set (s := inject_Z (Qfloor (bestCellSize (search N cw ch)))).
  assert (Hs30 : 30 <= s).
  { subst s. change 30 with (inject_Z 30). rewrite <- Zle_Qle. exact Hs. }
  generalize (Qmax 0 ((cw - (ofNat c * s + (ofNat c - 1) * itemGap)) / 2)).
  generalize (Qmax 0 ((ch - (inject_Z (bestRows (search N cw ch)) * s
                             + (inject_Z (bestRows (search N cw ch)) - 1) * itemGap)) / 2)).
  intros oy ox. unfold itemGap.
  assert (Hstep : forall a b : nat, (a < b)%nat ->
                    ox + ofNat a * (s + 4) + s + 4 <= ox + ofNat b * (s + 4)
                    /\ oy + ofNat a * (s + 4) + s + 4 <= oy + ofNat b * (s + 4)).
  { intros a b Hab.
    assert (H1 : ofNat a + 1 <= ofNat b) by (rewrite <- ofNat_S; apply ofNat_le; lia).
    assert (H2 : 0 <= (ofNat b - (ofNat a + 1)) * (s + 4))
      by (apply Qmult_le_0_compat; lra).
    split; lra. }
  assert (Hcases : (i mod c < j mod c \/ j mod c < i mod c
                    \/ i / c < j / c \/ j / c < i / c)%nat).
  { destruct (Nat.lt_total (i mod c) (j mod c)) as [H | [H | H]]; [auto | | auto].
    destruct (Nat.lt_total (i / c) (j / c)) as [H' | [H' | H']]; [auto | | auto].
    exfalso. apply Hne.
    rewrite (Nat.div_mod_eq i c), (Nat.div_mod_eq j c), H, H'. reflexivity. }
  destruct Hcases as [H | [H | [H | H]]].
  - left. apply (Hstep _ _ H).
  - right. left. apply (Hstep _ _ H).
  - right. right. left. apply (Hstep _ _ H).
  - right. right. right. apply (Hstep _ _ H).
Qed.

Lemma grid_items_do_not_overlap_witness :
  exists l p q,
    applyGridLayoutIn 2 400 300 = Some l
    /\ nth_error (placements l) 0 = Some p
    /\ nth_error (placements l) 1 = Some q
    /\ (p_left p + inject_Z (p_size p) + itemGap <= p_left q
        \/ p_left q + inject_Z (p_size p) + itemGap <= p_left p
        \/ p_top p + inject_Z (p_size p) + itemGap <= p_top q
        \/ p_top q + inject_Z (p_size p) + itemGap <= p_top p).
Proof.
  eexists. eexists. eexists.
  split; [vm_compute; reflexivity|].
  split; [vm_compute; reflexivity|].
  split; [vm_compute; reflexivity|].
  refine (proj2 (grid_items_do_not_overlap 2 400 300 _ _ _ _ _ _ _)).
  - vm_compute. reflexivity.
  - left. reflexivity.
  - right. left. reflexivity.
  - cbn. discriminate.
Defined.

End GridGeometryFacts.

(** ** The wrapper encloses the items *)

Module WrapperFacts.
Import Num NumFacts Settings Grid GridFacts GridGeometryFacts Wrapper.
Local Open Scope Q_scope.

Lemma maxima_fold (items : list itemRect) (m : Q * Q) :
  fold_left (fun (m : Q * Q) item =>
               (Qmax m.1 (r_left item + r_width item),
                Qmax m.2 (r_top item + r_height item))) items m
  = (fold_left (fun x item => Qmax x (r_left item + r_width item)) items m.1,
     fold_left (fun y item => Qmax y (r_top item + r_height item)) items m.2).
Proof.
  revert m. induction items as [|item items IH]; intros [x y]; cbn [fold_left fst snd];
    [reflexivity|].
  rewrite IH. reflexivity.
Qed.

Lemma fold_max_bounds {A : Type} (f : A -> Q) (l : list A) (init : Q) :
  init <= fold_left (fun m x => Qmax m (f x)) l init
  /\ (forall x, In x l -> f x <= fold_left (fun m x => Qmax m (f x)) l init)
  /\ (fold_left (fun m x => Qmax m (f x)) l init == init
      \/ exists x, In x l /\ fold_left (fun m x => Qmax m (f x)) l init == f x).
Proof.
  revert init. induction l as [|x l IH]; intros init; cbn [fold_left].
  - split; [lra|]. split; [intros x []|]. left. reflexivity.
  - destruct (IH (Qmax init (f x))) as (H1 & H2 & H3).
    pose proof (Q.le_max_l init (f x)) as Hl.
    pose proof (Q.le_max_r init (f x)) as Hr.
    split; [lra|]. split.
    + intros y [<- | Hy]; [lra | apply H2; exact Hy].
    + destruct H3 as [H3 | (y & Hy & H3)].
      * destruct (Q.max_spec init (f x)) as [[_ E] | [_ E]].
        -- right. exists x. split; [left; reflexivity | exact (Qeq_trans _ _ _ H3 E)].
        -- left. exact (Qeq_trans _ _ _ H3 E).
      * right. exists y. split; [right; exact Hy | exact H3].
Qed.

(** [updateContainerSize] does nothing without a visible element;
    otherwise the wrapper it sizes reaches [padding] beyond the right edge
    of every visible element and [padding + 30] beyond every bottom edge,
    no further than the outermost element requires, and never below
    [padding] by [padding + 30]. *)
Theorem updateContainerSize_encloses (items : list itemRect) :
  (items = [] -> updateContainerSize items = None)
  /\ (items <> [] ->
        exists w h,
          updateContainerSize items = Some (w, h)
          /\ padding <= w /\ padding + 30 <= h
          /\ (forall item, In item items ->
                r_left item + r_width item + padding <= w
                /\ r_top item + r_height item + padding + 30 <= h)
          /\ (w == padding
              \/ exists item, In item items /\ w == r_left item + r_width item + padding)
          /\ (h == padding + 30
              \/ exists item, In item items
                   /\ h == r_top item + r_height item + padding + 30)).
Proof.
  split; [intros ->; reflexivity|].
  intros Hne. unfold updateContainerSize.
  assert (Hlen : Nat.eqb (length items) 0 = false)
    by (destruct items; [contradiction | reflexivity]).
  rewrite Hlen, maxima_fold. cbn [fst snd].
  destruct (fold_max_bounds (fun item => r_left item + r_width item) items 0)
    as (Hx0 & Hx & Hxa).
  destruct (fold_max_bounds (fun item => r_top item + r_height item) items 0)
    as (Hy0 & Hy & Hya).
  eexists. eexists. split; [reflexivity|].
  split; [lra|]. split; [lra|]. split.
  - intros item Hin. specialize (Hx item Hin). specialize (Hy item Hin). cbn beta in *.
    split; lra.
  - split.
    + destruct Hxa as [H | (item & Hin & H)].
      * left. rewrite H. ring.
      * right. exists item. split; [exact Hin|]. rewrite H. reflexivity.
    + destruct Hya as [H | (item & Hin & H)].
      * left. rewrite H. ring.
      * right. exists item. split; [exact Hin|]. rewrite H. reflexivity.
Qed.

Lemma fallback_search (N : nat) (cw ch : Q) :
  (forall c, (1 <= c <= N)%nat -> admissible N cw ch c = false) ->
  search N cw ch = initBest.
Proof.
  intros Hnone.
  destruct (searchUpTo_optimum N cw ch N) as [[_ H] | (Hr & Hb & _)]; [exact H|].
  fold (search N cw ch) in *. rewrite Hnone in Hb by lia. discriminate.
Qed.

(** In the fallback (no admissible column count) with two items or more,
    the wrapper height that [applyGridLayout] writes counts one row only
    and ends above the bottom of the last item; the [updateContainerSize]
    that [applyLayout] runs next gives a wrapper that reaches below every
    item. *)
Theorem fallback_height_repaired (N : nat) (cw ch : Q) :
  (2 <= N)%nat ->
  (forall c, (1 <= c <= N)%nat -> admissible N cw ch c = false) ->
  exists l w h,
    applyGridLayoutIn N cw ch = Some l
    /\ (exists p, In p (placements l)
          /\ wrapperHeight l < p_top p + inject_Z (p_size p))
    /\ updateContainerSize (map rectOf (placements l)) = Some (w, h)
    /\ forall p, In p (placements l) ->
         p_top p + inject_Z (p_size p) + padding + 30 <= h.
Proof.
  intros HN Hnone. pose proof (fallback_search N cw ch Hnone) as Hs.
  destruct (applyGridLayoutIn N cw ch) as [l|] eqn:El.
  2:{ unfold applyGridLayoutIn in El. destruct (Nat.eqb_spec N 0); [lia | discriminate]. }
  assert (Hlen : length (placements l) = N).
  { unfold applyGridLayoutIn in El. destruct (Nat.eqb N 0); [discriminate|].
    injection El as <-. cbn [placements]. rewrite length_map, length_seq. reflexivity. }
  destruct (updateContainerSize_encloses (map rectOf (placements l))) as [_ Hsome].
  destruct Hsome as (w & h & Hu & _ & _ & Hall & _).
  { intros E. apply (f_equal (@length _)) in E. rewrite length_map, Hlen in E.
    cbn in E. lia. }
  exists l, w, h. split; [reflexivity|]. split; [|split; [exact Hu|]].
  - (* the second item already ends below the height written *)
    assert (Hin : In (mkPlacement 1
                        (Qmax 0 ((cw - (ofNat 1 * inject_Z (Qfloor 60)
                                        + (ofNat 1 - 1) * itemGap)) / 2)
                         + ofNat (1 mod 1) * (inject_Z (Qfloor 60) + itemGap))
                        (Qmax 0 ((ch - (inject_Z 1 * inject_Z (Qfloor 60)
                                        + (inject_Z 1 - 1) * itemGap)) / 2)
                         + ofNat (1 / 1) * (inject_Z (Qfloor 60) + itemGap))
                        (Qfloor 60))
                   (placements l)).
    { unfold applyGridLayoutIn in El. destruct (Nat.eqb N 0); [discriminate|].
      injection El as <-. cbn [placements]. rewrite Hs. cbn [bestCols bestRows bestCellSize initBest].
      apply in_map_iff. exists 1%nat. split; [reflexivity|]. apply in_seq. lia. }
    eexists. split; [exact Hin|]. cbn [p_top p_size].
    unfold applyGridLayoutIn in El. destruct (Nat.eqb N 0); [discriminate|].
    injection El as <-. cbn [wrapperHeight]. rewrite Hs.
    cbn [bestCols bestRows bestCellSize initBest].
    generalize (Qmax 0 ((ch - (inject_Z 1 * inject_Z (Qfloor 60)
                               + (inject_Z 1 - 1) * itemGap)) / 2)).
    intros oy. change (inject_Z (Qfloor 60)) with 60. change (inject_Z 1) with 1.
    change (ofNat (1 / 1)) with 1. unfold itemGap, padding. lra.
  - intros p Hp.
    destruct (Hall (rectOf p)) as [_ H]; [apply in_map; exact Hp|].
    exact H.
Qed.

Lemma fallback_height_repaired_witness :
  exists l w h,
    applyGridLayoutIn 2 1000 1000 = Some l
    /\ (exists p, In p (placements l)
          /\ wrapperHeight l < p_top p + inject_Z (p_size p))
    /\ updateContainerSize (map rectOf (placements l)) = Some (w, h)
    /\ forall p, In p (placements l) ->
         p_top p + inject_Z (p_size p) + padding + 30 <= h.
Proof.
  apply (fallback_height_repaired 2 1000 1000).
  - lia.
  - intros c Hc. assert (c = 1%nat \/ c = 2%nat) as [-> | ->] by lia;
      vm_compute; reflexivity.
Defined.

End WrapperFacts.

(** ** Blocks and slots of the grouped layout *)

Module GroupedSlotsFacts.
Import Num NumFacts Settings Js JsFacts Filter Grouped GroupedFacts Samples.
Local Open Scope Q_scope.

(** The width of a block, against the width of its slot. *)
Lemma blockWidth_le_slot (cw : Z) :
  (50 <= cw)%Z ->
  inject_Z (Z.max 1 (Qfloor ((inject_Z cw - blockGap) / (cellSize + itemGap))))
  * (cellSize + itemGap) - itemGap <= inject_Z cw.
Proof.
  intros Hcw. rewrite Zle_Qle in Hcw. change (inject_Z 50) with 50 in Hcw.
  unfold cellSize, baseHeight, itemGap, blockGap.
  destruct (Z.max_spec 1 (Qfloor ((inject_Z cw - 60) / (50 + 4)))) as [[_ ->] | [_ ->]].
  - pose proof (Qfloor_le ((inject_Z cw - 60) / (50 + 4))) as Hf.
    assert (H : inject_Z (Qfloor ((inject_Z cw - 60) / (50 + 4))) * (50 + 4)
                <= inject_Z cw - 60).
    { apply Qle_trans with ((inject_Z cw - 60) / (50 + 4) * (50 + 4)).
      - apply Qmult_le_compat_r; [exact Hf | lra].
      - apply Qle_lteq. right. field. }
    lra.
  - change (inject_Z 1) with 1. lra.
Qed.

(** One block in its slot. *)
Lemma placeGroup_in_slot (shown : ad -> bool) (cw : Z) (msh : Q) (i : nat)
    (g : string * list ad) :
  (50 <= cw)%Z ->
  ofNat i * inject_Z cw <= blockX (placeGroup shown cw msh i g)
  /\ blockX (placeGroup shown cw msh i g) + blockWidth (placeGroup shown cw msh i g)
     <= (ofNat i + 1) * inject_Z cw
  /\ (forall s, s ∈ items (placeGroup shown cw msh i g) ->
        blockX (placeGroup shown cw msh i g) <= s_left s
        /\ s_left s + s_width s
           <= blockX (placeGroup shown cw msh i g)
              + blockWidth (placeGroup shown cw msh i g))
  /\ ((120 <= cw)%Z ->
        ofNat i * inject_Z cw <= labelLeft (placeGroup shown cw msh i g)
        /\ labelLeft (placeGroup shown cw msh i g) + 120 <= (ofNat i + 1) * inject_Z cw).
Proof.
  intros Hcw.
  assert (Hc : (ofNat i + (1 # 2)) * inject_Z cw * 2
               == ofNat i * inject_Z cw * 2 + inject_Z cw) by ring.
  unfold placeGroup. cbv beta iota zeta delta [items blockX blockWidth labelLeft].
  pose proof (blockWidth_le_slot cw Hcw) as Hw.
  set (c := Z.max 1 (Qfloor ((inject_Z cw - blockGap) / (cellSize + itemGap)))) in *.
  set (bw := inject_Z c * (cellSize + itemGap) - itemGap) in *.
  assert (Hh : bw / 2 * 2 == bw) by field.
  generalize dependent (bw / 2). intros hw Hh.
  split; [lra|]. split; [lra|]. split.
  - intros s. rewrite list_elem_of_omap. intros ([k a] & Hin & Hs).
    apply elem_of_lookup_imap in Hin as (k' & a' & Heq & _).
    injection Heq as -> ->.
    destruct (shown a'); [|discriminate]. injection Hs as <-.
    unfold styleAt. cbv beta iota zeta delta [s_left s_width].
    assert (Hc1 : (1 <= c)%Z) by (subst c; lia).
    pose proof (Z.mod_pos_bound (Z.of_nat k') c ltac:(lia)) as [Hm0 Hm1].
    assert (Hq0 : 0 <= inject_Z (Z.of_nat k' mod c)).
    { change 0 with (inject_Z 0). rewrite <- Zle_Qle. exact Hm0. }
    assert (Hq1 : inject_Z (Z.of_nat k' mod c) + 1 <= inject_Z c).
    { change 1 with (inject_Z 1). rewrite <- inject_Z_plus, <- Zle_Qle. lia. }
    subst bw. unfold cellSize, baseHeight, itemGap in *. split; lra.
  - intros H120. rewrite Zle_Qle in H120. change (inject_Z 120) with 120 in H120.
    split; lra.
Qed.

Section Slots.
Variable localeCompare : string -> string -> Z.
Variable shown : ad -> bool.
Variable groupBy : string.
Variable ads : list ad.
Variable clientWidth : Q.

Local Abbreviation L := (applyGroupedLayout localeCompare shown groupBy ads clientWidth).

Lemma lookup_blocks (i : nat) (b : block) :
  blocks L !! i = Some b ->
  exists g, b = placeGroup shown (columnWidth L) (maxStackHeight L) i g.
Proof.
  unfold applyGroupedLayout. cbn [blocks columnWidth maxStackHeight].
  rewrite list_lookup_imap.
  destruct (sortedGroups localeCompare groupBy ads !! i) as [g|]; [|discriminate].
  intros [= <-]. exists g. reflexivity.
Qed.

(** When the slots are at least one cell wide (50), every block lies
    within the slot of its group, and every item within its block: blocks
    of different groups never overlap.  When the slots are at least 120
    wide, the labels lie within their slots too. *)
Theorem grouped_blocks_within_slots :
  (50 <= columnWidth L)%Z ->
  (forall i b, blocks L !! i = Some b ->
     ofNat i * inject_Z (columnWidth L) <= blockX b
     /\ blockX b + blockWidth b <= (ofNat i + 1) * inject_Z (columnWidth L)
     /\ (forall s, s ∈ items b ->
           blockX b <= s_left s /\ s_left s + s_width s <= blockX b + blockWidth b)
     /\ ((120 <= columnWidth L)%Z ->
           ofNat i * inject_Z (columnWidth L) <= labelLeft b
           /\ labelLeft b + 120 <= (ofNat i + 1) * inject_Z (columnWidth L)))
  /\ (forall i j bi bj, (i < j)%nat ->
        blocks L !! i = Some bi -> blocks L !! j = Some bj ->
        blockX bi + blockWidth bi <= blockX bj).
Proof.
  intros Hcw. split.
  - intros i b Hb. destruct (lookup_blocks i b Hb) as [g ->].
    apply placeGroup_in_slot. exact Hcw.
  - intros i j bi bj Hij Hi Hj.
    destruct (lookup_blocks i bi Hi) as [gi ->].
    destruct (lookup_blocks j bj Hj) as [gj ->].
    destruct (placeGroup_in_slot shown (columnWidth L) (maxStackHeight L) i gi Hcw)
      as (_ & H1 & _).
    destruct (placeGroup_in_slot shown (columnWidth L) (maxStackHeight L) j gj Hcw)
      as (H2 & _).
    apply Qle_trans with ((ofNat i + 1) * inject_Z (columnWidth L)); [exact H1|].
    apply Qle_trans with (ofNat j * inject_Z (columnWidth L)); [|exact H2].
    apply Qmult_le_compat_r.
    + rewrite <- GridGeometryFacts.ofNat_S. apply GridGeometryFacts.ofNat_le. lia.
    + change 0 with (inject_Z 0). rewrite <- Zle_Qle. lia.
Qed.

End Slots.

Lemma grouped_blocks_within_slots_witness :
  exists bi bj,
    blocks (applyGroupedLayout codeCompare (fun _ => true) "vertical"
              [newsAd; sportsAd; autosAd] 1040) !! 0%nat = Some bi
    /\ blocks (applyGroupedLayout codeCompare (fun _ => true) "vertical"
                 [newsAd; sportsAd; autosAd] 1040) !! 1%nat = Some bj
    /\ blockX bi + blockWidth bi <= blockX bj.
Proof.
  eexists. eexists.
  split; [vm_compute; reflexivity|]. split; [vm_compute; reflexivity|].
  refine (proj2 (grouped_blocks_within_slots codeCompare (fun _ => true) "vertical"
                   [newsAd; sportsAd; autosAd] 1040 _) 0%nat 1%nat _ _ _ _ _).
  - vm_compute. discriminate.
  - lia.
  - vm_compute. reflexivity.
  - vm_compute. reflexivity.
Defined.

End GroupedSlotsFacts.

(** ** The detail panel and the item helpers *)

Module DetailsFacts.
Import Num NumFacts Settings Filter Details Samples.
Local Open Scope Q_scope.

(** [renderStars] never throws and always gives five glyphs: the rating,
    clamped to 0..5, in filled stars, then hollow stars. *)
Theorem renderStars_five (parsed : option Z) :
  exists k,
    (k <= 5)%nat
    /\ Z.of_nat k = Z.min 5 (Z.max 0 (default 0%Z parsed))
    /\ renderStars parsed
       = Some (replicate k FilledStar ++ replicate (5 - k) HollowStar)
    /\ forall stars, renderStars parsed = Some stars -> length stars = 5%nat.
Proof.
  set (r := match parsed with
            | Some z => if (z =? 0)%Z then 0%Z else z
            | None => 0%Z
            end).
  assert (Hr : r = default 0%Z parsed).
  { subst r. destruct parsed as [z|]; [|reflexivity].
    destruct (Z.eqb_spec z 0); [subst; reflexivity | reflexivity]. }
  assert (Hrender : renderStars parsed
                    = Some (replicate (Z.to_nat (Z.min 5 (Z.max 0 r))) FilledStar
                            ++ replicate (5 - Z.to_nat (Z.min 5 (Z.max 0 r))) HollowStar)).
  { unfold renderStars. fold r. unfold repeatStar.
    destruct (Z.ltb_spec (Z.min 5 (Z.max 0 r)) 0) as [H | _]; [lia|].
    rewrite length_replicate.
    destruct (Z.ltb_spec (5 - Z.of_nat (Z.to_nat (Z.min 5 (Z.max 0 r)))) 0) as [H | _]; [lia|].
    do 3 f_equal. lia. }
  exists (Z.to_nat (Z.min 5 (Z.max 0 r))).
  split; [lia|]. split; [rewrite <- Hr; lia|]. split; [exact Hrender|].
  intros stars. rewrite Hrender. intros [= <-].
  rewrite length_app, !length_replicate. lia.
Qed.

(** *** Navigation *)

Lemma findIndex_range (id : string) (ads : list ad) :
  (findIndex id ads = -1 \/ 0 <= findIndex id ads < Z.of_nat (length ads))%Z.
Proof.
  induction ads as [|a ads IH]; cbn [findIndex length]; [left; reflexivity|].
  destruct (String.eqb (ad_id a) id); [right; lia|].
  destruct (Z.eqb_spec (findIndex id ads) (-1)); [left; reflexivity | right; lia].
Qed.

Lemma findIndex_found (id : string) (ads : list ad) :
  findIndex id ads <> (-1)%Z ->
  exists a, ads !! Z.to_nat (findIndex id ads) = Some a /\ ad_id a = id.
Proof.
  induction ads as [|a ads IH]; cbn [findIndex]; [congruence|].
  destruct (String.eqb_spec (ad_id a) id) as [E | _].
  - intros _. exists a. split; [reflexivity | exact E].
  - destruct (Z.eqb_spec (findIndex id ads) (-1)) as [E | Hne]; [congruence|].
    intros _. destruct (IH Hne) as (b & Hb & Hid).
    exists b. split; [|exact Hid].
    destruct (findIndex_range id ads) as [? | ?]; [contradiction|].
    replace (Z.to_nat (findIndex id ads + 1)) with (S (Z.to_nat (findIndex id ads))) by lia.
    exact Hb.
Qed.

Lemma findIndex_missing (id : string) (ads : list ad) :
  findIndex id ads = (-1)%Z <-> forall a, a ∈ ads -> ad_id a <> id.
Proof.
  induction ads as [|a ads IH]; cbn [findIndex].
  - split; [intros _ a H; inversion H | reflexivity].
  - destruct (String.eqb_spec (ad_id a) id) as [E | Hne].
    + split; [discriminate|]. intros H. exfalso. apply (H a); [left | exact E].
    + destruct (Z.eqb_spec (findIndex id ads) (-1)) as [E | Hne'].
      * split; [|reflexivity]. intros _ b Hb.
        apply elem_of_cons in Hb as [-> | Hb]; [exact Hne | apply IH; assumption].
      * split.
        -- destruct (findIndex_range id ads); lia.
        -- intros H. exfalso. apply Hne', IH. intros b Hb. apply H. right. exact Hb.
Qed.

(** With unique ids, [findIndex] gives back the place of an ad. *)
Lemma findIndex_of_lookup (ads : list ad) (k : nat) (a : ad) :
  NoDup (ad_id <$> ads) -> ads !! k = Some a -> findIndex (ad_id a) ads = Z.of_nat k.
Proof.
  revert k. induction ads as [|b ads IH]; intros k Hnd Hk; [discriminate|].
  rewrite fmap_cons in Hnd. apply NoDup_cons in Hnd as [Hb Hnd].
  cbn [findIndex]. destruct k as [|k].
  - injection Hk as ->. rewrite String.eqb_refl. reflexivity.
  - cbn in Hk. destruct (String.eqb_spec (ad_id b) (ad_id a)) as [E | _].
    + exfalso. apply Hb. rewrite E. apply list_elem_of_fmap. exists a.
      split; [reflexivity|]. apply list_elem_of_lookup. exists k. exact Hk.
    + rewrite (IH k Hnd Hk).
      destruct (Z.eqb_spec (Z.of_nat k) (-1)); lia.
Qed.

(** For filtered ads with unique ids: [openDetail] on one of them selects
    that ad and opens the panel; on an ad whose id is not among them it
    selects nothing (index -1) and leaves the panel as it was. *)
Theorem openDetail_selects (a : ad) (filteredAds : list ad) (d : detail) :
  NoDup (ad_id <$> filteredAds) ->
  ((forall b, b ∈ filteredAds -> ad_id b <> ad_id a) ->
     openDetail a filteredAds d = mkDetail (-1) (detailOpen d))
  /\ (a ∈ filteredAds ->
        detailOpen (openDetail a filteredAds d) = true
        /\ (0 <= selectedIndex (openDetail a filteredAds d)
            < Z.of_nat (length filteredAds))%Z
        /\ at_ filteredAds (selectedIndex (openDetail a filteredAds d)) = Some a).
Proof.
  intros Hnd. split.
  - intros H. apply findIndex_missing in H. unfold openDetail. rewrite H. reflexivity.
  - intros Ha. apply list_elem_of_lookup in Ha as [k Hk].
    pose proof (lookup_lt_Some _ _ _ Hk) as Hlt.
    unfold openDetail. rewrite (findIndex_of_lookup _ _ _ Hnd Hk).
    destruct (Z.eqb_spec (Z.of_nat k) (-1)); [lia|]. cbn [selectedIndex detailOpen].
    split; [reflexivity|]. split; [lia|].
    unfold at_. destruct (Z.ltb_spec (Z.of_nat k) 0); [lia|].
    rewrite Nat2Z.id. exact Hk.
Qed.

Lemma openDetail_selects_witness :
  at_ [newsAd; sportsAd; autosAd]
      (selectedIndex (openDetail sportsAd [newsAd; sportsAd; autosAd] (mkDetail 0 false)))
  = Some sportsAd.
Proof.
  apply (openDetail_selects sportsAd [newsAd; sportsAd; autosAd] (mkDetail 0 false)).
  - repeat (apply NoDup_cons; split;
            [cbn; rewrite ?elem_of_cons, ?elem_of_nil; intuition discriminate|]).
    apply NoDup_nil. exact I.
  - right. left.
Defined.

Lemma navigate_to (filteredAds : list ad) (k : nat) (a : ad) (d : detail) :
  NoDup (ad_id <$> filteredAds) -> filteredAds !! k = Some a ->
  at_ filteredAds (Z.of_nat k) = Some a
  /\ openDetail a filteredAds d = mkDetail (Z.of_nat k) true.
Proof.
  intros Hnd Hk. split.
  - unfold at_. destruct (Z.ltb_spec (Z.of_nat k) 0); [lia|]. rewrite Nat2Z.id. exact Hk.
  - unfold openDetail. rewrite (findIndex_of_lookup _ _ _ Hnd Hk).
    destruct (Z.eqb_spec (Z.of_nat k) (-1)); [lia | reflexivity].
Qed.

(** The arrows of the detail panel, for filtered ads with unique ids and
    an open panel on a valid index: [navigateDetail(1)] goes to the next
    ad and from the last to the first, [navigateDetail(-1)] to the
    previous ad and from the first to the last; each undoes the other, and
    the panel stays open.  A closed panel ignores the arrows. *)
Theorem navigateDetail_wraps (filteredAds : list ad) (i : Z) :
  NoDup (ad_id <$> filteredAds) ->
  (0 <= i < Z.of_nat (length filteredAds))%Z ->
  navigateDetail 1 filteredAds (mkDetail i true)
  = mkDetail ((i + 1) mod Z.of_nat (length filteredAds)) true
  /\ navigateDetail (-1) filteredAds (mkDetail i true)
     = mkDetail ((i - 1) mod Z.of_nat (length filteredAds)) true
  /\ navigateDetail (-1) filteredAds (navigateDetail 1 filteredAds (mkDetail i true))
     = mkDetail i true
  /\ navigateDetail 1 filteredAds (navigateDetail (-1) filteredAds (mkDetail i true))
     = mkDetail i true
  /\ (forall direction, navigateDetail direction filteredAds (mkDetail i false)
                        = mkDetail i false).
Proof.
  intros Hnd Hi. set (n := Z.of_nat (length filteredAds)) in *.
  assert (Hgo : forall j direction, (0 <= j < n)%Z -> (direction = 1 \/ direction = -1)%Z ->
            navigateDetail direction filteredAds (mkDetail j true)
            = mkDetail ((j + direction) mod n) true).
  { intros j direction Hj Hd. unfold navigateDetail. cbn [detailOpen negb selectedIndex].
    fold n.
    set (t := if (j + direction <? 0)%Z then (n - 1)%Z
              else if (n <=? j + direction)%Z then 0%Z else (j + direction)%Z).
    assert (Ht : (0 <= t < n)%Z /\ t = ((j + direction) mod n)%Z).
    { subst t. destruct (Z.ltb_spec (j + direction) 0).
      - split; [lia|]. assert (j = 0%Z /\ direction = (-1)%Z) as [-> ->] by lia.
        apply Z.mod_unique with (q := (-1)%Z); lia.
      - destruct (Z.leb_spec n (j + direction)).
        + split; [lia|]. assert (j + direction = n)%Z as -> by lia.
          symmetry. apply Z.mod_same. lia.
        + split; [lia|]. symmetry. apply Z.mod_small. lia. }
    destruct Ht as [Hrange <-].
    destruct (lookup_lt_is_Some_2 filteredAds (Z.to_nat t) ltac:(lia)) as [a Ha].
    replace t with (Z.of_nat (Z.to_nat t)) by lia.
    destruct (navigate_to filteredAds (Z.to_nat t) a
                (mkDetail (Z.of_nat (Z.to_nat t)) true) Hnd Ha) as [-> ->].
    reflexivity. }
  assert (Hmod : forall j, (0 <= j mod n < n)%Z) by (intros j; apply Z.mod_pos_bound; lia).
  split; [apply Hgo; [exact Hi | left; reflexivity]|].
  split; [apply (Hgo i (-1)%Z); [exact Hi | right; reflexivity]|].
  split; [|split].
  - rewrite (Hgo i 1%Z) by (auto; lia). rewrite (Hgo _ (-1)%Z) by (auto; lia).
    f_equal. rewrite Zplus_mod_idemp_l.
    replace (i + 1 + -1)%Z with i by lia. apply Z.mod_small. exact Hi.
  - rewrite (Hgo i (-1)%Z) by (auto; lia). rewrite (Hgo _ 1%Z) by (auto; lia).
    f_equal. rewrite Zplus_mod_idemp_l.
    replace (i + -1 + 1)%Z with i by lia. apply Z.mod_small. exact Hi.
  - intros direction. reflexivity.
Qed.

Lemma navigateDetail_wraps_witness :
  navigateDetail 1 [newsAd; sportsAd; autosAd] (mkDetail 2 true) = mkDetail 0 true
  /\ navigateDetail (-1) [newsAd; sportsAd; autosAd] (mkDetail 0 true) = mkDetail 2 true.
Proof.
  split.
  - apply (navigateDetail_wraps [newsAd; sportsAd; autosAd] 2).
    + repeat (apply NoDup_cons; split; [cbn; rewrite ?elem_of_cons, ?elem_of_nil; intuition discriminate|]).
      apply NoDup_nil. exact I.
    + cbn. lia.
  - apply (navigateDetail_wraps [newsAd; sportsAd; autosAd] 0).
    + repeat (apply NoDup_cons; split; [cbn; rewrite ?elem_of_cons, ?elem_of_nil; intuition discriminate|]).
      apply NoDup_nil. exact I.
    + cbn. lia.
Defined.

End DetailsFacts.

(** ** The life of an animation, and of a completion callback *)

Module AnimatorLifeFacts.
Import Num Animator AnimatorFacts.
Local Open Scope Q_scope.

Lemma forallb_elem {A : Type} (f : A -> bool) (l : list A) :
  forallb f l = true <-> forall x, x ∈ l -> f x = true.
Proof.
  induction l as [|y l IH]; cbn [forallb].
  - split; [intros _ x H; inversion H | reflexivity].
  - rewrite andb_true_iff, IH. split.
    + intros [Hy Hl] x Hx. apply elem_of_cons in Hx as [-> | Hx]; [exact Hy | exact (Hl x Hx)].
    + intros H. split; [apply H; left | intros x Hx; apply H; right; exact Hx].
Qed.

Lemma existsb_elem {A : Type} (f : A -> bool) (l : list A) :
  existsb f l = true <-> exists x, x ∈ l /\ f x = true.
Proof.
  induction l as [|y l IH]; cbn [existsb].
  - split; [discriminate | intros (x & H & _); inversion H].
  - rewrite orb_true_iff, IH. split.
    + intros [Hy | (x & Hx & Hf)];
        [exists y; split; [left | exact Hy] | exists x; split; [right; exact Hx | exact Hf]].
    + intros (x & Hx & Hf). apply elem_of_cons in Hx as [-> | Hx];
        [left; exact Hf | right; exists x; split; assumption].
Qed.

Lemma omap_cons' {A B : Type} (f : A -> option B) (x : A) (l : list A) :
  omap f (x :: l) = match f x with Some y => y :: omap f l | None => omap f l end.
Proof. reflexivity. Qed.

(** *** What a loop starts *)

(** What a loop leaves alone, and the animations it starts: one for each
    entry that fires, numbered from the end of the list on. *)
Lemma loop_fields (fire : nat * option element -> option (element * keyframes * Q))
    (entries : list (nat * option element)) (acc : animator * list nat) :
  pending (fold_left (stepWith fire) entries acc).1 = pending acc.1
  /\ completed (fold_left (stepWith fire) entries acc).1 = completed acc.1
  /\ (fold_left (stepWith fire) entries acc).2
     = acc.2 ++ seq (length (animations acc.1)) (length (omap fire entries))
  /\ length (animations (fold_left (stepWith fire) entries acc).1)
     = (length (animations acc.1) + length (omap fire entries))%nat.
Proof.
  revert acc. induction entries as [|entry entries IH]; intros acc; cbn [fold_left].
  - cbn. rewrite app_nil_r, Nat.add_0_r. repeat split; reflexivity.
  - destruct (IH (stepWith fire acc entry)) as (Ep & Ec & Es & El).
    rewrite Ep, Ec, Es, El, omap_cons'. clear Ep Ec Es El.
    unfold stepWith. destruct (fire entry) as [[[e kf] du]|] eqn:Ef.
    + cbn [fst snd].
      destruct (startAnimation_fields e kf du (staggerDelay acc.1 * ofNat entry.1) acc.1)
        as (_ & Ea & Eid & _ & Epe & Eco & _).
      rewrite Epe, Eco, Ea, Eid, length_app, afterCancel_length. cbn [length].
      rewrite <- app_assoc. cbn [app seq].
      replace (length (animations acc.1) + 1)%nat with (S (length (animations acc.1))) by lia.
      repeat split; try reflexivity. lia.
    + repeat split; reflexivity.
Qed.

(** *** When [onComplete] is called *)

(** The browser finishes these animations, in this order. *)
Definition finishAll (order : list nat) (s : animator) : animator :=
  fold_left (fun s id => finish id s) order s.

(** What [finish] does to an animation. *)
Definition done (a : animation) : animation :=
  match state a with Running => finishAnimation a | _ => a end.

Lemma done_done (a : animation) : done (done a) = done a.
Proof. unfold done. destruct (state a) eqn:E; cbn; rewrite ?E; reflexivity. Qed.

Lemma finish_animations (id : nat) (s : animator) :
  animations (finish id s) = alter done id (animations s).
Proof.
  apply list_eq. intros j. rewrite list_lookup_alter. unfold finish.
  destruct (animations s !! id) as [a|] eqn:Ea.
  - destruct (state a) eqn:Es; cbn [animations].
    + rewrite list_lookup_insert. pose proof (lookup_lt_Some _ _ _ Ea) as Hlt.
      destruct (decide (id = j)) as [<- | Hne].
      * rewrite decide_True by (split; [reflexivity | exact Hlt]).
        cbn. unfold done. rewrite Es. reflexivity.
      * rewrite decide_False by (intros [? _]; contradiction). reflexivity.
    + destruct (decide (id = j)) as [<- | Hne]; [|reflexivity].
      rewrite Ea. cbn. unfold done. rewrite Es. reflexivity.
    + destruct (decide (id = j)) as [<- | Hne]; [|reflexivity].
      rewrite Ea. cbn. unfold done. rewrite Es. reflexivity.
  - destruct (decide (id = j)) as [<- | Hne]; [|reflexivity]. rewrite Ea. reflexivity.
Qed.

Lemma finish_fields (id : nat) (s : animator) :
  pending (finish id s) = pending s /\ completed (finish id s) = completed s.
Proof.
  unfold finish. destruct (animations s !! id) as [a|]; [|split; reflexivity].
  destruct (state a); split; reflexivity.
Qed.

Lemma finishAll_fields (order : list nat) (s : animator) :
  pending (finishAll order s) = pending s /\ completed (finishAll order s) = completed s.
Proof.
  revert s. induction order as [|id order IH]; intros s; [split; reflexivity|].
  cbn [finishAll fold_left]. fold (finishAll order (finish id s)).
  destruct (IH (finish id s)) as [-> ->]. apply finish_fields.
Qed.

Lemma finishAll_lookup (order : list nat) (s : animator) (j : nat) :
  animations (finishAll order s) !! j
  = if decide (j ∈ order) then done <$> animations s !! j else animations s !! j.
Proof.
  revert s. induction order as [|id order IH]; intros s; cbn [finishAll fold_left].
  - rewrite decide_False by (apply not_elem_of_nil). reflexivity.
  - fold (finishAll order (finish id s)). rewrite IH, finish_animations, list_lookup_alter.
    destruct (decide (id = j)) as [<- | Hne].
    + rewrite (decide_True (P := id ∈ id :: order)) by left.
      destruct (decide (id ∈ order)); [|reflexivity].
      destruct (animations s !! id); cbn; rewrite ?done_done; reflexivity.
    + destruct (decide (j ∈ order)) as [Hin | Hnin].
      * rewrite decide_True by (right; exact Hin). reflexivity.
      * rewrite decide_False; [reflexivity|].
        intros H. apply elem_of_cons in H as [-> | H]; contradiction.
Qed.

(** The elements a loop starts an animation on. *)
Definition targets (fire : nat * option element -> option (element * keyframes * Q))
    (entries : list (nat * option element)) : list element :=
  (fun x => x.1.1) <$> omap fire entries.

(** An animation as [el.animate] has made it: it runs, and its first
    [finished] promise is pending. *)
Definition fresh (a : animation) : Prop :=
  state a = Running /\ finished a = Pending /\ replaced a = [].

(** A loop over distinct elements cancels none of the animations it
    starts. *)
Lemma loop_distinct_running (fire : nat * option element -> option (element * keyframes * Q))
    (entries : list (nat * option element)) (acc : animator * list nat) :
  registryTargets acc.1 ->
  NoDup (targets fire entries) ->
  (forall id, id ∈ acc.2 ->
     exists a, animations acc.1 !! id = Some a /\ fresh a
               /\ target a ∉ targets fire entries) ->
  forall id, id ∈ (fold_left (stepWith fire) entries acc).2 ->
    exists a, animations (fold_left (stepWith fire) entries acc).1 !! id = Some a
              /\ fresh a.
Proof.
  revert acc. induction entries as [|entry entries IH]; intros acc Hreg Hnd Hacc;
    cbn [fold_left].
  - intros id Hin. destruct (Hacc id Hin) as (a & Ha & Hs & _). exists a. split; assumption.
  - unfold targets in Hnd, Hacc. rewrite omap_cons' in Hnd, Hacc.
    unfold stepWith. destruct (fire entry) as [[[e kf] du]|] eqn:Ef.
    + rewrite fmap_cons in Hnd, Hacc. cbn [fst] in Hnd, Hacc.
      apply NoDup_cons in Hnd as [He Hnd]. apply IH; cbn [fst snd].
      * apply startAnimation_targets. exact Hreg.
      * exact Hnd.
      * intros id Hin.
        destruct (startAnimation_fields e kf du (staggerDelay acc.1 * ofNat entry.1) acc.1)
          as (_ & Ea & Eid & _).
        rewrite Ea. apply elem_of_app in Hin as [Hin | Hin].
        -- destruct (Hacc id Hin) as (a & Ha & Hs & Ht).
           apply not_elem_of_cons in Ht as [Hte Htr].
           exists a. split; [|split; assumption].
           apply lookup_app_l_Some. unfold afterCancel.
           destruct (runningAnimations acc.1 !! e) as [old|] eqn:Eo; [|exact Ha].
           rewrite cancel_lookup_ne; [exact Ha|]. intros ->.
           destruct (Hreg e id Eo) as (b & Hb & Htb).
           congruence.
        -- apply list_elem_of_singleton in Hin. rewrite Eid in Hin. subst id.
           exists (animate e kf du (staggerDelay acc.1 * ofNat entry.1) Unregister).
           split; [|split; [repeat split | exact He]].
           rewrite lookup_app_r by (rewrite afterCancel_length; lia).
           rewrite afterCancel_length, Nat.sub_diag. reflexivity.
    + apply IH; assumption.
Qed.

Lemma targets_fade (kf : keyframes) (dur : Q) (g : nat -> nat)
    (elements : list (option element)) :
  targets (fireFade kf dur) (imap (fun i x => (g i, x)) elements) = omap id elements.
Proof.
  revert g. induction elements as [|x l IH]; intros g; [reflexivity|].
  rewrite imap_cons. unfold targets in *. rewrite !omap_cons'.
  destruct x as [e|]; unfold fireFade at 1; cbn [snd id].
  - rewrite fmap_cons. cbn [fst]. f_equal. apply (IH (g ∘ S)).
  - apply (IH (g ∘ S)).
Qed.

Lemma targets_fade_pair (kf : keyframes) (dur : Q) (elements : list (option element)) :
  targets (fireFade kf dur) (imap pair elements) = omap id elements.
Proof. exact (targets_fade kf dur (fun i => i) elements). Qed.

(** One run of the promise jobs on a single reaction. *)
Lemma settle_single (s : animator) (refs : list (nat * nat)) (cb : nat) (res rej : bool) :
  pending s = [(refs, Some cb)] ->
  forallb (promiseIs Fulfilled (animations s)) refs = res ->
  existsb (promiseIs Rejected (animations s)) refs = rej ->
  completed (settle s) = completed s ++ (if res then [cb] else [])
  /\ pending (settle s) = if negb res && negb rej then [(refs, Some cb)] else [].
Proof.
  intros Hp Hres Hrej. unfold settle. cbn [completed pending]. rewrite Hp.
  rewrite !filter_cons, !filter_nil. cbn [fst]. rewrite Hres, Hrej.
  destruct res, rej; cbn; split; reflexivity.
Qed.

(** What it is for a call that started the animations [r.2] and left the
    animator [r.1] to complete once: the animations are the [count] next
    ones; as long as one of them has not finished the callback is not
    invoked and the reaction waits, for the first [finished] promise of
    each of them; once all have finished, in whatever order and whatever
    else finished, the next run of the promise jobs invokes the callback
    and drops the reaction. *)
Definition completesOnce (s : animator) (cb : nat) (count : nat)
    (r : animator * list nat) : Prop :=
  r.2 = seq (length (animations s)) count
  /\ (forall order, (exists id, id ∈ r.2 /\ id ∉ order) ->
        completed (settle (finishAll order r.1)) = completed s
        /\ pending (settle (finishAll order r.1))
           = [((fun id => (id, 0%nat)) <$> r.2, Some cb)])
  /\ (forall order, (forall id, id ∈ r.2 -> id ∈ order) ->
        completed (settle (finishAll order r.1)) = completed s ++ [cb]
        /\ pending (settle (finishAll order r.1)) = []).

Lemma promiseIs_first (st : promiseState) (l : list animation) (id : nat) (a : animation) :
  l !! id = Some a -> replaced a = [] ->
  promiseIs st l (id, 0%nat)
  = match finished a, st with
    | Pending, Pending | Fulfilled, Fulfilled | Rejected, Rejected => true
    | _, _ => false
    end.
Proof.
  intros Ha Hr. unfold promiseIs. cbn [fst snd]. rewrite Ha, Hr. reflexivity.
Qed.

Lemma loop_completes_once (fire : nat * option element -> option (element * keyframes * Q))
    (elements : list (option element)) (s : animator) (cb : nat) :
  registryTargets s -> pending s = [] ->
  NoDup (targets fire (imap pair elements)) ->
  completesOnce s cb (length (targets fire (imap pair elements)))
    (thenComplete (fold_left (stepWith fire) (imap pair elements) (s, [])).2 (Some cb)
                  (fold_left (stepWith fire) (imap pair elements) (s, [])).1,
     (fold_left (stepWith fire) (imap pair elements) (s, [])).2).
Proof.
  intros Hreg Hpend Hnd.
  destruct (loop_fields fire (imap pair elements) (s, [])) as (Ep & Ec & Es & _).
  pose proof (loop_distinct_running fire (imap pair elements) (s, []) Hreg Hnd) as Hrun.
  cbn [fst snd] in Ep, Ec, Es, Hrun.
  set (r := fold_left (stepWith fire) (imap pair elements) (s, [])) in *.
  specialize (Hrun ltac:(intros id Hid; inversion Hid)).
  set (refs := (fun id => (id, 0%nat)) <$> r.2).
  assert (Hrefs : finishedOf (animations r.1) <$> r.2 = refs).
  { apply Forall_fmap_ext, Forall_forall. intros id Hid.
    destruct (Hrun id Hid) as (a & Ha & _ & _ & Hr).
    unfold finishedOf. rewrite Ha, Hr. reflexivity. }
  set (s1 := thenComplete r.2 (Some cb) r.1).
  assert (Hp1 : forall order, pending (finishAll order s1) = [(refs, Some cb)]).
  { intros order. rewrite (proj1 (finishAll_fields order s1)).
    subst s1. cbn [thenComplete pending]. rewrite Ep, Hpend, Hrefs. reflexivity. }
  assert (Hc1 : forall order, completed (finishAll order s1) = completed s).
  { intros order. rewrite (proj2 (finishAll_fields order s1)). exact Ec. }
  assert (Hat : forall order id, id ∈ r.2 ->
            exists a, animations (finishAll order s1) !! id = Some a /\ replaced a = []
                      /\ finished a = if decide (id ∈ order) then Fulfilled else Pending).
  { intros order id Hid. destruct (Hrun id Hid) as (a & Ha & Hs & Hf & Hr).
    rewrite finishAll_lookup. change (animations s1) with (animations r.1). rewrite Ha.
    destruct (decide (id ∈ order)).
    - exists (finishAnimation a).
      split; [cbn; unfold done; rewrite Hs; reflexivity|]. split; [exact Hr|]. cbn. rewrite Hf. reflexivity.
    - exists a. split; [reflexivity|]. split; assumption. }
  assert (Hrej : forall order,
            existsb (promiseIs Rejected (animations (finishAll order s1))) refs = false).
  { intros order. destruct (existsb _ refs) eqn:E; [exfalso | reflexivity].
    apply existsb_elem in E as (ref & Href & Hc).
    apply list_elem_of_fmap in Href as (id & -> & Hid).
    destruct (Hat order id Hid) as (a & Ha & Hr & Hf).
    rewrite (promiseIs_first _ _ _ _ Ha Hr), Hf in Hc.
    destruct (decide (id ∈ order)); discriminate. }
  unfold completesOnce. cbn [fst snd]. unfold targets. rewrite length_fmap.
  split; [exact Es|]. split.
  - intros order (id & Hid & Hnot).
    assert (Hres : forallb (promiseIs Fulfilled (animations (finishAll order s1))) refs
                   = false).
    { destruct (forallb _ refs) eqn:E; [exfalso | reflexivity].
      assert (Href : (id, 0%nat) ∈ refs).
      { apply list_elem_of_fmap. exists id. split; [reflexivity | exact Hid]. }
      pose proof (proj1 (forallb_elem _ _) E _ Href) as Hf.
      destruct (Hat order id Hid) as (a & Ha & Hr & Hfin).
      rewrite (promiseIs_first _ _ _ _ Ha Hr), Hfin, decide_False in Hf by exact Hnot.
      discriminate. }
    destruct (settle_single _ _ _ _ _ (Hp1 order) Hres (Hrej order)) as [-> ->].
    rewrite Hc1. cbn. split; [apply app_nil_r | reflexivity].
  - intros order Hall.
    assert (Hres : forallb (promiseIs Fulfilled (animations (finishAll order s1))) refs
                   = true).
    { apply forallb_elem. intros ref Href.
      apply list_elem_of_fmap in Href as (id & -> & Hid).
      destruct (Hat order id Hid) as (a & Ha & Hr & Hfin).
      rewrite (promiseIs_first _ _ _ _ Ha Hr), Hfin, decide_True by (apply Hall; exact Hid).
      reflexivity. }
    destruct (settle_single _ _ _ _ _ (Hp1 order) Hres (Hrej order)) as [-> ->].
    rewrite Hc1. split; reflexivity.
Qed.

(** [fadeOut] and [fadeIn] on elements of which none occurs twice: the
    call starts one animation for each element that is not null, and
    [onComplete] is called once, at the first run of the promise jobs
    after the last of these animations has finished, and not before. *)
Theorem fade_completes_once (elements : list (option element)) (duration : option Q)
    (cb : nat) (s : animator) :
  reachable s -> pending s = [] -> NoDup (omap id elements) ->
  completesOnce s cb (length (omap id elements)) (fadeOut elements duration (Some cb) s)
  /\ completesOnce s cb (length (omap id elements)) (fadeIn elements duration (Some cb) s).
Proof.
  intros Hreach Hpend Hnd. pose proof (reachable_targets s Hreach) as Hreg.
  split.
  - unfold fadeOut. rewrite loop_agrees_fade.
    rewrite <- (targets_fade_pair FadeOutFrames (parsedOr duration 300) elements).
    apply loop_completes_once; [exact Hreg | exact Hpend|].
    rewrite targets_fade_pair. exact Hnd.
  - unfold fadeIn. rewrite loop_agrees_fade.
    rewrite <- (targets_fade_pair FadeInFrames (parsedOr duration 300) elements).
    apply loop_completes_once; [exact Hreg | exact Hpend|].
    rewrite targets_fade_pair. exact Hnd.
Qed.

Lemma fade_completes_once_witness :
  completed (settle (finishAll [1%nat; 0%nat]
               (fadeOut [Some 7%nat; None; Some 8%nat] None (Some 4%nat)
                        (newAnimator None None)).1))
  = [4%nat]
  /\ completed (settle (finishAll [1%nat]
                  (fadeOut [Some 7%nat; None; Some 8%nat] None (Some 4%nat)
                           (newAnimator None None)).1))
     = [].
Proof.
  destruct (fade_completes_once [Some 7%nat; None; Some 8%nat] None 4%nat
              (newAnimator None None)) as [(Hids & Hwait & Hdone) _].
  - apply reachable_new.
  - reflexivity.
  - cbn. repeat (apply NoDup_cons; split;
                 [rewrite ?elem_of_cons, ?elem_of_nil; intuition discriminate|]).
    apply NoDup_nil. exact I.
  - split.
    + apply (Hdone [1%nat; 0%nat]). intros id. rewrite Hids. cbn.
      rewrite !elem_of_cons, !elem_of_nil. tauto.
    + apply (Hwait [1%nat]). exists 0%nat. rewrite Hids. cbn.
      rewrite !elem_of_cons, !elem_of_nil. split; [tauto | intuition discriminate].
Defined.

(** *** Idle animations stay idle *)

(** Every idle animation of [l] is in [l'] as it is in [l]. *)
Definition keepsIdle (l l' : list animation) : Prop :=
  forall id a, l !! id = Some a -> state a = Canceled -> l' !! id = Some a.

Lemma keepsIdle_refl (l : list animation) : keepsIdle l l.
Proof. intros id a H _. exact H. Qed.

Lemma keepsIdle_trans (l1 l2 l3 : list animation) :
  keepsIdle l1 l2 -> keepsIdle l2 l3 -> keepsIdle l1 l3.
Proof. intros H12 H23 id a Ha Hs. apply H23; [apply H12|]; assumption. Qed.

Lemma cancelAnimation_idle (a : animation) : state a = Canceled -> cancelAnimation a = a.
Proof. intros H. unfold cancelAnimation. rewrite H. reflexivity. Qed.

(** After [cancel()] an animation is idle and its [finished] promise is
    pending, provided that held of it if it was idle before. *)
Lemma cancelAnimation_pending (a : animation) :
  (state a = Canceled -> finished a = Pending) ->
  state (cancelAnimation a) = Canceled /\ finished (cancelAnimation a) = Pending.
Proof.
  intros H. unfold cancelAnimation. destruct (state a) eqn:E; cbn; try (split; reflexivity).
  split; [exact E | apply H; reflexivity].
Qed.

Lemma cancel_keepsIdle (id : nat) (l : list animation) : keepsIdle l (cancel id l).
Proof.
  intros j a Ha Hs. destruct (decide (id = j)) as [<- | Hne].
  - rewrite cancel_lookup_eq, Ha. cbn. rewrite cancelAnimation_idle by exact Hs. reflexivity.
  - rewrite cancel_lookup_ne by exact Hne. exact Ha.
Qed.

Lemma afterCancel_keepsIdle (e : element) (s : animator) :
  keepsIdle (animations s) (afterCancel e s).
Proof.
  unfold afterCancel. destruct (runningAnimations s !! e);
    [apply cancel_keepsIdle | apply keepsIdle_refl].
Qed.

Lemma app_keepsIdle (l more : list animation) : keepsIdle l (l ++ more).
Proof. intros id a Ha _. apply lookup_app_l_Some. exact Ha. Qed.

Lemma startAnimation_keepsIdle (e : element) (kf : keyframes) (du de : Q) (s : animator) :
  keepsIdle (animations s) (animations (startAnimation e kf du de s).1).
Proof.
  destruct (startAnimation_fields e kf du de s) as (_ & -> & _).
  exact (keepsIdle_trans _ _ _ (afterCancel_keepsIdle e s) (app_keepsIdle _ _)).
Qed.

Lemma loop_keepsIdle (fire : nat * option element -> option (element * keyframes * Q))
    (entries : list (nat * option element)) (acc : animator * list nat) :
  keepsIdle (animations acc.1) (animations (fold_left (stepWith fire) entries acc).1).
Proof.
  revert acc. induction entries as [|entry entries IH]; intros acc; cbn [fold_left];
    [apply keepsIdle_refl|].
  refine (keepsIdle_trans _ _ _ _ (IH _)).
  unfold stepWith. destruct (fire entry) as [[[e kf] du]|]; [|apply keepsIdle_refl].
  cbn [fst]. apply startAnimation_keepsIdle.
Qed.

Lemma finish_keepsIdle (id : nat) (s : animator) :
  keepsIdle (animations s) (animations (finish id s)).
Proof.
  unfold finish. destruct (animations s !! id) as [a|] eqn:Ea; [|apply keepsIdle_refl].
  destruct (state a) eqn:Es; try apply keepsIdle_refl.
  intros j b Hb Hsb. cbn [animations].
  rewrite list_lookup_insert_ne; [exact Hb|]. intros ->. congruence.
Qed.

Lemma dispatch_animations (s : animator) : animations (dispatch s) = animations s.
Proof.
  unfold dispatch. destruct (events s); [reflexivity|].
  destruct (animations s !! _) as [a|]; [|reflexivity].
  destruct (onfinish a); reflexivity.
Qed.

Lemma cancelAll_keepsIdle (s : animator) :
  keepsIdle (animations s) (animations (cancelAll s)).
Proof.
  cbn [cancelAll animations].
  apply (map_fold_weak_ind (fun r (_ : gmap element nat) => keepsIdle (animations s) r)).
  - apply keepsIdle_refl.
  - intros e id m r _ H. exact (keepsIdle_trans _ _ _ H (cancel_keepsIdle id r)).
Qed.

Lemma step_keepsIdle (s s' : animator) :
  step s s' -> keepsIdle (animations s) (animations s').
Proof.
  intros Hstep. destruct Hstep; unfold flip, fadeOut, fadeIn; cbn [fst].
  - rewrite loop_agrees_flip. apply (loop_keepsIdle _ _ (_, [])).
  - rewrite loop_agrees_fade. apply (loop_keepsIdle _ _ (_, [])).
  - rewrite loop_agrees_fade. apply (loop_keepsIdle _ _ (_, [])).
  - apply app_keepsIdle.
  - apply app_keepsIdle.
  - apply finish_keepsIdle.
  - rewrite dispatch_animations. apply keepsIdle_refl.
  - apply cancelAll_keepsIdle.
  - apply keepsIdle_refl.
Qed.

(** Only the promise jobs invoke the callbacks of the reactions. *)
Lemma step_completed (s s' : animator) :
  step s s' -> completed s' = completed s \/ s' = settle s.
Proof.
  intros Hstep. destruct Hstep; unfold flip, fadeOut, fadeIn; cbn [fst];
    try (left; reflexivity); try (right; reflexivity).
  - left. rewrite loop_agrees_flip. apply (loop_fields _ _ (_, [])).
  - left. rewrite loop_agrees_fade. apply (loop_fields _ _ (_, [])).
  - left. rewrite loop_agrees_fade. apply (loop_fields _ _ (_, [])).
  - left. apply finish_fields.
  - left. unfold dispatch. destruct (events s); [reflexivity|].
    destruct (animations s !! _) as [a|]; [|reflexivity].
    destruct (onfinish a); reflexivity.
Qed.

(** *** An element that occurs twice *)

(** A reaction that waits for the current [finished] promise of an idle
    animation: nothing in the code plays the animation again, so the
    promise stays pending. *)
Definition stalled (s : animator) (p : list (nat * nat) * option nat) : Prop :=
  exists id a, (id, length (replaced a)) ∈ p.1
    /\ animations s !! id = Some a /\ state a = Canceled /\ finished a = Pending.

(** The callback [cb] has not been invoked, and every reaction that would
    invoke it is stalled. *)
Definition unanswered (cb : nat) (s : animator) : Prop :=
  (cb ∉ completed s)
  /\ forall p, p ∈ pending s -> p.2 = Some cb -> stalled s p.

(** A step of the animator that is not a call passing [cb] as
    [onComplete] again: it adds no reaction that invokes [cb]. *)
Definition stepApart (cb : nat) (s s' : animator) : Prop :=
  step s s' /\ forall p, p ∈ pending s' -> p.2 = Some cb -> p ∈ pending s.

Lemma stalled_not_resolved (s : animator) (p : list (nat * nat) * option nat) :
  stalled s p -> forallb (promiseIs Fulfilled (animations s)) p.1 = false.
Proof.
  intros (id & a & Href & Ha & _ & Hf).
  destruct (forallb _ p.1) eqn:E; [exfalso | reflexivity].
  pose proof (proj1 (forallb_elem _ _) E _ Href) as H.
  unfold promiseIs in H. cbn [fst snd] in H. rewrite Ha in H.
  rewrite (list_lookup_middle (replaced a) [] (finished a) _ eq_refl), Hf in H.
  discriminate.
Qed.

Lemma stepApart_unanswered (cb : nat) (s s' : animator) :
  stepApart cb s s' -> unanswered cb s -> unanswered cb s'.
Proof.
  intros [Hstep Hold] [Hc Hst]. split.
  - destruct (step_completed s s' Hstep) as [-> | ->]; [exact Hc|].
    cbn [settle completed]. intros Hin. apply elem_of_app in Hin as [Hin | Hin];
      [exact (Hc Hin)|].
    apply list_elem_of_omap in Hin as (p & Hp & Hcb).
    apply list_elem_of_filter in Hp as [Hres Hp].
    rewrite (stalled_not_resolved s p (Hst p Hp Hcb)) in Hres. discriminate.
  - intros p Hin Hcb.
    destruct (Hst p (Hold p Hin Hcb) Hcb) as (id & a & Href & Ha & Hs & Hf).
    exists id, a. split; [exact Href|]. split; [|split; assumption].
    exact (step_keepsIdle s s' Hstep id a Ha Hs).
Qed.

Lemma steps_unanswered (cb : nat) (s s' : animator) :
  rtc (stepApart cb) s s' -> unanswered cb s -> unanswered cb s'.
Proof.
  induction 1 as [|s1 s2 s3 H12 _ IH]; intros H; [exact H|].
  apply IH. exact (stepApart_unanswered cb s1 s2 H12 H).
Qed.

Lemma afterCancel_lookup (e : element) (s : animator) (j : nat) (a : animation) :
  animations s !! j = Some a ->
  afterCancel e s !! j = Some a \/ afterCancel e s !! j = Some (cancelAnimation a).
Proof.
  intros Ha. unfold afterCancel. destruct (runningAnimations s !! e) as [old|];
    [|left; exact Ha].
  destruct (decide (old = j)) as [<- | Hne].
  - right. rewrite cancel_lookup_eq, Ha. reflexivity.
  - left. rewrite cancel_lookup_ne by exact Hne. exact Ha.
Qed.

(** A loop that comes to an element again cancels the animation that the
    registry held for it, if nothing else has canceled it before. *)
Lemma loop_restarts (fire : nat * option element -> option (element * keyframes * Q))
    (e : element) (old : nat)
    (entries : list (nat * option element)) (acc : animator * list nat) :
  runningAnimations acc.1 !! e = Some old ->
  (exists a, animations acc.1 !! old = Some a
             /\ (state a = Canceled -> finished a = Pending)) ->
  (exists entry kf du, entry ∈ entries /\ fire entry = Some (e, kf, du)) ->
  exists a, animations (fold_left (stepWith fire) entries acc).1 !! old = Some a
            /\ state a = Canceled /\ finished a = Pending.
Proof.
  revert acc. induction entries as [|entry entries IH]; intros acc Hold (a & Ha & Hp) Hfire.
  - destruct Hfire as (x & _ & _ & Hin & _). inversion Hin.
  - cbn [fold_left]. unfold stepWith at 2.
    destruct (fire entry) as [[[e' kf] du]|] eqn:Ef.
    + set (dl := staggerDelay acc.1 * ofNat entry.1).
      destruct (startAnimation_fields e' kf du dl acc.1) as (Er & Ea & _).
      destruct (decide (e' = e)) as [-> | Hne].
      * (* this entry restarts [e] *)
        destruct (cancelAnimation_pending a Hp) as [Hs Hf].
        exists (cancelAnimation a). split; [|split; assumption].
        apply loop_keepsIdle; [|exact Hs]. cbn [fst]. rewrite Ea.
        apply lookup_app_l_Some. unfold afterCancel.
        rewrite Hold, cancel_lookup_eq, Ha. reflexivity.
      * apply IH.
        -- cbn [fst]. rewrite Er, lookup_insert_ne by exact Hne. exact Hold.
        -- cbn [fst]. rewrite Ea.
           destruct (afterCancel_lookup e' acc.1 old a Ha) as [H | H].
           ++ exists a. split; [apply lookup_app_l_Some; exact H | exact Hp].
           ++ exists (cancelAnimation a). split; [apply lookup_app_l_Some; exact H|].
              intros _. apply cancelAnimation_pending. exact Hp.
        -- destruct Hfire as (x & kf' & du' & Hin & Hx).
           apply elem_of_cons in Hin as [-> | Hin]; [congruence|].
           exists x, kf', du'. split; assumption.
    + apply IH; [exact Hold | exists a; split; assumption|].
      destruct Hfire as (x & kf' & du' & Hin & Hx).
      apply elem_of_cons in Hin as [-> | Hin]; [congruence|].
      exists x, kf', du'. split; assumption.
Qed.

Lemma split_repeated {A : Type} (elements : list A) (i j : nat) (x y : A) :
  (i < j)%nat -> elements !! i = Some x -> elements !! j = Some y ->
  exists l1 l2 n m, imap pair elements = l1 ++ (n, x) :: l2 /\ (m, y) ∈ l2.
Proof.
  intros Hlt Hi Hj.
  eexists _, _, _, (length (take i elements) + S (j - S i))%nat. split.
  { transitivity (imap pair (take i elements ++ x :: drop (S i) elements));
      [f_equal; symmetry; apply take_drop_middle; exact Hi|].
    rewrite imap_app, imap_cons. reflexivity. }
  apply elem_of_lookup_imap. exists (j - S i)%nat, y. split; [reflexivity|].
  rewrite lookup_drop. replace (S i + (j - S i))%nat with j by lia. exact Hj.
Qed.

(** A loop that comes to an element a second time cancels the animation
    it started on it the first time, and leaves it idle. *)
Lemma loop_cancels_repeated (fire : nat * option element -> option (element * keyframes * Q))
    (l1 l2 : list (nat * option element)) (entry : nat * option element)
    (e : element) (kf : keyframes) (du : Q) (acc : animator * list nat) :
  fire entry = Some (e, kf, du) ->
  (exists entry' kf' du', entry' ∈ l2 /\ fire entry' = Some (e, kf', du')) ->
  exists id a,
    id ∈ (fold_left (stepWith fire) (l1 ++ entry :: l2) acc).2
    /\ animations (fold_left (stepWith fire) (l1 ++ entry :: l2) acc).1 !! id = Some a
    /\ state a = Canceled /\ finished a = Pending.
Proof.
  intros Hfire Hagain. rewrite fold_left_app. cbn [fold_left].
  set (acc1 := fold_left (stepWith fire) l1 acc).
  unfold stepWith at 2 4. rewrite Hfire.
  set (dl := staggerDelay acc1.1 * ofNat entry.1).
  destruct (startAnimation_fields e kf du dl acc1.1) as (Er & Ea & Eid & _).
  set (acc2 := ((startAnimation e kf du dl acc1.1).1,
                acc1.2 ++ [(startAnimation e kf du dl acc1.1).2])).
  assert (Hreg : runningAnimations acc2.1 !! e = Some (length (animations acc1.1))).
  { subst acc2. cbn [fst]. rewrite Er. apply lookup_insert_eq. }
  assert (Hnew : exists a, animations acc2.1 !! length (animations acc1.1) = Some a
                           /\ (state a = Canceled -> finished a = Pending)).
  { exists (animate e kf du dl Unregister). subst acc2. cbn [fst]. rewrite Ea. split.
    - apply list_lookup_middle. rewrite afterCancel_length. reflexivity.
    - reflexivity. }
  destruct (loop_restarts fire e _ l2 acc2 Hreg Hnew Hagain) as (a & Hlookup & Hs & Hf).
  exists (length (animations acc1.1)), a. split; [|split; [exact Hlookup | split; assumption]].
  destruct (loop_fields fire l2 acc2) as (_ & _ & -> & _).
  apply elem_of_app. left. subst acc2. cbn [snd]. apply elem_of_app. right.
  apply list_elem_of_singleton. symmetry. exact Eid.
Qed.

(** After the loop of [fadeOut] or [fadeIn] on a list that holds an
    element twice, the reaction of the call is stalled: [a.finished],
    read when the loop is over, is the promise that replaced the one
    rejected by [cancel()]. *)
Lemma fade_repeated_unanswered (kf : keyframes) (dur : Q)
    (elements : list (option element)) (cb : nat) (s : animator) (e : element) (i j : nat) :
  i <> j -> elements !! i = Some (Some e) -> elements !! j = Some (Some e) ->
  cb ∉ completed s -> (forall p, p ∈ pending s -> p.2 <> Some cb) ->
  unanswered cb
    (thenComplete (fold_left (fadeStep kf dur) (imap pair elements) (s, [])).2 (Some cb)
                  (fold_left (fadeStep kf dur) (imap pair elements) (s, [])).1).
Proof.
  intros Hne Hi Hj Hc Hp. rewrite loop_agrees_fade.
  assert (Hsplit : exists l1 l2 n m,
            imap pair elements = l1 ++ (n, Some e) :: l2 /\ (m, Some e) ∈ l2).
  { destruct (decide (i < j)%nat) as [Hlt | Hge].
    - exact (split_repeated elements i j _ _ Hlt Hi Hj).
    - apply (split_repeated elements j i); [lia | exact Hj | exact Hi]. }
  destruct Hsplit as (l1 & l2 & n & m & Hsplit & Hin).
  destruct (loop_cancels_repeated (fireFade kf dur) l1 l2 (n, Some e) e kf dur (s, [])
              eq_refl) as (id & a & Hid & Ha & Hs & Hf).
  { exists (m, Some e), kf, dur. split; [exact Hin | reflexivity]. }
  rewrite <- Hsplit in Hid, Ha.
  destruct (loop_fields (fireFade kf dur) (imap pair elements) (s, [])) as (Ep & Ec & _).
  cbn [fst] in Ep, Ec.
  set (r := fold_left (stepWith (fireFade kf dur)) (imap pair elements) (s, [])) in *.
  split.
  - cbn [thenComplete completed]. rewrite Ec. exact Hc.
  - intros p Hin' Hcb. cbn [thenComplete pending] in Hin'. rewrite Ep in Hin'.
    apply elem_of_app in Hin' as [Hin' | Hin']; [destruct (Hp p Hin' Hcb)|].
    apply list_elem_of_singleton in Hin'. subst p.
    exists id, a. cbn [fst thenComplete animations]. split; [|split; [exact Ha | split; assumption]].
    apply list_elem_of_fmap. exists id. split; [|exact Hid].
    unfold finishedOf. rewrite Ha. reflexivity.
Qed.

(** [fadeOut] and [fadeIn] on a list that holds an element twice never
    call [onComplete]: the second animation on the element cancels the
    first, and the call waits for the promise that the canceled
    animation has from then on, which nothing settles.  So whatever
    happens afterwards (animations finish, events are dispatched,
    [cancelAll], the promise jobs, further calls with callbacks of their
    own), the callback [cb] of the call is not among those invoked. *)
Theorem fade_repeated_element_never_completes (elements : list (option element))
    (duration : option Q) (cb : nat) (s : animator) (e : element) (i j : nat) :
  i <> j ->
  elements !! i = Some (Some e) -> elements !! j = Some (Some e) ->
  cb ∉ completed s -> (forall p, p ∈ pending s -> p.2 <> Some cb) ->
  (forall s', rtc (stepApart cb) (fadeOut elements duration (Some cb) s).1 s' ->
     cb ∉ completed s')
  /\ (forall s', rtc (stepApart cb) (fadeIn elements duration (Some cb) s).1 s' ->
        cb ∉ completed s').
Proof.
  intros Hne Hi Hj Hc Hp. split; intros s' Hsteps.
  - refine (proj1 (steps_unanswered cb _ s' Hsteps _)).
    exact (fade_repeated_unanswered FadeOutFrames (parsedOr duration 300)
             elements cb s e i j Hne Hi Hj Hc Hp).
  - refine (proj1 (steps_unanswered cb _ s' Hsteps _)).
    exact (fade_repeated_unanswered FadeInFrames (parsedOr duration 300)
             elements cb s e i j Hne Hi Hj Hc Hp).
Qed.

Lemma fade_repeated_element_never_completes_witness :
  4%nat ∉ completed
            (settle (finish 1 (fadeOut [Some 7%nat; Some 7%nat] None (Some 4%nat)
                                 (newAnimator None None)).1)).
Proof.
  refine (proj1 (fade_repeated_element_never_completes
                   [Some 7%nat; Some 7%nat] None 4%nat
                   (newAnimator None None) 7%nat 0%nat 1%nat _ _ _ _ _) _ _).
  - lia.
  - reflexivity.
  - reflexivity.
  - cbn. apply not_elem_of_nil.
  - intros p Hin. cbn in Hin. inversion Hin.
  - eapply rtc_l; [|apply rtc_once].
    + split; [apply (step_finish 1)|]. intros p Hin _.
      rewrite (proj1 (finish_fields _ _)) in Hin. exact Hin.
    + split; [apply step_settle|]. intros p Hin _.
      cbn [settle pending] in Hin. apply list_elem_of_filter in Hin. tauto.
Defined.

End AnimatorLifeFacts.

(** ** Zoom and pan of the canvas viewer *)

Module PivotViewerFacts.
Import Num NumFacts PivotViewer.
Local Open Scope Q_scope.

Definition inRange (s : Q) : Prop := minScale <= s /\ s <= maxScale.


Lemma inRange_nonzero (s : Q) : inRange s -> ~ s == 0.
Proof. unfold inRange, minScale. intros [H _] E. rewrite E in H. exact (H eq_refl). Qed.






(** The wheel always leaves a scale within the range, the old scale
    times 0.9 or 1.1 clamped to it; the point of the grid under the mouse
    stays under the mouse. *)
Theorem wheel_zoom_about_mouse (deltaY mouseX mouseY : Q) (v : viewer) :
  inRange (scale v) ->
  exists v',
    wheel deltaY mouseX mouseY v = Some v'
    /\ inRange (scale v')
    /\ scale v'
       == Qmin (Qmax (scale v * (if Qltb 0 deltaY then 9 # 10 else 11 # 10)) minScale) maxScale
    /\ (mouseX - translateX v') * scale v == (mouseX - translateX v) * scale v'
    /\ (mouseY - translateY v') * scale v == (mouseY - translateY v) * scale v'.
Proof.
  intros Hv. pose proof (inRange_nonzero _ Hv) as Hnz. unfold wheel.
  set (newScale := Qmin (Qmax (scale v * (if Qltb 0 deltaY then 9 # 10 else 11 # 10))
                              minScale) maxScale).
  destruct (Qeq_bool newScale (scale v)) eqn:E; cbn [negb].
  - apply Qeq_bool_iff in E. exists v. split; [reflexivity|]. split; [exact Hv|].
    split; [symmetry; exact E|]. split; reflexivity.
  - unfold Viewport.divide.
    destruct (Qeq_bool (scale v) 0) eqn:E0; [apply Qeq_bool_iff in E0; contradiction|].
    eexists. split; [reflexivity|]. cbn [scale translateX translateY].
    split; [|split; [reflexivity|]].
    + split.
      * apply Q.min_glb; [apply Q.le_max_r | discriminate].
      * apply Q.le_min_r.
    + split; field; exact Hnz.
Qed.

Lemma wheel_zoom_about_mouse_witness :
  exists v', wheel (-1) 100 100 (mkViewer 4 0 0) = Some v' /\ scale v' == 4.
Proof.
  destruct (wheel_zoom_about_mouse (-1) 100 100 (mkViewer 4 0 0)) as (v' & Hw & _ & Hs & _).
  - split; [discriminate | apply Qle_refl].
  - exists v'. split; [exact Hw|]. rewrite Hs. reflexivity.
Defined.

Lemma divide_some (a b : Q) : ~ b == 0 -> Viewport.divide a b = Some (a / b).
Proof.
  intros H. unfold Viewport.divide.
  destruct (Qeq_bool b 0) eqn:E; [apply Qeq_bool_iff in E; contradiction | reflexivity].
Qed.

Lemma quotient_nonzero (a b : Q) : ~ a == 0 -> ~ b == 0 -> ~ a / b == 0.
Proof.
  intros Ha Hb E. apply Ha.
  assert (E' : a == a / b * b) by (field; exact Hb). rewrite E', E. ring.
Qed.

Lemma centred (container grid s : Q) :
  ~ s == 0 ->
  0 <= Qmax 0 ((container - grid / s * s) / 2)
  /\ (grid <= container -> Qmax 0 ((container - grid / s * s) / 2) == (container - grid) / 2)
  /\ (container <= grid -> Qmax 0 ((container - grid / s * s) / 2) == 0).
Proof.
  intros Hs.
  assert (E : (container - grid / s * s) / 2 == (container - grid) / 2) by (field; exact Hs).
  split; [apply Q.le_max_l|]. split; intros H.
  - rewrite Q.max_r; [exact E|]. rewrite E.
    set (h := (container - grid) / 2). assert (Eh : h * 2 == container - grid) by (unfold h; field).
    lra.
  - apply Q.max_l. rewrite E.
    set (h := (container - grid) / 2). assert (Eh : h * 2 == container - grid) by (unfold h; field).
    lra.
Qed.

(** [fitToViewport] of the viewer, for a grid that is rendered with some
    size: the new scale lies between [minScale] and 1.5, and the
    translation centres, per axis, the grid as it was rendered before the
    call, at its old scale, or is 0 when that is larger than the
    container. *)
Theorem viewer_fit_range (containerWidth containerHeight gridWidth gridHeight : Q)
    (v : viewer) :
  ~ scale v == 0 -> ~ gridWidth == 0 -> ~ gridHeight == 0 ->
  exists v',
    fitToViewport containerWidth containerHeight gridWidth gridHeight v = Some v'
    /\ minScale <= scale v' /\ scale v' <= 3 # 2
    /\ 0 <= translateX v' /\ 0 <= translateY v'
    /\ (gridWidth <= containerWidth -> translateX v' == (containerWidth - gridWidth) / 2)
    /\ (containerWidth <= gridWidth -> translateX v' == 0)
    /\ (gridHeight <= containerHeight -> translateY v' == (containerHeight - gridHeight) / 2)
    /\ (containerHeight <= gridHeight -> translateY v' == 0).
Proof.
  intros Hs Hw Hh. unfold fitToViewport.
  rewrite (divide_some gridWidth _ Hs), (divide_some gridHeight _ Hs).
  rewrite (divide_some _ _ (quotient_nonzero _ _ Hw Hs)),
          (divide_some _ _ (quotient_nonzero _ _ Hh Hs)).
  set (s := Qmax (Qmin (Qmin ((containerWidth - 40) / (gridWidth / scale v))
                             ((containerHeight - 40) / (gridHeight / scale v))) (3 # 2))
                 minScale).
  assert (Hmin : minScale <= s) by apply Q.le_max_r.
  assert (Hnz : ~ s == 0).
  { intros E. rewrite E in Hmin. exact (Hmin eq_refl). }
  rewrite (divide_some gridWidth _ Hnz), (divide_some gridHeight _ Hnz).
  eexists. split; [reflexivity|]. cbn [scale translateX translateY].
  split; [exact Hmin|]. split.
  { apply Q.max_lub; [apply Q.le_min_r | discriminate]. }
  destruct (centred containerWidth gridWidth s Hnz) as (Hx0 & Hx1 & Hx2).
  destruct (centred containerHeight gridHeight s Hnz) as (Hy0 & Hy1 & Hy2).
  repeat split; assumption.
Qed.

Lemma viewer_fit_range_witness :
  exists v', fitToViewport 840 640 1600 1200 (mkViewer 2 0 0) = Some v'
             /\ minScale <= scale v' /\ scale v' <= 3 # 2 /\ translateX v' == 0.
Proof.
  destruct (viewer_fit_range 840 640 1600 1200 (mkViewer 2 0 0))
    as (v' & Hv & Hlo & Hhi & _ & _ & _ & Hx & _); try discriminate.
  exists v'. split; [exact Hv|]. split; [exact Hlo|]. split; [exact Hhi|].
  apply Hx. discriminate.
Defined.

End PivotViewerFacts.

(** ** Picking ads to compare *)

Module ComparisonFacts.
Import Filter Details DetailsFacts Comparison Samples.

Definition wellPicked (selectedAds : list ad) : Prop :=
  (length selectedAds <= 4)%nat /\ NoDup (ad_id <$> selectedAds).

Lemma click_selected (a : ad) (selectedAds : list ad) (k : nat) (b : ad) :
  NoDup (ad_id <$> selectedAds) -> selectedAds !! k = Some b -> ad_id b = ad_id a ->
  handleComparisonClick a selectedAds = (delete k selectedAds, false).
Proof.
  intros Hnd Hk Hid. unfold handleComparisonClick.
  rewrite <- Hid, (findIndex_of_lookup _ _ _ Hnd Hk).
  destruct (Z.ltb_spec (-1) (Z.of_nat k)); [|lia]. rewrite Nat2Z.id. reflexivity.
Qed.

Lemma click_new (a : ad) (selectedAds : list ad) :
  (forall b, b ∈ selectedAds -> ad_id b <> ad_id a) ->
  handleComparisonClick a selectedAds
  = if (length selectedAds <? 4)%nat then (selectedAds ++ [a], false)
    else (selectedAds, true).
Proof.
  intros H. apply findIndex_missing in H. unfold handleComparisonClick. rewrite H.
  reflexivity.
Qed.

Lemma click_keeps (a : ad) (selectedAds : list ad) :
  wellPicked selectedAds -> wellPicked (handleComparisonClick a selectedAds).1.
Proof.
  intros [Hlen Hnd]. unfold handleComparisonClick.
  destruct (Z.ltb_spec (-1) (findIndex (ad_id a) selectedAds)) as [Hin | Hout]; cbn [fst].
  - split.
    + pose proof (sublist_length _ _
                    (sublist_delete selectedAds
                       (Z.to_nat (findIndex (ad_id a) selectedAds)))).
      lia.
    + rewrite list_fmap_delete. eapply sublist_NoDup; [exact Hnd | apply sublist_delete].
  - assert (Hmiss : findIndex (ad_id a) selectedAds = (-1)%Z).
    { destruct (findIndex_range (ad_id a) selectedAds); lia. }
    destruct (Nat.ltb_spec (length selectedAds) 4) as [Hlt | Hge]; cbn [fst].
    + split; [rewrite length_app; cbn; lia|].
      rewrite fmap_app. apply NoDup_app. split; [exact Hnd|]. split; [|apply NoDup_singleton].
      intros id Hid Hid'. cbn in Hid'. apply list_elem_of_singleton in Hid'. subst id.
      apply list_elem_of_fmap in Hid as (b & Hb & Hbin).
      apply (proj1 (findIndex_missing _ _) Hmiss b Hbin). symmetry. exact Hb.
    + split; assumption.
Qed.

(** Whatever is clicked in comparison mode, at most four ads are selected
    and no two of them have the same id. *)
Theorem comparison_at_most_four_distinct (l : list ad) :
  (length (clicks l) <= 4)%nat /\ NoDup (ad_id <$> clicks l).
Proof.
  unfold clicks.
  assert (H : forall start, wellPicked start ->
            wellPicked (fold_left (fun selectedAds a => (handleComparisonClick a selectedAds).1)
                                  l start)).
  { induction l as [|a l IH]; intros start Hs; cbn [fold_left]; [exact Hs|].
    apply IH, click_keeps, Hs. }
  apply H. split; [cbn; lia | apply NoDup_nil; exact I].
Qed.

(** A click on a selected ad takes it, and only it, out of the selection;
    a click on an ad that is not selected appends it when fewer than four
    are selected, and a second click on it undoes that; with four selected
    the click changes nothing and the alert is shown. *)
Theorem comparison_click_toggles (a : ad) (selectedAds : list ad) :
  NoDup (ad_id <$> selectedAds) ->
  (forall k b, selectedAds !! k = Some b -> ad_id b = ad_id a ->
     handleComparisonClick a selectedAds = (delete k selectedAds, false))
  /\ ((forall b, b ∈ selectedAds -> ad_id b <> ad_id a) ->
      (length selectedAds < 4)%nat ->
      handleComparisonClick a selectedAds = (selectedAds ++ [a], false)
      /\ handleComparisonClick a (handleComparisonClick a selectedAds).1
         = (selectedAds, false))
  /\ ((forall b, b ∈ selectedAds -> ad_id b <> ad_id a) ->
      (4 <= length selectedAds)%nat ->
      handleComparisonClick a selectedAds = (selectedAds, true)).
Proof.
  intros Hnd. split; [|split].
  - intros k b. apply click_selected. exact Hnd.
  - intros Hnew Hlt. rewrite (click_new a selectedAds Hnew).
    destruct (Nat.ltb_spec (length selectedAds) 4); [|lia].
    split; [reflexivity|]. cbn [fst].
    rewrite (click_selected a (selectedAds ++ [a]) (length selectedAds) a).
    + f_equal. rewrite delete_middle. apply app_nil_r.
    + rewrite fmap_app. apply NoDup_app. split; [exact Hnd|].
      split; [|apply NoDup_singleton].
      intros id Hid Hid'. cbn in Hid'. apply list_elem_of_singleton in Hid'. subst id.
      apply list_elem_of_fmap in Hid as (b & Hb & Hbin).
      apply (Hnew b Hbin). symmetry. exact Hb.
    + apply list_lookup_middle. reflexivity.
    + reflexivity.
  - intros Hnew Hge. rewrite (click_new a selectedAds Hnew).
    destruct (Nat.ltb_spec (length selectedAds) 4); [lia | reflexivity].
Qed.

Lemma comparison_click_toggles_witness :
  handleComparisonClick sportsAd (handleComparisonClick sportsAd [newsAd]).1
  = ([newsAd], false).
Proof.
  refine (proj2 (proj1 (proj2 (comparison_click_toggles sportsAd [newsAd] _)) _ _)).
  - apply NoDup_singleton.
  - intros b Hb. apply list_elem_of_singleton in Hb. subst b. discriminate.
  - cbn. lia.
Defined.

End ComparisonFacts.

(** ** Hit testing on the collage *)

Module CollageFacts.
Import Num NumFacts Collage.
Local Open Scope Q_scope.

(** The rectangle of an ad, its left and top edges included, its right
    and bottom edges not. *)
Definition inside (x y : Q) (pos : gridPosition) : Prop :=
  pos_x pos <= x /\ x < pos_x pos + pos_width pos
  /\ pos_y pos <= y /\ y < pos_y pos + pos_height pos.

Lemma hit_inside (x y : Q) (pos : gridPosition) : hit x y pos = true <-> inside x y pos.
Proof.
  unfold hit, inside. rewrite !andb_true_iff, !Qle_bool_iff, !Qltb_lt. tauto.
Qed.

Lemma findAdFrom_spec (x y : Q) (ads : list gridPosition) (i0 : nat) :
  match findAdFrom i0 x y ads with
  | Some i =>
      exists k pos, i = (i0 + k)%nat /\ ads !! k = Some pos /\ inside x y pos
                    /\ forall j q, (j < k)%nat -> ads !! j = Some q -> ~ inside x y q
  | None => forall pos, pos ∈ ads -> ~ inside x y pos
  end.
Proof.
  revert i0. induction ads as [|pos ads IH]; intros i0; cbn [findAdFrom].
  - intros pos H. inversion H.
  - destruct (hit x y pos) eqn:E.
    + exists 0%nat, pos. split; [lia|]. split; [reflexivity|].
      split; [apply hit_inside; exact E|]. intros j q Hj. lia.
    + assert (Hout : ~ inside x y pos).
      { intros H. apply hit_inside in H. congruence. }
      specialize (IH (S i0)). destruct (findAdFrom (S i0) x y ads) as [i|].
      * destruct IH as (k & q & -> & Hk & Hin & Hfirst).
        exists (S k), q. split; [lia|]. split; [exact Hk|]. split; [exact Hin|].
        intros j r Hj Hr. destruct j as [|j]; [injection Hr as <-; exact Hout|].
        apply (Hfirst j r); [lia | exact Hr].
      * intros q Hq. apply elem_of_cons in Hq as [-> | Hq]; [exact Hout | exact (IH q Hq)].
Qed.

(** [findAdAtPosition] returns the first ad whose rectangle holds the
    point, and none only when no rectangle holds it; a point on the right
    or the bottom edge of an ad is not in it.  Where the rectangles of the
    ads do not overlap, the ad returned is the one ad at the point. *)
Theorem findAdAtPosition_first_hit (x y : Q) (ads : list gridPosition) :
  (forall i, findAdAtPosition x y ads = Some i ->
     (exists pos, ads !! i = Some pos /\ inside x y pos)
     /\ forall j q, (j < i)%nat -> ads !! j = Some q -> ~ inside x y q)
  /\ (findAdAtPosition x y ads = None <-> forall pos, pos ∈ ads -> ~ inside x y pos)
  /\ (forall pos, ~ inside (pos_x pos + pos_width pos) y pos
                  /\ ~ inside x (pos_y pos + pos_height pos) pos)
  /\ ((forall i j p q, i <> j -> ads !! i = Some p -> ads !! j = Some q ->
         ~ (inside x y p /\ inside x y q)) ->
      forall i pos, ads !! i = Some pos -> inside x y pos ->
        findAdAtPosition x y ads = Some i).
Proof.
  pose proof (findAdFrom_spec x y ads 0) as Hspec. unfold findAdAtPosition.
  split; [|split; [|split]].
  - intros i Hi. rewrite Hi in Hspec. destruct Hspec as (k & pos & -> & Hk & Hin & Hfirst).
    split; [exists pos; split; assumption | exact Hfirst].
  - destruct (findAdFrom 0 x y ads) as [i|].
    + destruct Hspec as (k & pos & _ & Hk & Hin & _). split; [discriminate|].
      intros H. exfalso. apply (H pos); [|exact Hin].
      apply list_elem_of_lookup. exists k. exact Hk.
    + split; [intros _; exact Hspec | reflexivity].
  - intros pos. unfold inside. split; intros (H1 & H2 & H3 & H4).
    + apply (Qlt_irrefl _ H2).
    + apply (Qlt_irrefl _ H4).
  - intros Hdisjoint i pos Hi Hin. destruct (findAdFrom 0 x y ads) as [i'|].
    + destruct Hspec as (k & q & -> & Hk & Hq & _). cbn [Nat.add].
      destruct (decide (k = i)) as [-> | Hne]; [reflexivity|].
      exfalso. apply (Hdisjoint k i q pos Hne Hk Hi). split; assumption.
    + exfalso. apply (Hspec pos); [|exact Hin].
      apply list_elem_of_lookup. exists i. exact Hi.
Qed.

End CollageFacts.

(** ** The pan constraint as a fixed point *)

Module ViewportStableFacts.
Import Num NumFacts Viewport ViewportFacts.
Local Open Scope Q_scope.

Lemma constrainAxis_idempotent (cs ct p : Q) :
  constrainAxis cs ct (constrainAxis cs ct p) == constrainAxis cs ct p.
Proof.
  destruct (Qlt_le_dec cs ct) as [Hlt | Hle].
  - destruct (constrainAxis_clamped cs ct p Hlt) as [Hin _].
    destruct (constrainAxis_clamped cs ct (constrainAxis cs ct p) Hlt) as [_ Hkeep].
    apply Hkeep. exact Hin.
  - rewrite !(constrainAxis_fits cs ct _ Hle). reflexivity.
Qed.

(** The centred translation of a content of that size already satisfies
    the constraint. *)
Lemma constrainAxis_centred (cs ct : Q) :
  constrainAxis cs ct ((cs - ct) / 2) == (cs - ct) / 2.
Proof.
  destruct (Qlt_le_dec cs ct) as [Hlt | Hle].
  - apply (constrainAxis_clamped cs ct _ Hlt).
    set (h := (cs - ct) / 2). assert (Eh : h * 2 == cs - ct) by (unfold h; field).
    split; lra.
  - rewrite (constrainAxis_fits cs ct _ Hle). reflexivity.
Qed.

(** [constrainPan] is idempotent: a translation it has produced is one it
    keeps.  So is the translation [zoom] ends with. *)
Theorem constrainPan_idempotent (w : wrapper) (c : container) (v : viewport) :
  veq (constrainPan w c (constrainPan w c v)) (constrainPan w c v)
  /\ forall f v', zoom f w c v = Some v' -> veq (constrainPan w c v') v'.
Proof.
  assert (H : forall u, veq (constrainPan w c (constrainPan w c u)) (constrainPan w c u)).
  { intros u. unfold veq, constrainPan, contentWidth, contentHeight.
    cbn [scale panX panY]. split; [reflexivity|].
    split; apply constrainAxis_idempotent. }
  split; [apply H|].
  intros f v'. unfold zoom. destruct (zoomUnconstrained f c v) as [u|]; [|discriminate].
  cbn [option_map]. intros [= <-]. apply H.
Qed.

(** For a wrapper with a width and a height, [fitToViewport] leaves a
    translation that satisfies the pan constraint: [constrainPan] applied
    to it changes nothing. *)
Theorem fitToViewport_satisfies_constrainPan (w : wrapper) (c : container) (v : viewport) :
  ~ parsedOr (styleWidth w) (offsetWidth w) == 0 ->
  ~ parsedOr (styleHeight w) (offsetHeight w) == 0 ->
  fitToViewport w c = Some v ->
  veq (constrainPan w c v) v.
Proof.
  intros Hw Hh. unfold fitToViewport.
  destruct (fitScale w c) as [s|]; [|discriminate]. intros [= <-].
  unfold veq, constrainPan, contentWidth, contentHeight, fitContentWidth, fitContentHeight.
  cbn [scale panX panY].
  rewrite (AnimatorFacts.orNum_nonzero _ (clientWidth c) Hw),
          (AnimatorFacts.orNum_nonzero _ (clientHeight c) Hh).
  split; [reflexivity|]. split; apply constrainAxis_centred.
Qed.

Lemma fitToViewport_satisfies_constrainPan_witness :
  exists v,
    fitToViewport (mkWrapper (Some 1000) (Some 500) 0 0) (mkContainer 440 440) = Some v
    /\ veq (constrainPan (mkWrapper (Some 1000) (Some 500) 0 0) (mkContainer 440 440) v) v.
Proof.
  eexists. split; [vm_compute; reflexivity|].
  apply (fitToViewport_satisfies_constrainPan
           (mkWrapper (Some 1000) (Some 500) 0 0) (mkContainer 440 440)).
  - discriminate.
  - discriminate.
  - vm_compute. reflexivity.
Defined.

End ViewportStableFacts.
